(** * Shallow embedding of the vLLM prefill/decode scheduler

    The TypeScript sources modelled here are [types.ts], [worker-pool.ts],
    [kv-cache.ts], [health.ts], [vllm-client.ts] and [scheduler.ts] of the
    [vllm-pd-scheduler] extension, and the page monitor
    [monitor-deepseek-v4.js] of the workspace tools.

    Conventions of the embedding:
    - a JavaScript [number] holding an integer (counters, millisecond
      time stamps, limits) is a [Z]; the private round-robin counters, which
      start at 0 and are only ever incremented, are [N]; [gpuUtilization],
      a fraction, is a [Q];
    - [Date.now()] is an argument [now] of every synchronous section that
      reads the clock;
    - a [Map] is an association list in insertion order ([JsMap]) where the
      code iterates over it (the worker registry) and a [gmap] where it is
      only read and written by key (the in-flight table);
    - request objects are shared between the queue, the in-flight table and
      the running pipelines, so they live in a store and are named by their
      allocation index;
    - an [async] function is cut at its [await]s into synchronous sections;
      the sections suspended on an [await] are part of the state. *)

From Stdlib Require Import ZArith QArith Qround Permutation Ascii.
From stdpp Require Import base strings list sorting gmap pretty.

(** ** [types.ts] *)

Inductive WorkerRole := prefill | decode.
Inductive WorkerStatus := idle | busy | draining | offline.

#[global] Instance WorkerRole_eq_dec : EqDecision WorkerRole.
Proof. solve_decision. Defined.
#[global] Instance WorkerStatus_eq_dec : EqDecision WorkerStatus.
Proof. solve_decision. Defined.

Module WorkerInfo.
Record t := mk {
  id : string;
  endpoint : string;
  role : WorkerRole;
  status : WorkerStatus;
  gpuUtilization : Q;
  activeRequests : Z;
  maxConcurrency : Z;
  lastHealthCheck : Z;
  modelId : string
}.

Definition set_status (st : WorkerStatus) (w : t) : t :=
  mk (id w) (endpoint w) (role w) st (gpuUtilization w) (activeRequests w)
     (maxConcurrency w) (lastHealthCheck w) (modelId w).
Definition set_gpuUtilization (g : Q) (w : t) : t :=
  mk (id w) (endpoint w) (role w) (status w) g (activeRequests w)
     (maxConcurrency w) (lastHealthCheck w) (modelId w).
Definition set_activeRequests (a : Z) (w : t) : t :=
  mk (id w) (endpoint w) (role w) (status w) (gpuUtilization w) a
     (maxConcurrency w) (lastHealthCheck w) (modelId w).
Definition set_lastHealthCheck (h : Z) (w : t) : t :=
  mk (id w) (endpoint w) (role w) (status w) (gpuUtilization w)
     (activeRequests w) (maxConcurrency w) h (modelId w).
End WorkerInfo.

Module WorkerSeedConfig.
Record t := mk {
  id : string;
  endpoint : string;
  role : WorkerRole;
  modelId : string;
  maxConcurrency : option Z
}.
End WorkerSeedConfig.

Inductive RequestPriority := high | normal | low.

Inductive RequestPhase :=
  queued | prefilling | transferring | decoding | completed | failed.

(** [SchedulingStrategy]; [other_strategy] stands for a configuration value
    outside the three declared ones, which reaches the [default:] branch of
    [WorkerPool.select]. *)
Inductive SchedulingStrategy :=
  round_robin | least_loaded | latency_aware | other_strategy.

Module SamplingParams.
Record t := mk {
  maxTokens : option Z;
  temperature : option Q;
  topP : option Q;
  topK : option Z;
  repetitionPenalty : option Q;
  stop : option (list string);
  stream : option bool
}.
Definition empty : t := mk None None None None None None None.
End SamplingParams.

(** [string | number[]] *)
Inductive Prompt :=
| PromptText (text : string)
| PromptTokens (tokens : list Z).

Module InferenceRequest.
Record t := mk {
  requestId : string;
  modelId : string;
  prompt : Prompt;
  samplingParams : SamplingParams.t;
  priority : RequestPriority;
  phase : RequestPhase;
  createdAt : Z;
  prefillWorkerId : option string;
  decodeWorkerId : option string;
  kvCacheHandle : option string;
  timeoutMs : option Z
}.

Definition set_phase (p : RequestPhase) (r : t) : t :=
  mk (requestId r) (modelId r) (prompt r) (samplingParams r) (priority r) p
     (createdAt r) (prefillWorkerId r) (decodeWorkerId r) (kvCacheHandle r)
     (timeoutMs r).
Definition set_prefillWorkerId (w : string) (r : t) : t :=
  mk (requestId r) (modelId r) (prompt r) (samplingParams r) (priority r)
     (phase r) (createdAt r) (Some w) (decodeWorkerId r) (kvCacheHandle r)
     (timeoutMs r).
Definition set_decodeWorkerId (w : string) (r : t) : t :=
  mk (requestId r) (modelId r) (prompt r) (samplingParams r) (priority r)
     (phase r) (createdAt r) (prefillWorkerId r) (Some w) (kvCacheHandle r)
     (timeoutMs r).
Definition set_kvCacheHandle (h : option string) (r : t) : t :=
  mk (requestId r) (modelId r) (prompt r) (samplingParams r) (priority r)
     (phase r) (createdAt r) (prefillWorkerId r) (decodeWorkerId r) h
     (timeoutMs r).
End InferenceRequest.

Module InferenceResult.
Record t := mk {
  requestId : string;
  text : string;
  tokenCount : Z;
  prefillLatencyMs : Z;
  decodeLatencyMs : Z;
  totalLatencyMs : Z;
  prefillWorkerId : string;
  decodeWorkerId : string
}.
End InferenceResult.

(** The transfer manager and the scheduler name the two end points
    [sourceWorkerId] and [targetWorkerId]; those are the names used here. *)
Module KVCacheTransferRequest.
Record t := mk {
  requestId : string;
  sourceWorkerId : string;
  targetWorkerId : string;
  cacheHandle : string;
  cacheSizeBytes : Z
}.
End KVCacheTransferRequest.

Module KVCacheTransferResult.
Record t := mk {
  requestId : string;
  success : bool;
  transferDurationMs : Z;
  targetCacheHandle : option string;
  error : option string
}.
End KVCacheTransferResult.

Module KvTransferConfig.
Record t := mk { maxConcurrent : Z; timeoutMs : Z }.
End KvTransferConfig.

Module PDSchedulerConfig.
Record t := mk {
  enabled : bool;
  strategy : SchedulingStrategy;
  healthCheckIntervalMs : Z;
  workerTimeoutMs : Z;
  maxQueueSize : Z;
  defaultRequestTimeoutMs : Z;
  workers : list WorkerSeedConfig.t;
  kvTransfer : KvTransferConfig.t
}.
End PDSchedulerConfig.

Inductive SchedulerEvent :=
| request_queued (requestId : string) (timestamp : Z)
| prefill_started (requestId workerId : string) (timestamp : Z)
| prefill_completed (requestId workerId : string) (latencyMs timestamp : Z)
| transfer_started (requestId from to : string) (timestamp : Z)
| transfer_completed (requestId : string) (durationMs timestamp : Z)
| decode_started (requestId workerId : string) (timestamp : Z)
| decode_completed (requestId workerId : string) (latencyMs timestamp : Z)
| request_completed (requestId : string) (totalLatencyMs timestamp : Z)
| request_failed (requestId error : string) (timestamp : Z)
| worker_online (workerId : string) (role : WorkerRole) (timestamp : Z)
| worker_offline (workerId : string) (timestamp : Z).

(** [Pick<WorkerInfo, "id" | "role" | "status" | "gpuUtilization" |
    "activeRequests">] *)
Module WorkerSummary.
Record t := mk {
  id : string;
  role : WorkerRole;
  status : WorkerStatus;
  gpuUtilization : Q;
  activeRequests : Z
}.
End WorkerSummary.

Module SchedulerMetrics.
Record t := mk {
  queueDepth : Z;
  activePrefills : Z;
  activeTransfers : Z;
  activeDecodes : Z;
  totalCompleted : Z;
  totalFailed : Z;
  avgLatencyMs : Z;
  avgPrefillLatencyMs : Z;
  avgDecodeLatencyMs : Z;
  workers : list WorkerSummary.t
}.
End SchedulerMetrics.

(** A thrown JavaScript value: an [Error] object with its [message], or any
    other value, with its [String(...)] rendering. *)
Inductive Thrown :=
| ErrorObj (message : string)
| NonError (rendering : string).

(** [err instanceof Error ? err.message : String(err)] *)
Definition thrown_message (e : Thrown) : string :=
  match e with ErrorObj m => m | NonError s => s end.

(** [err instanceof Error ? err : new Error(String(err))] *)
Definition as_error (e : Thrown) : Thrown :=
  match e with ErrorObj m => ErrorObj m | NonError s => ErrorObj s end.

(** How a promise stands. *)
Inductive Settlement (A : Type) :=
| Pending
| Resolved (a : A)
| Rejected (e : Thrown).
Arguments Pending {A}.
Arguments Resolved {A} a.
Arguments Rejected {A} e.

(** ** A JavaScript [Map] with string keys, in insertion order *)

Module JsMap.
Section ops.
Context {V : Type}.

Definition t := list (string * V).

Fixpoint get (k : string) (m : list (string * V)) : option V :=
  match m with
  | [] => None
  | (k', v) :: m' => if decide (k' = k) then Some v else get k m'
  end.

(** [set] on a key that is present keeps the key's position. *)
Fixpoint set (k : string) (v : V) (m : list (string * V))
  : list (string * V) :=
  match m with
  | [] => [(k, v)]
  | (k', v') :: m' =>
      if decide (k' = k) then (k, v) :: m' else (k', v') :: set k v m'
  end.

(** [delete] returns whether the key was present. *)
Fixpoint delete (k : string) (m : list (string * V))
  : bool * list (string * V) :=
  match m with
  | [] => (false, [])
  | (k', v') :: m' =>
      if decide (k' = k) then (true, m')
      else let '(b, r) := delete k m' in (b, (k', v') :: r)
  end.

Definition values (m : list (string * V)) : list V := map snd m.
Definition keys (m : list (string * V)) : list string := map fst m.
End ops.
End JsMap.

(** ** [worker-pool.ts] *)

Module WorkerPool.

(** A JavaScript array; the class has a method called [list]. *)
Local Abbreviation array := Datatypes.list.

(** [roundRobinCounters = { prefill: 0, decode: 0 }] *)
Record Counters := mkCounters { of_prefill : N; of_decode : N }.

Definition counter (c : Counters) (r : WorkerRole) : N :=
  match r with prefill => of_prefill c | decode => of_decode c end.

Definition bump (c : Counters) (r : WorkerRole) : Counters :=
  match r with
  | prefill => mkCounters (of_prefill c + 1) (of_decode c)
  | decode => mkCounters (of_prefill c) (of_decode c + 1)
  end.

Record t := mk {
  workers : array (string * WorkerInfo.t);
  roundRobinCounters : Counters
}.

Definition empty : t := mk [] (mkCounters 0 0).

Definition with_workers (ws : array (string * WorkerInfo.t)) (p : t) : t :=
  mk ws (roundRobinCounters p).

(** *** Registration *)

Definition register (seed : WorkerSeedConfig.t) (now : Z) (p : t)
  : WorkerInfo.t * t :=
  let existing := JsMap.get (WorkerSeedConfig.id seed) (workers p) in
  let info :=
    WorkerInfo.mk
      (WorkerSeedConfig.id seed)
      (WorkerSeedConfig.endpoint seed)
      (WorkerSeedConfig.role seed)
      (default idle (WorkerInfo.status <$> existing))
      (default 0%Q (WorkerInfo.gpuUtilization <$> existing))
      (default 0%Z (WorkerInfo.activeRequests <$> existing))
      (default 32%Z (WorkerSeedConfig.maxConcurrency seed))
      now
      (WorkerSeedConfig.modelId seed) in
  (info, with_workers (JsMap.set (WorkerSeedConfig.id seed) info (workers p)) p).

Definition remove (workerId : string) (p : t) : bool * t :=
  let '(b, ws) := JsMap.delete workerId (workers p) in (b, with_workers ws p).

(** *** Queries *)

Definition get (workerId : string) (p : t) : option WorkerInfo.t :=
  JsMap.get workerId (workers p).

Definition list (role : option WorkerRole) (p : t) : array WorkerInfo.t :=
  let all := JsMap.values (workers p) in
  match role with
  | Some r => filter (λ w, WorkerInfo.role w = r) all
  | None => all
  end.

Definition can_accept (w : WorkerInfo.t) : bool :=
  (bool_decide (WorkerInfo.status w = idle)
   || bool_decide (WorkerInfo.status w = busy))
  && (WorkerInfo.activeRequests w <? WorkerInfo.maxConcurrency w)%Z.

Definition available (role : WorkerRole) (p : t) : array WorkerInfo.t :=
  filter (λ w, can_accept w = true) (list (Some role) p).

(** *** Private selection helpers *)

Definition selectRoundRobin (candidates : array WorkerInfo.t)
    (role : WorkerRole) (p : t) : option WorkerInfo.t * t :=
  let idx :=
    (counter (roundRobinCounters p) role
       mod N.of_nat (length candidates))%N in
  (candidates !! N.to_nat idx,
   mk (workers p) (bump (roundRobinCounters p) role)).

(** [Array.prototype.reduce] without an initial value: the first element
    is the initial accumulator; on an empty array it throws. *)
Definition reduce1 {A} (f : A → A → A) (l : array A) : option A :=
  match l with
  | [] => None
  | x :: l' => Some (foldl f x l')
  end.

Definition selectLeastLoaded (candidates : array WorkerInfo.t)
  : option WorkerInfo.t :=
  reduce1 (λ best cur,
             if (WorkerInfo.activeRequests cur
                 <? WorkerInfo.activeRequests best)%Z
             then cur else best) candidates.

Definition Qlt_bool (a b : Q) : bool := negb (Qle_bool b a).

Definition selectLatencyAware (candidates : array WorkerInfo.t)
  : option WorkerInfo.t :=
  reduce1 (λ best cur,
             if Qlt_bool (WorkerInfo.gpuUtilization cur)
                         (WorkerInfo.gpuUtilization best)
             then cur else best) candidates.

(** *** Selection *)

Definition select (role : WorkerRole) (strategy : SchedulingStrategy)
    (p : t) : option WorkerInfo.t * t :=
  let candidates := available role p in
  if bool_decide (length candidates = 0%nat) then (None, p)
  else
    match strategy with
    | round_robin => selectRoundRobin candidates role p
    | least_loaded => (selectLeastLoaded candidates, p)
    | latency_aware => (selectLatencyAware candidates, p)
    | other_strategy => (candidates !! 0%nat, p)
    end.

(** *** Status updates *)

(** The code mutates the [WorkerInfo] object held by the map. *)
Definition mutate (workerId : string) (f : WorkerInfo.t → WorkerInfo.t)
    (p : t) : t :=
  match JsMap.get workerId (workers p) with
  | None => p
  | Some w => with_workers (JsMap.set workerId (f w) (workers p)) p
  end.

Record MetricsPatch := mkPatch {
  patch_gpuUtilization : option Q;
  patch_activeRequests : option Z;
  patch_status : option WorkerStatus
}.

Definition updateMetrics (workerId : string) (metrics : MetricsPatch)
    (now : Z) (p : t) : t :=
  mutate workerId
    (λ w,
       let w := match patch_gpuUtilization metrics with
                | Some g => WorkerInfo.set_gpuUtilization g w
                | None => w end in
       let w := match patch_activeRequests metrics with
                | Some a => WorkerInfo.set_activeRequests a w
                | None => w end in
       let w := match patch_status metrics with
                | Some s => WorkerInfo.set_status s w
                | None => w end in
       WorkerInfo.set_lastHealthCheck now w) p.

Definition markOffline (workerId : string) (p : t) : t :=
  mutate workerId (WorkerInfo.set_status offline) p.

Definition incrementActive (workerId : string) (p : t) : t :=
  mutate workerId
    (λ w,
       let w := WorkerInfo.set_activeRequests
                  (WorkerInfo.activeRequests w + 1) w in
       if (WorkerInfo.maxConcurrency w <=? WorkerInfo.activeRequests w)%Z
       then WorkerInfo.set_status busy w else w) p.

Definition decrementActive (workerId : string) (p : t) : t :=
  mutate workerId
    (λ w,
       let w := WorkerInfo.set_activeRequests
                  (Z.max 0 (WorkerInfo.activeRequests w - 1)) w in
       if bool_decide (WorkerInfo.status w = busy)
          && (WorkerInfo.activeRequests w <? WorkerInfo.maxConcurrency w)%Z
       then WorkerInfo.set_status idle w else w) p.

Definition is_stale (timeoutMs now : Z) (w : WorkerInfo.t) : bool :=
  negb (bool_decide (WorkerInfo.status w = offline))
  && (timeoutMs <? now - WorkerInfo.lastHealthCheck w)%Z.

(** The [for ... of this.workers.values()] loop: the workers in map order,
    each stale one switched off and its id pushed on [expired]. *)
Fixpoint expireLoop (timeoutMs now : Z) (ws : array (string * WorkerInfo.t))
  : array string * array (string * WorkerInfo.t) :=
  match ws with
  | [] => ([], [])
  | (k, w) :: ws' =>
      let '(expired, rest) := expireLoop timeoutMs now ws' in
      if is_stale timeoutMs now w
      then (WorkerInfo.id w :: expired,
            (k, WorkerInfo.set_status offline w) :: rest)
      else (expired, (k, w) :: rest)
  end.

Definition expireStaleWorkers (timeoutMs now : Z) (p : t)
  : array string * t :=
  let '(expired, ws) := expireLoop timeoutMs now (workers p) in
  (expired, with_workers ws p).

(** The operations that change the pool, as data, to speak about
    sequences of calls. *)
Inductive Op :=
| OpRegister (seed : WorkerSeedConfig.t) (now : Z)
| OpRemove (workerId : string)
| OpSelect (role : WorkerRole) (strategy : SchedulingStrategy)
| OpUpdateMetrics (workerId : string) (metrics : MetricsPatch) (now : Z)
| OpMarkOffline (workerId : string)
| OpIncrementActive (workerId : string)
| OpDecrementActive (workerId : string)
| OpExpireStaleWorkers (timeoutMs now : Z).

Definition apply (op : Op) (p : t) : t :=
  match op with
  | OpRegister seed now => (register seed now p).2
  | OpRemove k => (remove k p).2
  | OpSelect r s => (select r s p).2
  | OpUpdateMetrics k m now => updateMetrics k m now p
  | OpMarkOffline k => markOffline k p
  | OpIncrementActive k => incrementActive k p
  | OpDecrementActive k => decrementActive k p
  | OpExpireStaleWorkers t now => (expireStaleWorkers t now p).2
  end.

(** [n] calls of [select] in a row, with the workers they return. *)
Fixpoint select_many (role : WorkerRole) (strategy : SchedulingStrategy)
    (n : nat) (p : t) : array (option WorkerInfo.t) * t :=
  match n with
  | O => ([], p)
  | S n' =>
      let '(w, p') := select role strategy p in
      let '(ws, p'') := select_many role strategy n' p' in
      (w :: ws, p'')
  end.

Definition run (ops : array Op) (p : t) : t := foldl (λ q op, apply op q) p ops.
End WorkerPool.

(** ** [kv-cache.ts] *)

(** Code that may throw: [inl] is the thrown value. *)
Definition Exc (A : Type) : Type := Thrown + A.

Definition ret {A} (a : A) : Exc A := inr a.
Definition throw {A} (e : Thrown) : Exc A := inl e.

#[global] Instance Exc_bind : MBind Exc :=
  λ A B (k : A → Exc B) (m : Exc A),
    match m with inl e => inl e | inr a => k a end.

(** [try { body } catch (err) { handler }] *)
Definition try_catch {A} (body : Exc A) (handler : Thrown → Exc A) : Exc A :=
  match body with inl e => handler e | inr a => inr a end.


(** What the manager sees of a [fetch]: the promise rejects (network
    failure, or the abort signal of the deadline fired), or it yields a
    response. [text] is the outcome of [await res.text()]; [json] is the
    outcome of [await res.json()], seen through the one property the caller
    reads from the body. *)
Inductive JsonBody :=
| NullBody                            (* reading a property of it throws *)
| ObjectBody (property : option string).  (* the property, or undefined *)

Module Response.
Record t := mk {
  ok : bool;
  status : Z;
  text : Exc string;
  json : Exc JsonBody
}.
End Response.

(** The two calls of one transfer, as the network answers them; the answer
    to the import call may depend on the token sent. *)
Module Network.
Record t := mk {
  export : Exc Response.t;
  import : option string → Exc Response.t
}.
End Network.

Definition read_property (b : JsonBody) : Exc (option string) :=
  match b with
  | NullBody => throw (ErrorObj "Cannot read properties of null")
  | ObjectBody v => ret v
  end.

Module KVCacheTransferManager.

(** A call of [executeTransfer] suspended on [await this.doTransfer(req)]:
    its request, its [start], the promise it returns, and the promise of a
    waiting caller its result is forwarded to
    ([.then(next.resolve, next.reject)]). *)
Record Job := mkJob {
  job_req : KVCacheTransferRequest.t;
  job_start : Z;
  job_promise : nat;
  job_forward : option nat
}.

(** An entry of [pending]: [{ req, resolve, reject }], the last two being
    the two ends of the promise named here. *)
Record Waiting := mkWaiting {
  waiting_req : KVCacheTransferRequest.t;
  waiting_promise : nat
}.

Record t := mk {
  maxConcurrent : Z;
  timeoutMs : Z;
  activeTransfers : Z;
  pending : list Waiting;
  (** the suspended [executeTransfer] calls *)
  suspended : list Job;
  (** the promises handed out, by allocation index *)
  promises : list (Settlement KVCacheTransferResult.t);
  (** history: the promises of the callers pushed on [pending], and of
      the callers whose transfer was started from [pending], each in the
      order that happened *)
  enqueued : list nat;
  started : list nat
}.

Definition create (config : KvTransferConfig.t) : t :=
  mk (KvTransferConfig.maxConcurrent config) (KvTransferConfig.timeoutMs config)
     0 [] [] [] [] [].

Definition active (s : t) : Z := activeTransfers s.
Definition pendingCount (s : t) : nat := length (pending s).

(** [doTransfer]: the export call, then the import call. The [finally]
    clears the deadline timer, which the model does not hold. *)
Definition doTransfer (net : Network.t) (req : KVCacheTransferRequest.t)
  : Exc (option string) :=
  (exportRes ← Network.export net ;
   _ ← (if negb (Response.ok exportRes) then
          (t ← Response.text exportRes ;
           throw (ErrorObj ("KV cache export failed ("
                            +:+ pretty (Response.status exportRes)
                            +:+ "): " +:+ t)))
        else ret tt) ;
   exportBody ← Response.json exportRes ;
   transfer_token ← read_property exportBody ;
   importRes ← Network.import net transfer_token ;
   _ ← (if negb (Response.ok importRes) then
          (t ← Response.text importRes ;
           throw (ErrorObj ("KV cache import failed ("
                            +:+ pretty (Response.status importRes)
                            +:+ "): " +:+ t)))
        else ret tt) ;
   importBody ← Response.json importRes ;
   cache_handle ← read_property importBody ;
   ret cache_handle).

(** [executeTransfer] up to its [await]: the counter goes up and the call
    is suspended. Returns the promise of the call. *)
Definition executeTransfer (req : KVCacheTransferRequest.t)
    (forward : option nat) (now : Z) (s : t) : nat * t :=
  let p := length (promises s) in
  (p, mk (maxConcurrent s) (timeoutMs s) (activeTransfers s + 1) (pending s)
         (suspended s ++ [mkJob req now p forward])
         (promises s ++ [Pending]) (enqueued s)
         (started s ++ option_list forward)).

(** [this.pending.shift()] *)
Definition shift (s : t) : t :=
  mk (maxConcurrent s) (timeoutMs s) (activeTransfers s) (tail (pending s))
     (suspended s) (promises s) (enqueued s) (started s).

(** The loop of [drainPending], over the entries of [pending] from the
    front. *)
Fixpoint drain (entries : list Waiting) (now : Z) (s : t) : t :=
  match entries with
  | [] => s
  | next :: rest =>
      if (activeTransfers s <? maxConcurrent s)%Z then
        drain rest now
          (executeTransfer (waiting_req next) (Some (waiting_promise next))
                           now (shift s)).2
      else s
  end.

Definition drainPending (now : Z) (s : t) : t := drain (pending s) now s.

(** The [try]/[catch] of [executeTransfer], given the outcome of
    [doTransfer]. *)
Definition transferResult (req : KVCacheTransferRequest.t) (start now : Z)
    (outcome : Exc (option string)) : Exc KVCacheTransferResult.t :=
  try_catch
    (result ← outcome ;
     ret (KVCacheTransferResult.mk (KVCacheTransferRequest.requestId req)
            true (now - start) result None))
    (λ err,
       ret (KVCacheTransferResult.mk (KVCacheTransferRequest.requestId req)
              false (now - start) None (Some (thrown_message err)))).

(** How an [async] function's promise settles. *)
Definition settlement {A} (r : Exc A) : Settlement A :=
  match r with inl e => Rejected e | inr a => Resolved a end.

Definition settle (p : nat) (v : Settlement KVCacheTransferResult.t)
    (s : t) : t :=
  mk (maxConcurrent s) (timeoutMs s) (activeTransfers s) (pending s)
     (suspended s) (<[p := v]> (promises s)) (enqueued s) (started s).

(** [executeTransfer] from its [await] on, for the [i]-th suspended call,
    whose two network calls went as [net] says: the result is built, the
    [finally] block lowers the counter and drains, and the promise of the
    call settles, as does the waiting caller's. *)
Definition executeTransfer_resumed (i : nat) (net : Network.t) (now : Z)
    (s : t) : t :=
  match suspended s !! i with
  | None => s
  | Some j =>
      let result :=
        transferResult (job_req j) (job_start j) now
                       (doTransfer net (job_req j)) in
      let s :=
        mk (maxConcurrent s) (timeoutMs s) (activeTransfers s - 1)
           (pending s) (delete i (suspended s)) (promises s)
           (enqueued s) (started s) in
      let s := drainPending now s in
      let s := settle (job_promise j) (settlement result) s in
      match job_forward j with
      | Some q => settle q (settlement result) s
      | None => s
      end
  end.

(** [transfer]: returns the promise the caller awaits. *)
Definition transfer (req : KVCacheTransferRequest.t) (now : Z) (s : t)
  : nat * t :=
  if (activeTransfers s <? maxConcurrent s)%Z then
    executeTransfer req None now s
  else
    let q := length (promises s) in
    (q, mk (maxConcurrent s) (timeoutMs s) (activeTransfers s)
           (pending s ++ [mkWaiting req q]) (suspended s)
           (promises s ++ [Pending]) (enqueued s ++ [q]) (started s)).

(** What can happen to a manager: a caller asks for a transfer, or the
    network calls of a running transfer come to an end. *)
Inductive step : t → t → Prop :=
| step_transfer req now s :
    step s (transfer req now s).2
| step_resumed i net now s :
    is_Some (suspended s !! i) →
    step s (executeTransfer_resumed i net now s).

Definition reachable (config : KvTransferConfig.t) (s : t) : Prop :=
  rtc step (create config) s.
End KVCacheTransferManager.

(** ** [vllm-client.ts]: what the scheduler receives from the worker client *)

Module PrefillResult.
Record t := mk { kvCacheHandle : string; promptTokens : Z; latencyMs : Z }.
End PrefillResult.

Module DecodeResult.
Record t := mk { text : string; completionTokens : Z; latencyMs : Z }.
End DecodeResult.

Module HealthResult.
Record t := mk {
  healthy : bool;
  gpuUtilization : Q;
  activeRequests : Z;
  error : option string
}.
End HealthResult.

(** ** [health.ts] *)

Module LatencyWindow.
Definition WINDOW_SIZE : nat := 200.

Definition t := list Z.

Definition push (value : Z) (samples : list Z) : list Z :=
  let samples := samples ++ [value] in
  if decide (WINDOW_SIZE < length samples) then tail samples else samples.

(** [reduce((a, b) => a + b, 0) / length], a fraction. *)
Definition average (samples : list Z) : Q :=
  match samples with
  | [] => 0%Q
  | _ => (inject_Z (foldl Z.add 0%Z samples)
          / inject_Z (Z.of_nat (length samples)))%Q
  end.
End LatencyWindow.

Module HealthMonitor.
Record t := mk {
  timer : bool;
  latency_total : list Z;
  latency_prefill : list Z;
  latency_decode : list Z;
  completed : Z;
  failed : Z;
  eventLog : list SchedulerEvent
}.

(** The scheduler constructs its monitor without an [onEvent] observer. *)
Definition create : t := mk false [] [] [] 0 0 [].

Definition start (h : t) : t :=
  mk true (latency_total h) (latency_prefill h) (latency_decode h)
     (completed h) (failed h) (eventLog h).

Definition stop (h : t) : t :=
  mk false (latency_total h) (latency_prefill h) (latency_decode h)
     (completed h) (failed h) (eventLog h).

Definition recordCompletion (totalMs prefillMs decodeMs : Z) (h : t) : t :=
  mk (timer h)
     (LatencyWindow.push totalMs (latency_total h))
     (LatencyWindow.push prefillMs (latency_prefill h))
     (LatencyWindow.push decodeMs (latency_decode h))
     (completed h + 1) (failed h) (eventLog h).

Definition recordFailure (h : t) : t :=
  mk (timer h) (latency_total h) (latency_prefill h) (latency_decode h)
     (completed h) (failed h + 1) (eventLog h).

Definition emit (event : SchedulerEvent) (h : t) : t :=
  let log := eventLog h ++ [event] in
  mk (timer h) (latency_total h) (latency_prefill h) (latency_decode h)
     (completed h) (failed h)
     (if decide (1000 < length log) then tail log else log).

(** [eventLog.slice(-limit)] for a positive [limit]. *)
Definition recentEvents (limit : nat) (h : t) : list SchedulerEvent :=
  drop (length (eventLog h) - limit) (eventLog h).

(** One probe of [runHealthChecks] from its [await] on: [w] is the worker
    object the probe was started for. *)
Definition probed (w : WorkerInfo.t) (result : HealthResult.t) (now : Z)
    (ph : WorkerPool.t * t) : WorkerPool.t * t :=
  let '(pool, h) := ph in
  if HealthResult.healthy result then
    (WorkerPool.updateMetrics (WorkerInfo.id w)
       (WorkerPool.mkPatch
          (Some (HealthResult.gpuUtilization result))
          (Some (HealthResult.activeRequests result))
          (Some (if (WorkerInfo.maxConcurrency w
                     <=? HealthResult.activeRequests result)%Z
                 then busy else idle)))
       now pool,
     h)
  else
    (WorkerPool.markOffline (WorkerInfo.id w) pool,
     emit (worker_offline (WorkerInfo.id w) now) h).

(** [runHealthChecks] after [Promise.allSettled]. *)
Definition expire (workerTimeoutMs now : Z) (ph : WorkerPool.t * t)
  : WorkerPool.t * t :=
  let '(pool, h) := ph in
  let '(expired, pool) := WorkerPool.expireStaleWorkers workerTimeoutMs now pool in
  (pool, foldl (λ h wid, emit (worker_offline wid now) h) h expired).

(** [Math.round]: the nearest integer, a half going up. *)
Definition Math_round (x : Q) : Z := Qfloor (x + (1 # 2)).

(** [snapshot(extra)]: [pool] is the pool the monitor shares with the
    scheduler. *)
Definition snapshot (queueDepth activePrefills activeTransfers activeDecodes : Z)
    (pool : WorkerPool.t) (h : t) : SchedulerMetrics.t :=
  SchedulerMetrics.mk queueDepth activePrefills activeTransfers activeDecodes
    (completed h) (failed h)
    (Math_round (LatencyWindow.average (latency_total h)))
    (Math_round (LatencyWindow.average (latency_prefill h)))
    (Math_round (LatencyWindow.average (latency_decode h)))
    (map (λ w, WorkerSummary.mk (WorkerInfo.id w) (WorkerInfo.role w)
                 (WorkerInfo.status w) (WorkerInfo.gpuUtilization w)
                 (WorkerInfo.activeRequests w))
         (WorkerPool.list None pool)).
End HealthMonitor.

(** ** The sort of a JavaScript array

    [Array.prototype.sort] is stable and, for a comparator that is a
    consistent ordering, yields the one stable sorted arrangement whatever
    algorithm the engine uses; insertion sort computes it. [cmp a b <= 0]
    keeps [a] before [b]. *)

Module JsArray.
Section sort.
Context {A : Type} (cmp : A → A → Z).

Fixpoint insert (x : A) (l : list A) : list A :=
  match l with
  | [] => [x]
  | y :: l' => if (cmp x y <=? 0)%Z then x :: y :: l' else y :: insert x l'
  end.

Definition sort (l : list A) : list A := foldr insert [] l.
End sort.
End JsArray.

(** ** [scheduler.ts] *)

Module SubmitOptions.
Record t := mk {
  modelId : string;
  prompt : Prompt;
  samplingParams : option SamplingParams.t;
  priority : option RequestPriority;
  timeoutMs : option Z
}.
End SubmitOptions.

Module PDScheduler.

(** What one accepted [submit] allocates: the request object, and the
    promise whose two ends the in-flight entry holds. *)
Record Cell := mkCell {
  request : InferenceRequest.t;
  promise : Settlement InferenceResult.t
}.

(** The variables of a [runPipeline] call that live across its [await]s.
    [request] is the index of the request object in the store; of the
    captured worker objects only [id] and [endpoint] are read later, and
    these never change on an object. *)
Record Frame := mkFrame {
  frame_request : nat;
  frame_rid : string;
  frame_prefillWorkerId : string;
  frame_prefillStart : Z;
  frame_prefillWorker : option WorkerInfo.t
}.

(** A [runPipeline] call suspended on one of its three [await]s. *)
Inductive Pipeline :=
| AwaitPrefill (f : Frame)
| AwaitTransfer (f : Frame) (prefillResult : PrefillResult.t)
    (decodeWorker : WorkerInfo.t) (transfer : nat)
| AwaitDecode (f : Frame) (prefillResult : PrefillResult.t)
    (decodeWorker : WorkerInfo.t) (transferResult : KVCacheTransferResult.t).

Definition frame (p : Pipeline) : Frame :=
  match p with
  | AwaitPrefill f => f
  | AwaitTransfer f _ _ _ => f
  | AwaitDecode f _ _ _ => f
  end.

(** The scheduler, with the module-level [idCounter], the store of the
    request objects and the suspended pipelines. The pool is the one
    object the scheduler and its health monitor share. *)
Record t := mk {
  config : PDSchedulerConfig.t;
  pool : WorkerPool.t;
  kvManager : KVCacheTransferManager.t;
  health : HealthMonitor.t;
  store : list Cell;
  queue : list nat;
  inflight : gmap string nat;
  activePrefills : Z;
  activeDecodes : Z;
  running : bool;
  idCounter : N;
  pipelines : list Pipeline
}.

Definition set_pool (v : WorkerPool.t) (s : t) : t :=
  mk (config s) v (kvManager s) (health s) (store s) (queue s) (inflight s)
     (activePrefills s) (activeDecodes s) (running s) (idCounter s)
     (pipelines s).
Definition set_kvManager (v : KVCacheTransferManager.t) (s : t) : t :=
  mk (config s) (pool s) v (health s) (store s) (queue s) (inflight s)
     (activePrefills s) (activeDecodes s) (running s) (idCounter s)
     (pipelines s).
Definition set_health (v : HealthMonitor.t) (s : t) : t :=
  mk (config s) (pool s) (kvManager s) v (store s) (queue s) (inflight s)
     (activePrefills s) (activeDecodes s) (running s) (idCounter s)
     (pipelines s).
Definition set_store (v : list Cell) (s : t) : t :=
  mk (config s) (pool s) (kvManager s) (health s) v (queue s) (inflight s)
     (activePrefills s) (activeDecodes s) (running s) (idCounter s)
     (pipelines s).
Definition set_queue (v : list nat) (s : t) : t :=
  mk (config s) (pool s) (kvManager s) (health s) (store s) v (inflight s)
     (activePrefills s) (activeDecodes s) (running s) (idCounter s)
     (pipelines s).
Definition set_inflight (v : gmap string nat) (s : t) : t :=
  mk (config s) (pool s) (kvManager s) (health s) (store s) (queue s) v
     (activePrefills s) (activeDecodes s) (running s) (idCounter s)
     (pipelines s).
Definition set_activePrefills (v : Z) (s : t) : t :=
  mk (config s) (pool s) (kvManager s) (health s) (store s) (queue s)
     (inflight s) v (activeDecodes s) (running s) (idCounter s) (pipelines
     s).
Definition set_activeDecodes (v : Z) (s : t) : t :=
  mk (config s) (pool s) (kvManager s) (health s) (store s) (queue s)
     (inflight s) (activePrefills s) v (running s) (idCounter s) (pipelines
     s).
Definition set_running (v : bool) (s : t) : t :=
  mk (config s) (pool s) (kvManager s) (health s) (store s) (queue s)
     (inflight s) (activePrefills s) (activeDecodes s) v (idCounter s)
     (pipelines s).
Definition set_idCounter (v : N) (s : t) : t :=
  mk (config s) (pool s) (kvManager s) (health s) (store s) (queue s)
     (inflight s) (activePrefills s) (activeDecodes s) (running s) v
     (pipelines s).
Definition set_pipelines (v : list Pipeline) (s : t) : t :=
  mk (config s) (pool s) (kvManager s) (health s) (store s) (queue s)
     (inflight s) (activePrefills s) (activeDecodes s) (running s)
     (idCounter s) v.

(** *** Helpers *)

Definition generateRequestId (now : Z) (s : t) : string * t :=
  let n := (idCounter s + 1)%N in
  ("req-" +:+ pretty now +:+ "-" +:+ pretty n, set_idCounter n s).

Definition PRIORITY_ORDER (p : RequestPriority) : Z :=
  match p with high => 0 | normal => 1 | low => 2 end.

(** *** Constructor *)

Definition create (config : PDSchedulerConfig.t) (now : Z) : t :=
  mk config
     (foldl (λ p seed, (WorkerPool.register seed now p).2) WorkerPool.empty
            (PDSchedulerConfig.workers config))
     (KVCacheTransferManager.create (PDSchedulerConfig.kvTransfer config))
     HealthMonitor.create
     [] [] ∅ 0 0 false 0 [].

(** *** Lifecycle *)

Definition start (s : t) : t :=
  if running s then s
  else set_health (HealthMonitor.start (health s)) (set_running true s).

Definition stop (s : t) : t :=
  set_health (HealthMonitor.stop (health s)) (set_running false s).

(** *** The request objects *)

Definition request_at (st : list Cell) (c : nat) : option InferenceRequest.t :=
  request <$> st !! c.

(** An assignment to fields of the request object [c]. *)
Definition mutate_request (c : nat) (f : InferenceRequest.t → InferenceRequest.t)
    (s : t) : t :=
  set_store (alter (λ cell, mkCell (f (request cell)) (promise cell)) c (store s)) s.

(** [resolve] or [reject] of the promise of [c]: a promise settles once. *)
Definition settle (c : nat) (v : Settlement InferenceResult.t) (s : t) : t :=
  set_store
    (alter (λ cell,
              match promise cell with
              | Pending => mkCell (request cell) v
              | _ => cell
              end) c (store s)) s.

Definition emit (event : SchedulerEvent) (s : t) : t :=
  set_health (HealthMonitor.emit event (health s)) s.

(** *** Submit *)

(** The promise [submit] returns: [inl e] is a promise already rejected
    with [e], [inr c] the promise of the store cell [c]. *)
Definition submit (opts : SubmitOptions.t) (now : Z) (s : t)
  : (Thrown + nat) * t :=
  if (PDSchedulerConfig.maxQueueSize (config s) <=? Z.of_nat (length (queue s)))%Z
  then (inl (ErrorObj "Scheduler queue is full"), s)
  else
    let '(rid, s) := generateRequestId now s in
    let request :=
      InferenceRequest.mk
        rid
        (SubmitOptions.modelId opts)
        (SubmitOptions.prompt opts)
        (default SamplingParams.empty (SubmitOptions.samplingParams opts))
        (default normal (SubmitOptions.priority opts))
        queued
        now
        None None None
        (Some (default (PDSchedulerConfig.defaultRequestTimeoutMs (config s))
                       (SubmitOptions.timeoutMs opts))) in
    let c := length (store s) in
    let s := set_store (store s ++ [mkCell request Pending]) s in
    let s := set_queue (queue s ++ [c]) s in
    let s := set_inflight (<[rid := c]> (inflight s)) s in
    let s := emit (request_queued rid now) s in
    (inr c, s).

(** *** Failure handling *)

Definition fail (requestId : string) (error : Thrown) (now : Z) (s : t) : t :=
  let s := set_health (HealthMonitor.recordFailure (health s)) s in
  let s := emit (request_failed requestId (thrown_message error) now) s in
  match inflight s !! requestId with
  | Some c =>
      let s := mutate_request c (InferenceRequest.set_phase failed) s in
      let s := set_inflight (delete requestId (inflight s)) s in
      settle c (Rejected error) s
  | None => s
  end.

(** *** Pipeline *)

(** [runPipeline] up to [await this.client.prefill(...)]. *)
Definition runPipeline (c : nat) (prefillWorkerId : string) (now : Z) (s : t)
  : t :=
  match request_at (store s) c with
  | None => s
  | Some request =>
      let rid := InferenceRequest.requestId request in
      let s := mutate_request c (InferenceRequest.set_phase prefilling) s in
      let s := mutate_request c
                 (InferenceRequest.set_prefillWorkerId prefillWorkerId) s in
      let s := set_activePrefills (activePrefills s + 1) s in
      let s := set_pool (WorkerPool.incrementActive prefillWorkerId (pool s)) s in
      let s := emit (prefill_started rid prefillWorkerId now) s in
      let prefillWorker := WorkerPool.get prefillWorkerId (pool s) in
      set_pipelines
        (pipelines s
           ++ [AwaitPrefill (mkFrame c rid prefillWorkerId now prefillWorker)])
        s
  end.

(** The [catch] of [runPipeline]: the call ends. *)
Definition caught (i : nat) (f : Frame) (err : Thrown) (now : Z) (s : t) : t :=
  fail (frame_rid f) (as_error err) now
       (set_pipelines (delete i (pipelines s)) s).

(** [runPipeline] from the prefill [await] to the transfer [await]. *)
Definition runPipeline_prefilled (i : nat) (f : Frame)
    (outcome : Exc PrefillResult.t) (now : Z) (s : t) : t :=
  match outcome with
  | inl err => caught i f err now s
  | inr prefillResult =>
      let rid := frame_rid f in
      let c := frame_request f in
      let s := set_pool
                 (WorkerPool.decrementActive (frame_prefillWorkerId f) (pool s))
                 s in
      let s := set_activePrefills (activePrefills s - 1) s in
      let s := emit (prefill_completed rid (frame_prefillWorkerId f)
                       (PrefillResult.latencyMs prefillResult) now) s in
      let s := mutate_request c
                 (InferenceRequest.set_kvCacheHandle
                    (Some (PrefillResult.kvCacheHandle prefillResult))) s in
      let s := mutate_request c (InferenceRequest.set_phase transferring) s in
      let '(decodeWorker, pool') :=
        WorkerPool.select decode (PDSchedulerConfig.strategy (config s))
                          (pool s) in
      let s := set_pool pool' s in
      match decodeWorker with
      | None => caught i f (ErrorObj "No decode worker available") now s
      | Some decodeWorker =>
          let s := mutate_request c
                     (InferenceRequest.set_decodeWorkerId
                        (WorkerInfo.id decodeWorker)) s in
          let s := emit (transfer_started rid (frame_prefillWorkerId f)
                           (WorkerInfo.id decodeWorker) now) s in
          match frame_prefillWorker f with
          | None =>
              caught i f
                (ErrorObj "Cannot read properties of undefined (reading 'endpoint')")
                     now s
          | Some prefillWorker =>
              let '(q, kv) :=
                KVCacheTransferManager.transfer
                  (KVCacheTransferRequest.mk rid
                     (WorkerInfo.endpoint prefillWorker)
                     (WorkerInfo.endpoint decodeWorker)
                     (PrefillResult.kvCacheHandle prefillResult) 0)
                  now (kvManager s) in
              let s := set_kvManager kv s in
              set_pipelines
                (<[i := AwaitTransfer f prefillResult decodeWorker q]>
                   (pipelines s)) s
          end
      end
  end.

(** [runPipeline] from the transfer [await] to the decode [await]. *)
Definition runPipeline_transferred (i : nat) (f : Frame)
    (prefillResult : PrefillResult.t) (decodeWorker : WorkerInfo.t)
    (outcome : Exc KVCacheTransferResult.t) (now : Z) (s : t) : t :=
  match outcome with
  | inl err => caught i f err now s
  | inr transferResult =>
      if negb (KVCacheTransferResult.success transferResult) then
        caught i f
          (ErrorObj ("KV cache transfer failed: "
                     +:+ default "undefined"
                           (KVCacheTransferResult.error transferResult)))
          now s
      else
        let rid := frame_rid f in
        let c := frame_request f in
        let s := emit (transfer_completed rid
                         (KVCacheTransferResult.transferDurationMs transferResult)
                         now) s in
        let s := mutate_request c (InferenceRequest.set_phase decoding) s in
        let s := set_activeDecodes (activeDecodes s + 1) s in
        let s := set_pool
                   (WorkerPool.incrementActive (WorkerInfo.id decodeWorker)
                                               (pool s)) s in
        let s := emit (decode_started rid (WorkerInfo.id decodeWorker) now) s in
        set_pipelines
          (<[i := AwaitDecode f prefillResult decodeWorker transferResult]>
             (pipelines s)) s
  end.

(** [runPipeline] from the decode [await] to its end. *)
Definition runPipeline_decoded (i : nat) (f : Frame)
    (prefillResult : PrefillResult.t) (decodeWorker : WorkerInfo.t)
    (outcome : Exc DecodeResult.t) (now : Z) (s : t) : t :=
  match outcome with
  | inl err => caught i f err now s
  | inr decodeResult =>
      let rid := frame_rid f in
      let c := frame_request f in
      let s := set_pool
                 (WorkerPool.decrementActive (WorkerInfo.id decodeWorker)
                                             (pool s)) s in
      let s := set_activeDecodes (activeDecodes s - 1) s in
      let totalLatencyMs := (now - frame_prefillStart f)%Z in
      let s := emit (decode_completed rid (WorkerInfo.id decodeWorker)
                       (DecodeResult.latencyMs decodeResult) now) s in
      let s := emit (request_completed rid totalLatencyMs now) s in
      let s := set_health
                 (HealthMonitor.recordCompletion totalLatencyMs
                    (PrefillResult.latencyMs prefillResult)
                    (DecodeResult.latencyMs decodeResult) (health s)) s in
      let s := mutate_request c (InferenceRequest.set_phase completed) s in
      let s := set_pipelines (delete i (pipelines s)) s in
      match inflight s !! rid with
      | Some e =>
          let s := set_inflight (delete rid (inflight s)) s in
          settle e
            (Resolved
               (InferenceResult.mk rid
                  (DecodeResult.text decodeResult)
                  (DecodeResult.completionTokens decodeResult)
                  (PrefillResult.latencyMs prefillResult)
                  (DecodeResult.latencyMs decodeResult)
                  totalLatencyMs
                  (frame_prefillWorkerId f)
                  (WorkerInfo.id decodeWorker))) s
      | None => s
      end
  end.

(** *** Dispatch loop *)

(** The comparator of the sort in [dispatch]. *)
Definition compare (a b : InferenceRequest.t) : Z :=
  let pd := (PRIORITY_ORDER (InferenceRequest.priority a)
             - PRIORITY_ORDER (InferenceRequest.priority b))%Z in
  if bool_decide (pd ≠ 0%Z) then pd
  else (InferenceRequest.createdAt a - InferenceRequest.createdAt b)%Z.

(** The queue holds request objects; the comparator reads them. *)
Definition compare_at (st : list Cell) (a b : nat) : Z :=
  match request_at st a, request_at st b with
  | Some x, Some y => compare x y
  | _, _ => 0%Z
  end.

(** [req.timeoutMs && now - req.createdAt > req.timeoutMs]: a [timeoutMs]
    of 0 (or none) is falsy. *)
Definition timed_out (now : Z) (req : InferenceRequest.t) : bool :=
  match InferenceRequest.timeoutMs req with
  | Some t => negb (t =? 0)%Z && (t <? now - InferenceRequest.createdAt req)%Z
  | None => false
  end.

(** The body of the sweep loop at index [i]. *)
Definition sweep_at (i : nat) (now : Z) (s : t) : t :=
  match queue s !! i with
  | None => s
  | Some c =>
      match request_at (store s) c with
      | None => s
      | Some req =>
          if timed_out now req then
            fail (InferenceRequest.requestId req)
                 (ErrorObj "Request timed out in queue") now
                 (set_queue (delete i (queue s)) s)
          else s
      end
  end.

(** [for (let i = n - 1; i >= 0; i--)] *)
Fixpoint sweep (n : nat) (now : Z) (s : t) : t :=
  match n with
  | O => s
  | S i => sweep i now (sweep_at i now s)
  end.

Definition dispatch (now : Z) (s : t) : t :=
  if bool_decide (length (queue s) = 0%nat) then s
  else
    let s := set_queue (JsArray.sort (compare_at (store s)) (queue s)) s in
    let s := sweep (length (queue s)) now s in
    let '(prefillWorker, pool') :=
      WorkerPool.select prefill (PDSchedulerConfig.strategy (config s))
                        (pool s) in
    let s := set_pool pool' s in
    match prefillWorker with
    | None => s
    | Some prefillWorker =>
        match queue s with
        | [] => s
        | request :: rest =>
            runPipeline request (WorkerInfo.id prefillWorker) now
                        (set_queue rest s)
        end
    end.

(** *** Observability *)

Definition metrics (s : t) : SchedulerMetrics.t :=
  HealthMonitor.snapshot
    (Z.of_nat (length (queue s)))
    (activePrefills s)
    (KVCacheTransferManager.active (kvManager s))
    (activeDecodes s)
    (pool s) (health s).

(** [events(limit?)]: without a limit [recentEvents] takes its default of
    50; [slice(-0)] is [slice(0)], the whole log. *)
Definition events (limit : option nat) (s : t) : list SchedulerEvent :=
  match limit with
  | Some O => HealthMonitor.eventLog (health s)
  | Some n => HealthMonitor.recentEvents n (health s)
  | None => HealthMonitor.recentEvents 50 (health s)
  end.

(** *** What can happen to a scheduler

    Each step is one synchronous section: a call from outside, a timer
    tick, or the continuation of a suspended call whose [await] has
    settled. The worker pool is exposed ([workerPool]) and shared with the
    health monitor, so any of its operations may run between two
    sections. *)
Inductive step : t → t → Prop :=
| step_start s :
    step s (start s)
| step_stop s :
    step s (stop s)
| step_submit opts now s :
    step s (submit opts now s).2
| step_dispatch now s :
    running s = true →
    step s (dispatch now s)
| step_prefilled i f outcome now s :
    pipelines s !! i = Some (AwaitPrefill f) →
    step s (runPipeline_prefilled i f outcome now s)
| step_transfer_resumed i net now s :
    is_Some (KVCacheTransferManager.suspended (kvManager s) !! i) →
    step s (set_kvManager
              (KVCacheTransferManager.executeTransfer_resumed i net now
                 (kvManager s)) s)
| step_transferred i f prefillResult decodeWorker q outcome now s :
    pipelines s !! i = Some (AwaitTransfer f prefillResult decodeWorker q) →
    KVCacheTransferManager.promises (kvManager s) !! q
    = Some (KVCacheTransferManager.settlement outcome) →
    step s (runPipeline_transferred i f prefillResult decodeWorker outcome now s)
| step_decoded i f prefillResult decodeWorker transferResult outcome now s :
    pipelines s !! i
    = Some (AwaitDecode f prefillResult decodeWorker transferResult) →
    step s (runPipeline_decoded i f prefillResult decodeWorker outcome now s)
| step_pool op s :
    step s (set_pool (WorkerPool.apply op (pool s)) s)
| step_health_probed w result now s :
    step s (let '(p, h) := HealthMonitor.probed w result now (pool s, health s) in
            set_health h (set_pool p s))
| step_health_expire now s :
    step s (let '(p, h) :=
              HealthMonitor.expire
                (PDSchedulerConfig.workerTimeoutMs (config s)) now
                (pool s, health s) in
            set_health h (set_pool p s)).

Definition reachable (config : PDSchedulerConfig.t) (s : t) : Prop :=
  ∃ now, rtc step (create config now) s.
End PDScheduler.

(** ** [vllm-client.ts]

    The answers of a worker are arguments of the calls: a [fetch] either
    rejects or yields a response. A response body is taken to have the shape
    the client casts it to, or to be [null]. *)

Module VllmClient.

(** A thrown value, as the [catch] clauses of the client tell them apart: a
    [TypeError] (what [fetch] rejects with on a network failure, and what
    reading a property of [null] throws), any other [Error] (the abort of a
    timeout, a body that is not JSON, the client's own errors), or a value
    that is no [Error]. *)
Inductive Raised :=
| TypeError (message : string)
| OtherError (message : string)
| NotAnError (rendering : string).

Definition Try (A : Type) : Type := Raised + A.

Definition and_then {A B} (m : Try A) (k : A → Try B) : Try B :=
  match m with inl e => inl e | inr a => k a end.

(** [err instanceof Error ? err.message : String(err)] *)
Definition message_of (e : Raised) : string :=
  match e with
  | TypeError m => m
  | OtherError m => m
  | NotAnError s => s
  end.

(** The value as the scheduler's [catch] sees it. *)
Definition to_thrown (e : Raised) : Thrown :=
  match e with
  | TypeError m => ErrorObj m
  | OtherError m => ErrorObj m
  | NotAnError s => NonError s
  end.

(** A response whose body, read as JSON, has the shape [B]; [None] is a
    body that is [null]. *)
Record Response (B : Type) := mkResponse {
  ok : bool;
  status : Z;
  text : Try string;
  json : Try (option B)
}.
Arguments mkResponse {B}.
Arguments ok {B}.
Arguments status {B}.
Arguments text {B}.
Arguments json {B}.

(** The first property read of a body; of [null] it throws. *)
Definition reading {B} (property : string) (body : option B) : Try B :=
  match body with
  | Some b => inr b
  | None =>
      inl (TypeError ("Cannot read properties of null (reading '"
                      +:+ property +:+ "')"))
  end.

Record PrefillBody := mkPrefillBody {
  kv_cache_handle : string;
  prefill_prompt_tokens : Z
}.

Record PromptUsage := mkPromptUsage { prompt_tokens : option Z }.

Record PrefillFallbackBody := mkPrefillFallbackBody {
  id : string;
  prefill_usage : option PromptUsage
}.

Record DecodeBody := mkDecodeBody {
  decode_text : string;
  completion_tokens : Z
}.

Record Choice := mkChoice { choice_text : option string }.

Record CompletionUsage := mkCompletionUsage {
  usage_completion_tokens : option Z
}.

Record DecodeFallbackBody := mkDecodeFallbackBody {
  choices : option (list Choice);
  decode_usage : option CompletionUsage
}.

Record HealthBody := mkHealthBody {
  body_status : option string;
  gpu_utilization : option Q;
  active_requests : option Z
}.

(** The [catch] of [prefill] and of [decode]: an error of the client's own
    making, known by the start of its message, is thrown again; every other
    thrown value is dropped and the fallback is tried. [None] stands for
    falling through to the fallback. *)
Definition fall_through {A} (own : string) (attempt : Try (option A))
  : Try (option A) :=
  match attempt with
  | inr r => inr r
  | inl (TypeError _) => inr None
  | inl (OtherError m) =>
      if String.prefix own m then inl (OtherError m) else inr None
  | inl (NotAnError _) => inr None
  end.

(** [prefill]: [primary] is the answer of [/v1/prefill], [fallback] that of
    [/v1/completions]; [now1] and [now2] are the clock when the one and
    the other result is built. *)
Definition prefill (primary : Try (Response PrefillBody))
    (fallback : Try (Response PrefillFallbackBody))
    (start now1 now2 : Z) : Try PrefillResult.t :=
  let attempt : Try (option PrefillResult.t) :=
    and_then primary (λ res,
      if ok res then
        and_then (json res) (λ body,
        and_then (reading "kv_cache_handle" body) (λ body,
          inr (Some (PrefillResult.mk (kv_cache_handle body)
                       (prefill_prompt_tokens body) (now1 - start)))))
      else if negb (status res =? 404)%Z then
        and_then (text res) (λ t,
          inl (OtherError ("prefill endpoint returned " +:+ pretty (status res)
                           +:+ ": " +:+ t)))
      else inr None) in
  and_then (fall_through "prefill endpoint" attempt) (λ r,
    match r with
    | Some result => inr result
    | None =>
        and_then fallback (λ fallbackRes,
          if negb (ok fallbackRes) then
            and_then (text fallbackRes) (λ t,
              inl (OtherError ("prefill fallback returned "
                               +:+ pretty (status fallbackRes)
                               +:+ ": " +:+ t)))
          else
            and_then (json fallbackRes) (λ fallbackBody,
            and_then (reading "id" fallbackBody) (λ fallbackBody,
              inr (PrefillResult.mk (id fallbackBody)
                     (default 0%Z
                        (match prefill_usage fallbackBody with
                         | Some usage => prompt_tokens usage
                         | None => None
                         end))
                     (now2 - start)))))
    end).

(** [decode], in the same way, with [/v1/decode] first. *)
Definition decode (primary : Try (Response DecodeBody))
    (fallback : Try (Response DecodeFallbackBody))
    (start now1 now2 : Z) : Try DecodeResult.t :=
  let attempt : Try (option DecodeResult.t) :=
    and_then primary (λ res,
      if ok res then
        and_then (json res) (λ body,
        and_then (reading "text" body) (λ body,
          inr (Some (DecodeResult.mk (decode_text body)
                       (completion_tokens body) (now1 - start)))))
      else if negb (status res =? 404)%Z then
        and_then (text res) (λ t,
          inl (OtherError ("decode endpoint returned " +:+ pretty (status res)
                           +:+ ": " +:+ t)))
      else inr None) in
  and_then (fall_through "decode endpoint" attempt) (λ r,
    match r with
    | Some result => inr result
    | None =>
        and_then fallback (λ fallbackRes,
          if negb (ok fallbackRes) then
            and_then (text fallbackRes) (λ t,
              inl (OtherError ("decode fallback returned "
                               +:+ pretty (status fallbackRes)
                               +:+ ": " +:+ t)))
          else
            and_then (json fallbackRes) (λ body,
            and_then (reading "choices" body) (λ body,
              inr (DecodeResult.mk
                     (default ""
                        (match choices body with
                         | Some (choice :: _) => choice_text choice
                         | _ => None
                         end))
                     (default 0%Z
                        (match decode_usage body with
                         | Some usage => usage_completion_tokens usage
                         | None => None
                         end))
                     (now2 - start)))))
    end).

(** [health]: the whole body is inside [try]; the result is returned in
    every case. *)
Definition health (probe : Try (Response HealthBody)) : HealthResult.t :=
  let attempt : Try HealthResult.t :=
    and_then probe (λ res,
      if negb (ok res) then
        inr (HealthResult.mk false 0%Q 0%Z
               (Some ("HTTP " +:+ pretty (status res))))
      else
        and_then (json res) (λ body,
        and_then (reading "status" body) (λ body,
          inr (HealthResult.mk
                 (bool_decide (body_status body = Some "ok") || ok res)
                 (default 0%Q (gpu_utilization body))
                 (default 0%Z (active_requests body))
                 None)))) in
  match attempt with
  | inr result => result
  | inl err => HealthResult.mk false 0%Q 0%Z (Some (message_of err))
  end.
End VllmClient.

(** ** [monitor-deepseek-v4.js]

    The page monitor. What it reads from outside are arguments: the
    outcome of each [curl] run, the verdict of the regular expression on
    the page, the clock, the formatted local time, and the outcome of
    [sendMail]. What it does to the outside is recorded in the [World]: the
    lines appended to the log file (without their time stamps), the delays
    slept, and the mails handed to [sendMail]. Appending to the log is taken
    to succeed. An [async] function is cut at its [await]s. *)

Module Monitor.

Definition TARGET_URL : string := "https://huggingface.co/deepseek-ai".
Definition KEYWORD : string := "DeepSeek-V4".
Definition INTERVAL_MS : Z := 3 * 60 * 1000.
Definition TIMEOUT_MS : Z := 10 * 1000.
Definition RETRY_MAX : nat := 3.
Definition RETRY_DELAY_MS : Z := 5 * 1000.
Definition COOLDOWN_MS : Z := 2 * 60 * 60 * 1000.
Definition SEND_ERROR_EMAIL : bool := false.

(** A thrown value: an [Error] object with its [name] and [message], or
    another value, one without a [message], with its [String(...)]
    rendering. *)
Inductive Failure :=
| ErrorValue (name message : string)
| OtherValue (rendering : string).

(** [err?.message || String(err)]: an [Error] with an empty message
    renders as its name. *)
Definition describe (err : Failure) : string :=
  match err with
  | ErrorValue name message =>
      if bool_decide (message = "") then name else message
  | OtherValue rendering => rendering
  end.

Record LogLine := mkLine { line_message : string; line_extra : option string }.

Record Mail := mkMail { subject : string; text : string }.

Record World := mkWorld {
  lastAlertAt : Z;
  lastErrorAlertAt : Z;
  logFile : list LogLine;
  slept : list Z;
  outbox : list Mail
}.

(** The module as it is loaded. *)
Definition initial : World := mkWorld 0 0 [] [] [].

(** [log(message, extra)]: an [extra] that is missing or empty is left
    out. *)
Definition log (message : string) (extra : option string) (w : World)
  : World :=
  let extra := match extra with
               | Some e => if bool_decide (e = "") then None else Some e
               | None => None
               end in
  mkWorld (lastAlertAt w) (lastErrorAlertAt w)
    (logFile w ++ [mkLine message extra]) (slept w) (outbox w).

Definition sleep (ms : Z) (w : World) : World :=
  mkWorld (lastAlertAt w) (lastErrorAlertAt w) (logFile w) (slept w ++ [ms])
    (outbox w).

(** [sendMail(subject, text)] up to its [await]. *)
Definition sendMail (subject text : string) (w : World) : World :=
  mkWorld (lastAlertAt w) (lastErrorAlertAt w) (logFile w) (slept w)
    (outbox w ++ [mkMail subject text]).

Definition set_lastAlertAt (v : Z) (w : World) : World :=
  mkWorld v (lastErrorAlertAt w) (logFile w) (slept w) (outbox w).

Definition set_lastErrorAlertAt (v : Z) (w : World) : World :=
  mkWorld (lastAlertAt w) v (logFile w) (slept w) (outbox w).

(** How a run of [curl] ends: the callback gets [stdout], or an error and
    [stderr]. *)
Inductive Curl :=
| CurlDone (stdout : string)
| CurlFailed (stderr errMessage : string).

(** [new Error(stderr || err.message)] *)
Definition curl_error (stderr errMessage : string) : Failure :=
  ErrorValue "Error" (if bool_decide (stderr = "") then errMessage else stderr).

(** The loop of [fetchWithRetry] from [attempt] on, with [remaining]
    rounds to go; [curl] tells how the run of each attempt ends. *)
Fixpoint fetchLoop (curl : nat → Curl) (remaining attempt : nat)
    (lastErr : option Failure) (w : World) : (Failure + string) * World :=
  match remaining with
  | O => (inl (default (OtherValue "undefined") lastErr), w)
  | S remaining =>
      match curl attempt with
      | CurlDone stdout => (inr stdout, w)
      | CurlFailed stderr errMessage =>
          let err := curl_error stderr errMessage in
          let w := log ("Fetch attempt " +:+ pretty attempt +:+ " failed")
                       (Some (describe err)) w in
          let w := if bool_decide (attempt < RETRY_MAX)
                   then sleep RETRY_DELAY_MS w else w in
          fetchLoop curl remaining (S attempt) (Some err) w
      end
  end.

Definition fetchWithRetry (curl : nat → Curl) (w : World)
  : (Failure + string) * World :=
  fetchLoop curl RETRY_MAX 1 None w.

(** The [catch] of [checkOnce]. With [SEND_ERROR_EMAIL] off it only logs;
    the rest is kept as written: [now] is the clock and [mailed] the
    outcome of [sendMail] there. *)
Definition failed (err : Failure) (now : Z) (sendTime : string)
    (mailed : Failure + unit) (w : World) : World :=
  let subject := "[ERROR] DeepSeek monitor failed" in
  let body := "Monitor failed at " +:+ sendTime +:+ " (send time)"
              +:+ String (ascii_of_nat 10) "Error: " +:+ describe err in
  if negb SEND_ERROR_EMAIL then
    log "Error email suppressed" (Some (describe err)) w
  else if (now - lastErrorAlertAt w <? COOLDOWN_MS)%Z then
    log "Error in cooldown" (Some ("cooldownMs=" +:+ pretty COOLDOWN_MS)) w
  else
    let w := set_lastErrorAlertAt now w in
    let w := sendMail subject body w in
    match mailed with
    | inr _ => log "Error email sent" None w
    | inl mailErr => log "Error email failed" (Some (describe mailErr)) w
    end.

(** [checkOnce] from the end of [fetchWithRetry] to the [await] of
    [sendMail], or to its end: [hasKeyword] is the verdict of the regular
    expression on the page. Returns whether a mail is on its way. *)
Definition checked (fetched : Failure + string) (hasKeyword : string → bool)
    (now : Z) (sendTime : string) (w : World) : bool * World :=
  match fetched with
  | inl err => (false, failed err now sendTime (inr tt) w)
  | inr html =>
      let w := log "Check completed"
                 (Some (if hasKeyword html then "KEYWORD_FOUND"
                        else "no keyword")) w in
      if hasKeyword html then
        if (now - lastAlertAt w <? COOLDOWN_MS)%Z then
          (false,
           log "Keyword found but in cooldown"
               (Some ("cooldownMs=" +:+ pretty COOLDOWN_MS)) w)
        else
          let w := set_lastAlertAt now w in
          let subject := "[ALERT] DeepSeek-V4 detected" in
          let body := "Keyword '" +:+ KEYWORD +:+ "' detected on "
                      +:+ TARGET_URL +:+ " at " +:+ sendTime
                      +:+ " (send time)" in
          (true, sendMail subject body w)
      else (false, w)
  end.

(** [checkOnce] after the [await] of [sendMail]; [sendTime] is the one of
    the alert, [sendTime'] the one the [catch] takes. *)
Definition mailed (outcome : Failure + unit) (sendTime : string) (now : Z)
    (sendTime' : string) (w : World) : World :=
  match outcome with
  | inr _ => log "Alert email sent" (Some ("sendTime=" +:+ sendTime)) w
  | inl err => failed err now sendTime' (inr tt) w
  end.

(** [main] up to its first [checkOnce]. *)
Definition started (w : World) : World :=
  log "Monitor started" (Some ("interval=" +:+ pretty INTERVAL_MS +:+ "ms")) w.

(** The two [process.on] handlers. *)
Definition unhandledRejection (err : Failure) (w : World) : World :=
  log "UnhandledRejection" (Some (describe err)) w.

Definition uncaughtException (err : Failure) (w : World) : World :=
  log "UncaughtException" (Some (describe err)) w.

(** The synchronous sections the monitor is made of; the checks of the
    interval timer may overlap, so a run is any sequence of them. *)
Inductive Part :=
| Started
| UnhandledRejection (err : Failure)
| UncaughtException (err : Failure)
| Fetch (curl : nat → Curl)
| Checked (fetched : Failure + string) (hasKeyword : string → bool)
    (now : Z) (sendTime : string)
| Mailed (outcome : Failure + unit) (sendTime : string) (now : Z)
    (sendTime' : string).

Definition part (p : Part) (w : World) : World :=
  match p with
  | Started => started w
  | UnhandledRejection err => unhandledRejection err w
  | UncaughtException err => uncaughtException err w
  | Fetch curl => (fetchWithRetry curl w).2
  | Checked fetched hasKeyword now sendTime =>
      (checked fetched hasKeyword now sendTime w).2
  | Mailed outcome sendTime now sendTime' =>
      mailed outcome sendTime now sendTime' w
  end.

Definition run (parts : list Part) (w : World) : World :=
  foldl (λ w p, part p w) w parts.
End Monitor.

(** * Predicates used in the statements

    ** Worker capacity *)

Definition worker_bounded (w : WorkerInfo.t) : Prop :=
  (0 ≤ WorkerInfo.activeRequests w ≤ WorkerInfo.maxConcurrency w)%Z.

Definition pool_bounded (p : WorkerPool.t) : Prop :=
  Forall (λ kv, worker_bounded kv.2) (WorkerPool.workers p).

(** The conditions under which a call keeps a worker within its capacity:
    the pool has no upper clamp of its own. *)
Definition respects_capacity (op : WorkerPool.Op) (p : WorkerPool.t) : Prop :=
  match op with
  | WorkerPool.OpRegister seed _ =>
      (default 0 (WorkerInfo.activeRequests
                    <$> WorkerPool.get (WorkerSeedConfig.id seed) p)
       ≤ default 32 (WorkerSeedConfig.maxConcurrency seed))%Z
  | WorkerPool.OpIncrementActive k =>
      ∀ w, WorkerPool.get k p = Some w →
           (WorkerInfo.activeRequests w < WorkerInfo.maxConcurrency w)%Z
  | WorkerPool.OpUpdateMetrics k m _ =>
      ∀ w a, WorkerPool.get k p = Some w →
             WorkerPool.patch_activeRequests m = Some a →
             (0 ≤ a ≤ WorkerInfo.maxConcurrency w)%Z
  | _ => True
  end.

Fixpoint all_respect_capacity (ops : list WorkerPool.Op) (p : WorkerPool.t)
  : Prop :=
  match ops with
  | [] => True
  | op :: ops' =>
      respects_capacity op p ∧ all_respect_capacity ops' (WorkerPool.apply op p)
  end.


(** ** The transfer manager *)

(** Both calls of the transfer went through: each produced a response with a
    success status and a body, the import body carrying [handle]. *)
Definition sequence_succeeds (net : Network.t) (handle : option string) : Prop :=
  ∃ exportRes token importRes,
    Network.export net = inr exportRes
    ∧ Response.ok exportRes = true
    ∧ Response.json exportRes = inr (ObjectBody token)
    ∧ Network.import net token = inr importRes
    ∧ Response.ok importRes = true
    ∧ Response.json importRes = inr (ObjectBody handle).

Definition kv_invariant (s : KVCacheTransferManager.t) : Prop :=
  KVCacheTransferManager.activeTransfers s
  = Z.of_nat (length (KVCacheTransferManager.suspended s))
  ∧ ((0 ≤ KVCacheTransferManager.maxConcurrent s)%Z →
     (KVCacheTransferManager.activeTransfers s
      ≤ KVCacheTransferManager.maxConcurrent s)%Z)
  ∧ KVCacheTransferManager.enqueued s
    = KVCacheTransferManager.started s
      ++ (KVCacheTransferManager.waiting_promise
            <$> KVCacheTransferManager.pending s).

Definition never_rejected (s : KVCacheTransferManager.t) : Prop :=
  Forall (λ v, ∀ e, v ≠ Rejected e) (KVCacheTransferManager.promises s).

(** ** The scheduler *)

(** The request object an accepted [submit] creates. *)
Definition submitted_request (opts : SubmitOptions.t) (now : Z)
    (s : PDScheduler.t) : InferenceRequest.t :=
  InferenceRequest.mk
    (PDScheduler.generateRequestId now s).1
    (SubmitOptions.modelId opts) (SubmitOptions.prompt opts)
    (default SamplingParams.empty (SubmitOptions.samplingParams opts))
    (default normal (SubmitOptions.priority opts))
    queued now None None None
    (Some (default (PDSchedulerConfig.defaultRequestTimeoutMs (PDScheduler.config s))
                   (SubmitOptions.timeoutMs opts))).


(** The id [generateRequestId] issues at time [now] with counter value [n]. *)
Definition issued_id (now : Z) (n : N) : string :=
  "req-" +:+ pretty now +:+ "-" +:+ pretty n.

Fixpoint dash_free (s : string) : Prop :=
  match s with
  | EmptyString => True
  | String ch s' => ch ≠ "-"%char ∧ dash_free s'
  end.

Definition cell_id (cell : PDScheduler.Cell) : string :=
  InferenceRequest.requestId (PDScheduler.request cell).

Definition is_pending {A} (v : Settlement A) : bool :=
  match v with Pending => true | _ => false end.

(** What the queue and in-flight invariant reads of a scheduler: the ids of
    the request objects and whether their promises are pending (by store
    index), and the frames of the suspended pipelines. *)
Definition ids (s : PDScheduler.t) : list string :=
  cell_id <$> PDScheduler.store s.

Definition pendings (s : PDScheduler.t) : list bool :=
  (λ cell, is_pending (PDScheduler.promise cell)) <$> PDScheduler.store s.

Definition frames (s : PDScheduler.t) : list PDScheduler.Frame :=
  PDScheduler.frame <$> PDScheduler.pipelines s.

Record queue_inflight_invariant (ids : list string) (pend : list bool)
    (queue : list nat) (inflight : gmap string nat) (counter : N)
    (frames : list PDScheduler.Frame) : Prop := {
  (** every id was issued by [generateRequestId], with a counter value
      already used *)
  inv_issued :
    Forall (λ k, ∃ now n, k = issued_id now n ∧ (n ≤ counter)%N) ids;
  inv_ids : NoDup ids;
  inv_len : length pend = length ids;
  inv_queue_nodup : NoDup queue;
  (** a queued request has its in-flight entry *)
  inv_queue :
    ∀ c, c ∈ queue → ∃ k, ids !! c = Some k ∧ inflight !! k = Some c;
  (** an in-flight entry is filed under the id of its request *)
  inv_own : ∀ k c, inflight !! k = Some c → ids !! c = Some k;
  (** a request is in flight exactly while its promise is pending *)
  inv_pending :
    ∀ c k, ids !! c = Some k →
           (pend !! c = Some true ↔ inflight !! k = Some c);
  (** a request in a pipeline has left the queue *)
  inv_frames :
    ∀ f, f ∈ frames →
         (PDScheduler.frame_request f ∉ queue)
         ∧ ids !! PDScheduler.frame_request f = Some (PDScheduler.frame_rid f)
}.

Definition sched_invariant (s : PDScheduler.t) : Prop :=
  queue_inflight_invariant (ids s) (pendings s) (PDScheduler.queue s)
    (PDScheduler.inflight s) (PDScheduler.idCounter s) (frames s).

(** The fields of a request object that are written once, when [submit]
    creates it. *)
Definition descriptor (r : InferenceRequest.t)
  : string * RequestPriority * Z * option Z :=
  (InferenceRequest.requestId r, InferenceRequest.priority r,
   InferenceRequest.createdAt r, InferenceRequest.timeoutMs r).

Definition keeps_descriptor (f : InferenceRequest.t → InferenceRequest.t) : Prop :=
  ∀ r, descriptor (f r) = descriptor r.

Definition descriptors (st : list PDScheduler.Cell)
  : list (string * RequestPriority * Z * option Z) :=
  (λ cell, descriptor (PDScheduler.request cell)) <$> st.

(** The request at [c] is not expired at time [now], by the test of the
    sweep. *)
Definition is_live (st : list PDScheduler.Cell) (now : Z) (c : nat) : bool :=
  match PDScheduler.request_at st c with
  | Some req => negb (PDScheduler.timed_out now req)
  | None => true
  end.

(** The order of the queue: priority rank, then creation time. *)
Definition not_after (a b : InferenceRequest.t) : Prop :=
  (PDScheduler.PRIORITY_ORDER (InferenceRequest.priority a)
   < PDScheduler.PRIORITY_ORDER (InferenceRequest.priority b))%Z
  ∨ (PDScheduler.PRIORITY_ORDER (InferenceRequest.priority a)
     = PDScheduler.PRIORITY_ORDER (InferenceRequest.priority b)
     ∧ (InferenceRequest.createdAt a ≤ InferenceRequest.createdAt b)%Z).

(** The scheduler in the middle of a dispatch tick: the queue sorted and
    swept, no worker selected yet. *)
Definition sorted_and_swept (now : Z) (s : PDScheduler.t) : PDScheduler.t :=
  let s := PDScheduler.set_queue
             (JsArray.sort (PDScheduler.compare_at (PDScheduler.store s))
                           (PDScheduler.queue s)) s in
  PDScheduler.sweep (length (PDScheduler.queue s)) now s.

(** The ids of the queued requests, in queue order. *)
Definition queue_ids (s : PDScheduler.t) : list string :=
  omap (λ c, ids s !! c) (PDScheduler.queue s).

(** The request object [c] is held by a suspended pipeline. *)
Definition in_pipeline (s : PDScheduler.t) (c : nat) : Prop :=
  ∃ p, p ∈ PDScheduler.pipelines s
       ∧ PDScheduler.frame_request (PDScheduler.frame p) = c.

(** ** The worker registry as a map *)

(** Every entry is filed under the id of its worker, and no key occurs
    twice: what [Map.set] and [Map.delete] keep. *)
Definition pool_keys_ok (p : WorkerPool.t) : Prop :=
  NoDup (JsMap.keys (WorkerPool.workers p))
  ∧ Forall (λ kv, WorkerInfo.id kv.2 = kv.1) (WorkerPool.workers p).

(** [x] is the first of the least loaded workers of [l]. *)
Definition first_least_loaded (x : WorkerInfo.t) (l : list WorkerInfo.t) : Prop :=
  ∃ l1 l2,
    l = l1 ++ x :: l2
    ∧ Forall (λ y, (WorkerInfo.activeRequests x < WorkerInfo.activeRequests y)%Z) l1
    ∧ Forall (λ y, (WorkerInfo.activeRequests x ≤ WorkerInfo.activeRequests y)%Z) l2.

(** The promises a manager still owes an answer: those of the running
    transfers, those of the callers a running transfer forwards to, and
    those of the waiting callers. *)
Definition owed (s : KVCacheTransferManager.t) : list nat :=
  (KVCacheTransferManager.job_promise <$> KVCacheTransferManager.suspended s)
  ++ omap KVCacheTransferManager.job_forward (KVCacheTransferManager.suspended s)
  ++ (KVCacheTransferManager.waiting_promise
        <$> KVCacheTransferManager.pending s).

(** [L] lists, without repetition, the promises of [ps] that are pending. *)
Definition pending_exactly {A} (L : list nat) (ps : list (Settlement A)) : Prop :=
  NoDup L ∧ ∀ p, p ∈ L ↔ ps !! p = Some Pending.

(** No caller waits while a slot is free. *)
Definition work_conserving (s : KVCacheTransferManager.t) : Prop :=
  KVCacheTransferManager.pending s ≠ [] →
  (KVCacheTransferManager.maxConcurrent s
   ≤ KVCacheTransferManager.activeTransfers s)%Z.

(** The error of a failed export call: the message of the rejection, or of
    the error thrown for a status that is not a success. *)
Definition export_error (net : Network.t) : option string :=
  match Network.export net with
  | inl e => Some (thrown_message e)
  | inr exportRes =>
      if Response.ok exportRes then None
      else Some match Response.text exportRes with
                | inr t => "KV cache export failed ("
                           +:+ pretty (Response.status exportRes)
                           +:+ "): " +:+ t
                | inl e => thrown_message e
                end
  end.

(** The promises owed, with those in [X], which are about to be settled. *)
Definition owes (X : list nat) (s : KVCacheTransferManager.t) : Prop :=
  pending_exactly (X ++ owed s) (KVCacheTransferManager.promises s).

(** ** The health monitor *)

(** The last [n] elements of a list. *)
Definition last_n {A} (n : nat) (l : list A) : list A := drop (length l - n) l.

(** The fields a health probe overwrites. *)
Definition probed_worker (w : WorkerInfo.t) (result : HealthResult.t) (now : Z)
  : WorkerInfo.t :=
  WorkerInfo.mk (WorkerInfo.id w) (WorkerInfo.endpoint w) (WorkerInfo.role w)
    (if (WorkerInfo.maxConcurrency w <=? HealthResult.activeRequests result)%Z
     then busy else idle)
    (HealthResult.gpuUtilization result) (HealthResult.activeRequests result)
    (WorkerInfo.maxConcurrency w) now (WorkerInfo.modelId w).

(** ** The scheduler: the life of a request *)

(** The promises and the phases of the request objects, by store index. *)
Definition promises_of (s : PDScheduler.t) : list (Settlement InferenceResult.t) :=
  PDScheduler.promise <$> PDScheduler.store s.

Definition phases_of (s : PDScheduler.t) : list RequestPhase :=
  (λ cell, InferenceRequest.phase (PDScheduler.request cell))
    <$> PDScheduler.store s.

Definition keeps_phase (f : InferenceRequest.t → InferenceRequest.t) : Prop :=
  ∀ r, InferenceRequest.phase (f r) = InferenceRequest.phase r.

(** The [await] a suspended pipeline stands at, as the phase its request
    has there. *)
Definition stage (p : PDScheduler.Pipeline) : RequestPhase :=
  match p with
  | PDScheduler.AwaitPrefill _ => prefilling
  | PDScheduler.AwaitTransfer _ _ _ _ => transferring
  | PDScheduler.AwaitDecode _ _ _ _ => decoding
  end.

(** Of each suspended pipeline: its request object, the id it captured,
    and its stage. *)
Definition stages (s : PDScheduler.t) : list (nat * string * RequestPhase) :=
  (λ p, (PDScheduler.frame_request (PDScheduler.frame p),
         PDScheduler.frame_rid (PDScheduler.frame p), stage p))
    <$> PDScheduler.pipelines s.

Definition is_resolved {A} (v : Settlement A) : bool :=
  match v with Resolved _ => true | _ => false end.

Definition is_rejected {A} (v : Settlement A) : bool :=
  match v with Rejected _ => true | _ => false end.

Definition count {A} (f : A → bool) (l : list A) : Z :=
  Z.of_nat (length (filter (λ x, f x = true) l)).

(** The error of a request that expired in the queue. *)
Definition queue_timeout : Thrown := ErrorObj "Request timed out in queue".

(** The phase [ph] of the request object [c] agrees with its promise [v]
    and with where the request is held. *)
Definition phase_fits (queue : list nat)
    (stages : list (nat * string * RequestPhase))
    (c : nat) (ph : RequestPhase) (v : Settlement InferenceResult.t) : Prop :=
  match v with
  | Resolved _ => ph = completed
  | Rejected _ => ph = failed
  | Pending => (c ∈ queue ∧ ph = queued) ∨ (∃ k, (c, k, ph) ∈ stages)
  end.

(** The life-cycle invariant, on what it reads of a scheduler: promises
    and phases by store index, the queue, the in-flight table, the stages
    of the suspended pipelines, and the two counters of the monitor. The
    request object [skip], if any, is in the middle of a phase change. *)
Record lifecycle_view (skip : option nat)
    (P : list (Settlement InferenceResult.t)) (Φ : list RequestPhase)
    (queue : list nat) (inflight : gmap string nat)
    (stages : list (nat * string * RequestPhase))
    (ncompleted nfailed : Z) : Prop := {
  (** a request is held by one pipeline at most *)
  lv_requests : NoDup (stages.*1.*1);
  (** the request of a pipeline is in flight, under the id the pipeline
      captured *)
  lv_inflight : ∀ c k ph, (c, k, ph) ∈ stages → inflight !! k = Some c;
  lv_phase :
    ∀ c ph v, P !! c = Some v → Φ !! c = Some ph → skip ≠ Some c →
              phase_fits queue stages c ph v;
  lv_completed : ncompleted = count is_resolved P;
  lv_failed : nfailed = count is_rejected P
}.

Definition life_ok (skip : option nat) (s : PDScheduler.t) : Prop :=
  lifecycle_view skip (promises_of s) (phases_of s) (PDScheduler.queue s)
    (PDScheduler.inflight s) (stages s)
    (HealthMonitor.completed (PDScheduler.health s))
    (HealthMonitor.failed (PDScheduler.health s)).

(** ** The worker client *)

(** The answer of the disaggregated endpoint sends the client on to the
    fallback: the endpoint is not there (404), or something was thrown that
    is not the client's own error (whose message starts with [own]): a
    rejected [fetch], a body that could not be read, a body that is
    [null]. *)
Definition not_own (own : string) (e : VllmClient.Raised) : Prop :=
  match e with
  | VllmClient.OtherError m => String.prefix own m = false
  | _ => True
  end.

Definition primary_unavailable {B} (own : string)
    (primary : VllmClient.Try (VllmClient.Response B)) : Prop :=
  match primary with
  | inl e => not_own own e
  | inr res =>
      if VllmClient.ok res then
        match VllmClient.json res with
        | inl e => not_own own e
        | inr None => True
        | inr (Some _) => False
        end
      else
        VllmClient.status res = 404%Z
        ∨ match VllmClient.text res with
          | inl e => not_own own e
          | inr _ => False
          end
  end.

(** ** Predicates on the monitor *)

(** The log line of a failed attempt. *)
Definition attempt_line (curl : nat → Monitor.Curl) (attempt : nat)
  : Monitor.LogLine :=
  match curl attempt with
  | Monitor.CurlFailed stderr errMessage =>
      Monitor.mkLine ("Fetch attempt " +:+ pretty attempt +:+ " failed")
        (Some (Monitor.describe (Monitor.curl_error stderr errMessage)))
  | Monitor.CurlDone _ =>
      Monitor.mkLine ("Fetch attempt " +:+ pretty attempt +:+ " failed") None
  end.

(** What [fetchWithRetry] gives back after [n] failed attempts. *)
Definition fetch_outcome (curl : nat → Monitor.Curl) (n : nat)
    (r : Monitor.Failure + string) : Prop :=
  (n < Monitor.RETRY_MAX ∧ ∃ stdout, curl (S n) = Monitor.CurlDone stdout
                                     ∧ r = inr stdout)
  ∨ (n = Monitor.RETRY_MAX
     ∧ ∃ stderr errMessage,
         curl Monitor.RETRY_MAX = Monitor.CurlFailed stderr errMessage
         ∧ r = inl (Monitor.curl_error stderr errMessage)).

(** The clock a section reads. *)
Definition clock_of (p : Monitor.Part) : option Z :=
  match p with
  | Monitor.Checked _ _ now _ => Some now
  | _ => None
  end.

(** The clock does not go back. *)
Definition clock_monotone (parts : list Monitor.Part) : Prop :=
  ∀ a b pa pb na nb,
    a ≤ b → parts !! a = Some pa → parts !! b = Some pb →
    clock_of pa = Some na → clock_of pb = Some nb → (na ≤ nb)%Z.

(** The section at position [i] of a run hands an alert to [sendMail]. *)
Definition alerts_at (parts : list Monitor.Part) (w : Monitor.World)
    (i : nat) (now : Z) : Prop :=
  ∃ fetched hasKeyword sendTime,
    parts !! i = Some (Monitor.Checked fetched hasKeyword now sendTime)
    ∧ (Monitor.checked fetched hasKeyword now sendTime
         (Monitor.run (take i parts) w)).1 = true.

(** ** Predicates on the metrics *)

(** [avg] is a fair summary of the samples of a window: 0 when there are
    none, and otherwise within any bounds that hold for all of them. *)
Definition summarises (samples : list Z) (avg : Z) : Prop :=
  (samples = [] → avg = 0%Z)
  ∧ ∀ lo hi : Z,
      samples ≠ [] → Forall (λ x, lo ≤ x ≤ hi)%Z samples →
      (lo ≤ avg ≤ hi)%Z.

(** * Properties

    ** The sort *)

Section sort_facts.
Context {A : Type} (cmp : A → A → Z) (P : A → Prop).

Lemma insert_Permutation x l : JsArray.insert cmp x l ≡ₚ x :: l.
Proof.
  induction l as [|y l IH]; simpl; [done |].
  case_match; [done |]. rewrite IH. apply Permutation_swap.
Qed.

Lemma sort_Permutation l : JsArray.sort cmp l ≡ₚ l.
Proof.
  induction l as [|x l IH]; simpl; [done |].
  by rewrite insert_Permutation, IH.
Qed.

(** On the elements that satisfy [P] the comparator is a total preorder. *)
Hypothesis cmp_total : ∀ a b, P a → P b → (cmp a b ≤ 0 ∨ cmp b a ≤ 0)%Z.
Hypothesis cmp_trans :
  ∀ a b c, P a → P b → P c → (cmp a b ≤ 0 → cmp b c ≤ 0 → cmp a c ≤ 0)%Z.

Let R (a b : A) : Prop := (cmp a b ≤ 0)%Z.

Lemma insert_sorted x l :
  P x → Forall P l → StronglySorted R l →
  StronglySorted R (JsArray.insert cmp x l).
Proof.
  intros Hx Hl Hs. induction Hs as [|y l Hs IH Hy]; simpl.
  - by repeat constructor.
  - apply Forall_cons in Hl as [HPy HPl].
    destruct (Z.leb_spec (cmp x y) 0) as [Hle|Hgt].
    + constructor; [by constructor |]. constructor; [done |].
      rewrite Forall_forall in Hy, HPl |- *. intros z Hz.
      apply (cmp_trans x y z); auto. by apply Hy.
    + constructor; [by apply IH |].
      rewrite (insert_Permutation x l). constructor; [| done].
      destruct (cmp_total x y Hx HPy); [lia | done].
Qed.

Lemma sort_sorted l : Forall P l → StronglySorted R (JsArray.sort cmp l).
Proof.
  induction 1 as [|x l Hx Hl IH]; simpl; [constructor |].
  apply insert_sorted; [done | | done].
  by rewrite sort_Permutation.
Qed.

(** The first element that a filter keeps of a sorted array comes before
    every other element the filter keeps. *)
Lemma sorted_filter_head (Q : A → Prop) `{!∀ x, Decision (Q x)} l h rest :
  Forall P l → StronglySorted R l →
  filter Q l = h :: rest →
  ∀ z, z ∈ l → Q z → R h z.
Proof.
  intros HP Hs Hf z Hz HQ.
  assert (Hh : head (filter Q l) = Some h) by by rewrite Hf.
  apply head_filter_Some in Hh as (l1 & l2 & -> & Hl1).
  apply elem_of_app in Hz as [Hz|Hz].
  { rewrite Forall_forall in Hl1. by destruct (Hl1 z Hz). }
  apply StronglySorted_app_1_r in Hs.
  apply Forall_app in HP as [_ HP]. apply Forall_cons in HP as [HPh _].
  apply elem_of_cons in Hz as [->|Hz].
  - unfold R. destruct (cmp_total h h HPh HPh); done.
  - apply StronglySorted_inv in Hs as [_ Hs].
    rewrite Forall_forall in Hs. by apply Hs.
Qed.
End sort_facts.

(** ** Request ids *)


Lemma pretty_N_go_dash_free (x : N) (s : string) :
  dash_free s → dash_free (pretty_N_go x s).
Proof.
  revert s. induction (N.lt_wf_0 x) as [x _ IH]; intros s Hs.
  assert (x = 0 ∨ 0 < x)%N as [->|Hx] by lia.
  - by rewrite pretty_N_go_0.
  - rewrite pretty_N_go_step by done. apply IH.
    { by apply N.div_lt. }
    split; [| done]. unfold pretty_N_char. by repeat case_match.
Qed.

Lemma pretty_N_dash_free (n : N) : dash_free (pretty n).
Proof.
  unfold pretty, pretty_N. case_decide; [by repeat split |].
  by apply pretty_N_go_dash_free.
Qed.

Lemma dash_free_app_dash (a d : string) : ¬ dash_free (a +:+ String "-" d).
Proof. induction a as [|ch a IH]; simpl; intros [? ?]; auto. Qed.

Lemma last_dash_inj (a a' d d' : string) :
  dash_free d → dash_free d' →
  a +:+ String "-" d = a' +:+ String "-" d' → a = a' ∧ d = d'.
Proof.
  intros Hd Hd'. revert a'.
  induction a as [|ch a IH]; intros [|ch' a']; simpl; intros Heq.
  - by injection Heq as ->.
  - injection Heq as _ ->. by apply dash_free_app_dash in Hd.
  - injection Heq as _ <-. by apply dash_free_app_dash in Hd'.
  - injection Heq as -> Heq. destruct (IH _ Heq) as [-> ->]. done.
Qed.

Lemma issued_id_inj now now' n n' :
  issued_id now n = issued_id now' n' → n = n'.
Proof.
  unfold issued_id. simpl. intros [= Heq].
  apply last_dash_inj in Heq as [_ Heq]; try apply pretty_N_dash_free.
  by apply (inj pretty) in Heq.
Qed.

Lemma generateRequestId_issued now s :
  (PDScheduler.generateRequestId now s).1
  = issued_id now (PDScheduler.idCounter s + 1).
Proof. reflexivity. Qed.

(** ** The insertion-ordered map *)

Section JsMap_facts.
Context {V : Type}.
Implicit Types (m : list (string * V)) (k : string) (v : V).

Lemma JsMap_get_set_eq m k v : JsMap.get k (JsMap.set k v m) = Some v.
Proof.
  induction m as [|[k' v'] m IH]; simpl.
  - by rewrite decide_True.
  - destruct (decide (k' = k)) as [->|Hne]; simpl.
    + by rewrite decide_True.
    + by rewrite decide_False.
Qed.

Lemma JsMap_get_set_ne m k k' v :
  k ≠ k' → JsMap.get k' (JsMap.set k v m) = JsMap.get k' m.
Proof.
  intros Hne. induction m as [|[k0 v0] m IH]; simpl.
  - by rewrite decide_False.
  - destruct (decide (k0 = k)) as [->|Hne0]; simpl.
    + by rewrite !decide_False.
    + destruct (decide (k0 = k')); [done | apply IH].
Qed.

Lemma JsMap_get_Some_elem m k v : JsMap.get k m = Some v → (k, v) ∈ m.
Proof.
  induction m as [|[k0 v0] m IH]; simpl; [done |].
  destruct (decide (k0 = k)) as [->|Hne].
  - intros [= ->]. apply list_elem_of_here.
  - intros H. apply list_elem_of_further, IH, H.
Qed.

Lemma JsMap_Forall_set (P : string * V → Prop) m k v :
  Forall P m → P (k, v) → Forall P (JsMap.set k v m).
Proof.
  intros Hm Hv. induction Hm as [|[k0 v0] m H0 Hm IH]; simpl.
  - by constructor.
  - destruct (decide (k0 = k)); constructor; auto.
Qed.

Lemma JsMap_Forall_delete (P : string * V → Prop) m k :
  Forall P m → Forall P (JsMap.delete k m).2.
Proof.
  intros Hm. induction Hm as [|[k0 v0] m H0 Hm IH]; simpl; [done |].
  destruct (decide (k0 = k)); [done |].
  destruct (JsMap.delete k m) as [b r]; simpl in *. by constructor.
Qed.

Lemma JsMap_values_set_present m k v v0 :
  JsMap.get k m = Some v0 → length (JsMap.set k v m) = length m.
Proof.
  induction m as [|[k1 v1] m IH]; simpl; [done |].
  destruct (decide (k1 = k)); simpl; [done |].
  intros H. by rewrite IH.
Qed.
End JsMap_facts.

(** ** The worker pool *)

Lemma mutate_bounded k f p :
  pool_bounded p →
  (∀ w, WorkerPool.get k p = Some w → worker_bounded w → worker_bounded (f w)) →
  pool_bounded (WorkerPool.mutate k f p).
Proof.
  intros Hp Hf. unfold WorkerPool.mutate.
  destruct (JsMap.get k (WorkerPool.workers p)) as [w|] eqn:Hget; [| done].
  unfold pool_bounded; simpl. apply JsMap_Forall_set; [done |]. simpl.
  apply Hf; [done |].
  apply JsMap_get_Some_elem in Hget.
  unfold pool_bounded in Hp. rewrite Forall_forall in Hp. apply (Hp _ Hget).
Qed.

Lemma get_bounded k p w :
  pool_bounded p → WorkerPool.get k p = Some w → worker_bounded w.
Proof.
  intros Hp Hget. apply JsMap_get_Some_elem in Hget.
  unfold pool_bounded in Hp. rewrite Forall_forall in Hp. apply (Hp _ Hget).
Qed.

Lemma expireLoop_bounded t now ws :
  Forall (λ kv : string * WorkerInfo.t, worker_bounded kv.2) ws →
  Forall (λ kv : string * WorkerInfo.t, worker_bounded kv.2)
         (WorkerPool.expireLoop t now ws).2.
Proof.
  induction 1 as [|[k w] ws Hw Hws IH]; simpl; [done |].
  destruct (WorkerPool.expireLoop t now ws) as [ex rest]; simpl in *.
  destruct (WorkerPool.is_stale t now w); simpl; constructor; auto.
Qed.

Lemma select_workers role strategy p :
  WorkerPool.workers (WorkerPool.select role strategy p).2 = WorkerPool.workers p.
Proof.
  unfold WorkerPool.select. case_bool_decide; [done |].
  by destruct strategy.
Qed.

Lemma apply_bounded op p :
  pool_bounded p → respects_capacity op p → pool_bounded (WorkerPool.apply op p).
Proof.
  intros Hp Hop. destruct op as [seed now|k|r s|k m now|k|k|k|t now]; simpl in *.
  - unfold pool_bounded; simpl. apply JsMap_Forall_set; [done |].
    unfold worker_bounded; simpl. split; [| done].
    destruct (JsMap.get _ _) as [w|] eqn:Hget; simpl; [| done].
    by apply (get_bounded _ _ _ Hp Hget).
  - unfold WorkerPool.remove.
    pose proof (JsMap_Forall_delete _ _ k Hp) as Hd.
    by destruct (JsMap.delete k (WorkerPool.workers p)).
  - unfold pool_bounded. by rewrite select_workers.
  - apply mutate_bounded; [done |]. intros w Hget Hw.
    specialize (Hop w).
    unfold worker_bounded in *.
    destruct m as [g [a|] st]; simpl in *.
    + specialize (Hop a Hget eq_refl).
      destruct g, st; simpl; lia.
    + destruct g, st; simpl; lia.
  - apply mutate_bounded; [done |]. intros w _ Hw. done.
  - apply mutate_bounded; [done |]. intros w Hget Hw.
    specialize (Hop w Hget). unfold worker_bounded in *.
    simpl. case_match; simpl; lia.
  - apply mutate_bounded; [done |]. intros w _ Hw.
    unfold worker_bounded in *. simpl. case_match; simpl; lia.
  - unfold WorkerPool.expireStaleWorkers.
    pose proof (expireLoop_bounded t now _ Hp) as He.
    by destruct (WorkerPool.expireLoop t now (WorkerPool.workers p)).
Qed.

Lemma run_bounded ops p :
  pool_bounded p → all_respect_capacity ops p →
  pool_bounded (WorkerPool.run ops p).
Proof.
  revert p. induction ops as [|op ops IH]; intros p Hp Hops; [done |].
  destruct Hops as [Hop Hops]. apply IH; [by apply apply_bounded | done].
Qed.

Lemma get_mutate_eq k f p w :
  WorkerPool.get k p = Some w →
  WorkerPool.get k (WorkerPool.mutate k f p) = Some (f w).
Proof.
  intros Hget. unfold WorkerPool.mutate, WorkerPool.get in *.
  rewrite Hget. simpl. apply JsMap_get_set_eq.
Qed.

(** C4, as amended. The pool keeps [0 ≤ activeRequests ≤ maxConcurrency]
    for every worker along any sequence of its operations in which
    [incrementActive] is applied to workers below capacity, the
    [activeRequests] of an [updateMetrics] patch lies within the worker's
    capacity, and [register] leaves [maxConcurrency] at or above the
    worker's current load; on a worker with [activeRequests = 0],
    [decrementActive] leaves it at 0. *)
Theorem activeRequests_within_capacity ops p :
  pool_bounded p → all_respect_capacity ops p →
  pool_bounded (WorkerPool.run ops p)
  ∧ ∀ k w,
      WorkerPool.get k (WorkerPool.run ops p) = Some w →
      WorkerInfo.activeRequests w = 0%Z →
      WorkerInfo.activeRequests
        <$> WorkerPool.get k (WorkerPool.decrementActive k (WorkerPool.run ops p))
      = Some 0%Z.
Proof.
  intros Hp Hops. split; [by apply run_bounded |].
  intros k w Hget H0. unfold WorkerPool.decrementActive.
  rewrite (get_mutate_eq _ _ _ _ Hget). simpl. rewrite H0.
  by case_match.
Qed.

Lemma activeRequests_within_capacity_witness :
  let seed := WorkerSeedConfig.mk "p1" "http://p1:8000" prefill "m1" (Some 2%Z) in
  let ops := [WorkerPool.OpRegister seed 0; WorkerPool.OpIncrementActive "p1";
              WorkerPool.OpDecrementActive "p1"] in
  pool_bounded (WorkerPool.run ops WorkerPool.empty)
  ∧ WorkerInfo.activeRequests
      <$> WorkerPool.get "p1"
            (WorkerPool.decrementActive "p1" (WorkerPool.run ops WorkerPool.empty))
    = Some 0%Z.
Proof.
  intros seed ops.
  assert (Hb : pool_bounded WorkerPool.empty) by constructor.
  assert (Hr : all_respect_capacity ops WorkerPool.empty).
  { simpl. repeat split; try done.
    intros w. vm_compute. intros [= <-]. done. }
  destruct (activeRequests_within_capacity ops WorkerPool.empty Hb Hr) as [H1 H2].
  split; [exact H1 |].
  eapply H2; reflexivity.
Defined.

(** C4 as stated fails: two [incrementActive] calls on a worker of capacity 1
    leave [activeRequests = 2]. *)
Lemma incrementActive_exceeds_capacity :
  let seed := WorkerSeedConfig.mk "p1" "http://p1:8000" prefill "m1" (Some 1%Z) in
  let p := WorkerPool.run
             [WorkerPool.OpRegister seed 0; WorkerPool.OpIncrementActive "p1";
              WorkerPool.OpIncrementActive "p1"] WorkerPool.empty in
  (WorkerInfo.activeRequests <$> WorkerPool.get "p1" p = Some 2%Z
   ∧ WorkerInfo.maxConcurrency <$> WorkerPool.get "p1" p = Some 1%Z)
  ∧ ¬ pool_bounded p.
Proof.
  intros seed p. split; [by vm_compute |].
  intros Hp. destruct (WorkerPool.get "p1" p) as [w|] eqn:Hget; [| by vm_compute in Hget].
  pose proof (get_bounded _ _ _ Hp Hget) as [_ Hle].
  vm_compute in Hget. injection Hget as <-. simpl in Hle. lia.
Qed.

(** C9, as amended. Registering again under an id that is present keeps the
    worker's [status] (and its load and utilisation), so an offline worker
    is still offline afterwards; only the seed's fields and
    [lastHealthCheck] are refreshed. *)
Theorem register_again_keeps_status p seed now w :
  WorkerPool.get (WorkerSeedConfig.id seed) p = Some w →
  let info := (WorkerPool.register seed now p).1 in
  let p' := (WorkerPool.register seed now p).2 in
  WorkerPool.get (WorkerSeedConfig.id seed) p' = Some info
  ∧ WorkerInfo.status info = WorkerInfo.status w
  ∧ WorkerInfo.activeRequests info = WorkerInfo.activeRequests w
  ∧ WorkerInfo.gpuUtilization info = WorkerInfo.gpuUtilization w
  ∧ WorkerInfo.lastHealthCheck info = now
  ∧ (WorkerInfo.status w = offline → WorkerInfo.status info = offline).
Proof.
  intros Hget. unfold WorkerPool.get in Hget. simpl. rewrite Hget. simpl.
  split; [apply JsMap_get_set_eq |]. repeat split; done.
Qed.

Lemma register_again_keeps_status_witness :
  let seed := WorkerSeedConfig.mk "p1" "http://p1:8000" prefill "m1" None in
  let p := WorkerPool.markOffline "p1" (WorkerPool.register seed 0 WorkerPool.empty).2 in
  WorkerInfo.status (WorkerPool.register seed 5 p).1 = offline.
Proof.
  intros seed p.
  refine (let H := register_again_keeps_status p seed 5%Z _ _ in _).
  Unshelve. 3: { vm_compute. reflexivity. }
  destruct H as (_ & _ & _ & _ & _ & H). apply H. reflexivity.
Defined.

(** C9 as stated fails: a worker marked offline and registered again under
    the same id is still offline. *)
Lemma reregistered_worker_still_offline :
  let seed := WorkerSeedConfig.mk "p1" "http://p1:8000" prefill "m1" None in
  let p := WorkerPool.markOffline "p1" (WorkerPool.register seed 0 WorkerPool.empty).2 in
  WorkerInfo.status <$> WorkerPool.get "p1" p = Some offline
  ∧ WorkerInfo.status (WorkerPool.register seed 60000 p).1 = offline
  ∧ WorkerInfo.status <$> WorkerPool.get "p1" (WorkerPool.register seed 60000 p).2
    = Some offline.
Proof. by vm_compute. Qed.

(** *** Round-robin selection *)

Lemma available_workers_only role p c :
  WorkerPool.available role (WorkerPool.mk (WorkerPool.workers p) c)
  = WorkerPool.available role p.
Proof. reflexivity. Qed.

Lemma counter_bump_same c role :
  WorkerPool.counter (WorkerPool.bump c role) role
  = (WorkerPool.counter c role + 1)%N.
Proof. by destruct role. Qed.

Lemma counter_bump_other c role role' :
  role ≠ role' →
  WorkerPool.counter (WorkerPool.bump c role) role' = WorkerPool.counter c role'.
Proof. by destruct role, role'. Qed.

Lemma select_round_robin_empty role p :
  WorkerPool.available role p = [] →
  WorkerPool.select role round_robin p = (None, p).
Proof. intros H. unfold WorkerPool.select. by rewrite H. Qed.

Lemma select_round_robin_nonempty role p :
  WorkerPool.available role p ≠ [] →
  WorkerPool.select role round_robin p
  = (WorkerPool.available role p
       !! N.to_nat (WorkerPool.counter (WorkerPool.roundRobinCounters p) role
                    `mod` N.of_nat (length (WorkerPool.available role p))),
     WorkerPool.mk (WorkerPool.workers p)
                   (WorkerPool.bump (WorkerPool.roundRobinCounters p) role)).
Proof.
  intros H. unfold WorkerPool.select.
  rewrite bool_decide_false; [done |].
  by destruct (WorkerPool.available role p).
Qed.

Lemma select_many_round_robin role ws cands n :
  ∀ c, cands = WorkerPool.available role (WorkerPool.mk ws c) →
       cands ≠ [] →
       (WorkerPool.select_many role round_robin n (WorkerPool.mk ws c)).1
       = (λ k, cands !! N.to_nat ((WorkerPool.counter c role + N.of_nat k)
                                  `mod` N.of_nat (length cands)))
           <$> seq 0 n.
Proof.
  induction n as [|n IH]; intros c Hc Hne; [done |].
  simpl. rewrite select_round_robin_nonempty by (by rewrite <- Hc).
  simpl. rewrite <- Hc.
  specialize (IH (WorkerPool.bump c role) Hc Hne).
  destruct (WorkerPool.select_many role round_robin n _) as [rs p''].
  simpl in *. rewrite IH. f_equal.
  - by rewrite N.add_0_r.
  - rewrite <- fmap_S_seq, <- list_fmap_compose.
    apply list_fmap_ext. intros _ k _. simpl.
    rewrite counter_bump_same. do 3 f_equal. lia.
Qed.

Lemma rotate_Permutation {A} (n : nat) (l : list A) : rotate n l ≡ₚ l.
Proof.
  unfold rotate. rewrite Permutation_app_comm. by rewrite take_drop.
Qed.

Lemma round_robin_index (c : N) (i len : nat) :
  N.to_nat ((c + N.of_nat i) `mod` N.of_nat len)
  = rotate_nat_add (N.to_nat c) i len.
Proof.
  unfold rotate_nat_add.
  rewrite <- (Z_N_nat (_ `mod` _)%Z). f_equal.
  apply N2Z.inj. rewrite N2Z.inj_mod, N2Z.inj_add, !nat_N_Z.
  destruct (decide (len = 0)) as [->|Hlen].
  - simpl. rewrite !Z.mod_0_r. rewrite Z2N.id; lia.
  - rewrite Z2N.id, N_nat_Z; [done |].
    apply Z.mod_pos_bound. lia.
Qed.

(** C5, as amended. [select(role, "round-robin")] returns the available
    candidate at index (counter mod candidate count) and advances the
    counter of that role by one (leaving the other role's counter and the
    workers as they are) on every call that finds a candidate; a call that
    finds none returns no worker and leaves the counter where it was.
    With a fixed non-empty set of N available workers, N calls in a row
    return each of them exactly once. *)
Theorem round_robin_select role p :
  let cands := WorkerPool.available role p in
  let c := WorkerPool.roundRobinCounters p in
  (cands = [] → WorkerPool.select role round_robin p = (None, p))
  ∧ (cands ≠ [] →
     let '(w, p') := WorkerPool.select role round_robin p in
     w = cands !! N.to_nat (WorkerPool.counter c role `mod` N.of_nat (length cands))
     ∧ is_Some w
     ∧ WorkerPool.workers p' = WorkerPool.workers p
     ∧ WorkerPool.counter (WorkerPool.roundRobinCounters p') role
       = (WorkerPool.counter c role + 1)%N
     ∧ (∀ role', role ≠ role' →
          WorkerPool.counter (WorkerPool.roundRobinCounters p') role'
          = WorkerPool.counter c role'))
  ∧ (cands ≠ [] →
     (WorkerPool.select_many role round_robin (length cands) p).1
     ≡ₚ Some <$> cands).
Proof.
  intros cands c. split; [apply select_round_robin_empty |]. split.
  - intros Hne. rewrite select_round_robin_nonempty by done.
    fold cands. fold c. split; [done |]. split.
    + apply lookup_lt_is_Some. rewrite N2Nat.inj_mod, Nat2N.id.
      apply Nat.mod_upper_bound. by destruct cands.
    + split; [done |]. split; [apply counter_bump_same |].
      intros role' Hr. by apply counter_bump_other.
  - intros Hne. destruct p as [ws rr]. simpl in c. subst c.
    rewrite (select_many_round_robin role ws cands) by done.
    enough (((λ k, cands !! N.to_nat ((WorkerPool.counter rr role + N.of_nat k)
                                      `mod` N.of_nat (length cands)))
               <$> seq 0 (length cands))
            = Some <$> rotate (N.to_nat (WorkerPool.counter rr role)) cands)
      as -> by (by rewrite rotate_Permutation).
    apply list_eq. intros i.
    rewrite !list_lookup_fmap.
    destruct (decide (i < length cands)) as [Hi|Hi].
    + rewrite lookup_seq_lt by done. simpl.
      rewrite lookup_rotate_r by done. rewrite round_robin_index.
      destruct (lookup_lt_is_Some_2 cands
                  (rotate_nat_add (N.to_nat (WorkerPool.counter rr role)) i
                                  (length cands))) as [x Hx].
      { apply rotate_nat_add_lt. lia. }
      by rewrite Hx.
    + rewrite lookup_seq_ge by lia. simpl.
      rewrite (lookup_ge_None_2 (rotate _ _)); [done |].
      rewrite length_rotate. lia.
Qed.

Lemma round_robin_select_witness :
  let p1 := WorkerSeedConfig.mk "p1" "http://p1:8000" prefill "m1" None in
  let p2 := WorkerSeedConfig.mk "p2" "http://p2:8000" prefill "m1" None in
  let p := WorkerPool.run [WorkerPool.OpRegister p1 0; WorkerPool.OpRegister p2 0]
                          WorkerPool.empty in
  (WorkerPool.select_many prefill round_robin 2 p).1
  ≡ₚ Some <$> WorkerPool.available prefill p.
Proof.
  intros p1 p2 p.
  destruct (round_robin_select prefill p) as (_ & _ & H).
  apply H. by vm_compute.
Defined.

(** C5 as stated fails: a call that finds no candidate does not advance the
    counter. *)
Lemma select_without_candidate_keeps_counter :
  let p1 := WorkerSeedConfig.mk "p1" "http://p1:8000" prefill "m1" None in
  let p := WorkerPool.markOffline "p1" (WorkerPool.register p1 0 WorkerPool.empty).2 in
  (WorkerPool.select prefill round_robin p).1 = None
  ∧ WorkerPool.counter
      (WorkerPool.roundRobinCounters (WorkerPool.select prefill round_robin p).2)
      prefill
    = WorkerPool.counter (WorkerPool.roundRobinCounters p) prefill.
Proof. by vm_compute. Qed.

(** ** The transfer manager *)

Section KV_facts.
Import KVCacheTransferManager.

Lemma doTransfer_succeeds_iff net req handle :
  doTransfer net req = inr handle ↔ sequence_succeeds net handle.
Proof.
  unfold doTransfer, sequence_succeeds, mbind, Exc_bind, throw, ret.
  split.
  - destruct (Network.export net) as [e|exportRes]; [done |].
    destruct (Response.ok exportRes) eqn:Hok; simpl;
      [| by destruct (Response.text exportRes)].
    destruct (Response.json exportRes) as [e|[|token]] eqn:Hj1; simpl;
      [done.. |].
    destruct (Network.import net token) as [e|importRes] eqn:Himp; [done |].
    destruct (Response.ok importRes) eqn:Hok2; simpl;
      [| by destruct (Response.text importRes)].
    destruct (Response.json importRes) as [e|[|h]] eqn:Hj; simpl; [done.. |].
    intros [= <-]. by exists exportRes, token, importRes.
  - intros (exportRes & token & importRes & H1 & H2 & H3 & H4 & H5 & H6).
    rewrite H1, H2; simpl. rewrite H3; simpl. rewrite H4, H5; simpl.
    by rewrite H6.
Qed.

Lemma transferResult_returns req start now outcome :
  ∃ r, transferResult req start now outcome = inr r
       ∧ KVCacheTransferResult.requestId r = KVCacheTransferRequest.requestId req
       ∧ match outcome with
         | inl e =>
             KVCacheTransferResult.success r = false
             ∧ KVCacheTransferResult.error r = Some (thrown_message e)
             ∧ KVCacheTransferResult.targetCacheHandle r = None
         | inr h =>
             KVCacheTransferResult.success r = true
             ∧ KVCacheTransferResult.targetCacheHandle r = h
             ∧ KVCacheTransferResult.error r = None
         end.
Proof. destruct outcome; eexists; (split; [reflexivity |]); done. Qed.

Lemma settlement_transferResult req start now outcome e :
  settlement (transferResult req start now outcome) ≠ Rejected e.
Proof.
  destruct (transferResult_returns req start now outcome) as (r & -> & _).
  done.
Qed.

Lemma maxConcurrent_drain entries now s :
  maxConcurrent (drain entries now s) = maxConcurrent s.
Proof.
  revert s. induction entries as [|next rest IH]; intros s; simpl; [done |].
  case_match; [| done]. by rewrite IH.
Qed.

Lemma maxConcurrent_step s s' : step s s' → maxConcurrent s' = maxConcurrent s.
Proof.
  destruct 1 as [req now s|i net now s Hi].
  - unfold transfer. by case_match.
  - unfold executeTransfer_resumed. destruct Hi as [j ->].
    destruct (job_forward j); simpl; unfold drainPending;
      by rewrite maxConcurrent_drain.
Qed.

Lemma kv_invariant_executeTransfer req now s :
  (activeTransfers s < maxConcurrent s)%Z →
  kv_invariant s →
  kv_invariant (executeTransfer req None now s).2.
Proof.
  intros Hlt (H1 & H2 & H3). unfold kv_invariant; simpl.
  rewrite length_app, app_nil_r. simpl. repeat split; [lia | lia | done].
Qed.

Lemma kv_invariant_drain entries now s :
  entries = pending s → kv_invariant s → kv_invariant (drain entries now s).
Proof.
  revert s. induction entries as [|next rest IH]; intros s Hp Hs; [done |].
  simpl. case_match eqn:Hlt; [| done].
  apply Z.ltb_lt in Hlt. destruct Hs as (H1 & H2 & H3).
  apply IH; simpl; [by rewrite <- Hp |].
  unfold kv_invariant; simpl. rewrite <- Hp in *. simpl in *.
  rewrite length_app. simpl. repeat split; [lia | lia |].
  by rewrite H3, <- app_assoc.
Qed.

Lemma kv_invariant_settle p v s : kv_invariant s → kv_invariant (settle p v s).
Proof. done. Qed.

Lemma kv_invariant_step s s' : step s s' → kv_invariant s → kv_invariant s'.
Proof.
  destruct 1 as [req now s|i net now s Hi]; intros Hs.
  - unfold transfer. case_match eqn:Hlt.
    + apply Z.ltb_lt in Hlt. by apply kv_invariant_executeTransfer.
    + destruct Hs as (H1 & H2 & H3). unfold kv_invariant; simpl.
      repeat split; [done.. |].
      by rewrite H3, fmap_app, app_assoc.
  - unfold executeTransfer_resumed. destruct Hi as [j Hj]. rewrite Hj.
    assert (kv_invariant
              (drainPending now
                 (mk (maxConcurrent s) (timeoutMs s) (activeTransfers s - 1)
                     (pending s) (delete i (suspended s)) (promises s)
                     (enqueued s) (started s)))) as Hd.
    { apply kv_invariant_drain; [done |].
      destruct Hs as (H1 & H2 & H3). unfold kv_invariant; simpl.
      apply lookup_lt_Some in Hj.
      rewrite length_delete by (apply lookup_lt_is_Some; lia).
      repeat split; [lia | lia | done]. }
    destruct (job_forward j); by repeat apply kv_invariant_settle.
Qed.

Lemma kv_invariant_reachable config s :
  reachable config s →
  kv_invariant s ∧ maxConcurrent s = KvTransferConfig.maxConcurrent config.
Proof.
  intros Hr. unfold reachable in Hr.
  apply rtc_nsteps in Hr as [n Hr].
  revert s Hr. induction n as [|n IH]; intros s Hr.
  - inversion Hr; subst. split; [| done].
    unfold kv_invariant, create; simpl. by repeat split.
  - apply nsteps_inv_r in Hr as (s0 & Hr & Hstep).
    destruct (IH _ Hr) as [Hinv Hm]. split.
    + by eapply kv_invariant_step.
    + by rewrite (maxConcurrent_step _ _ Hstep).
Qed.

Lemma never_rejected_alloc s ps :
  never_rejected s → promises ps = promises s ++ [Pending] → never_rejected ps.
Proof.
  unfold never_rejected. intros Hs ->. apply Forall_app. split; [done |].
  by repeat constructor.
Qed.

Lemma never_rejected_drain entries now s :
  never_rejected s → never_rejected (drain entries now s).
Proof.
  revert s. induction entries as [|next rest IH]; intros s Hs; [done |].
  simpl. case_match; [| done]. apply IH.
  by eapply never_rejected_alloc.
Qed.

Lemma never_rejected_settle p v s :
  (∀ e, v ≠ Rejected e) → never_rejected s → never_rejected (settle p v s).
Proof.
  unfold never_rejected. intros Hv Hs. simpl.
  destruct (decide (p < length (promises s))) as [Hp|Hp].
  - by apply Forall_insert.
  - rewrite list_insert_ge by lia. done.
Qed.

Lemma never_rejected_step s s' : step s s' → never_rejected s → never_rejected s'.
Proof.
  destruct 1 as [req now s|i net now s Hi]; intros Hs.
  - unfold transfer. case_match; by eapply never_rejected_alloc.
  - unfold executeTransfer_resumed. destruct Hi as [j Hj]. rewrite Hj.
    assert (never_rejected
              (drainPending now
                 (mk (maxConcurrent s) (timeoutMs s) (activeTransfers s - 1)
                     (pending s) (delete i (suspended s)) (promises s)
                     (enqueued s) (started s)))) as Hd
      by by apply never_rejected_drain.
    destruct (job_forward j);
      repeat apply never_rejected_settle;
      try done; intros e; apply settlement_transferResult.
Qed.

Lemma never_rejected_reachable config s : reachable config s → never_rejected s.
Proof.
  intros Hr. unfold reachable in Hr.
  apply rtc_nsteps in Hr as [n Hr].
  revert s Hr. induction n as [|n IH]; intros s Hr.
  - inversion Hr; subst. constructor.
  - apply nsteps_inv_r in Hr as (s0 & Hr & Hstep).
    eapply never_rejected_step; eauto.
Qed.

Lemma reachable_step config s s' :
  reachable config s → step s s' → reachable config s'.
Proof. intros Hr Hs. eapply rtc_r; eauto. Qed.
End KV_facts.

(** C6. In every state the manager can reach, the counter [active] is the
    number of transfers under way and, the limit being non-negative, is at
    most [maxConcurrent]; the callers put on the pending list are those whose
    transfer was started from it, in that order, followed by those still
    waiting, in list order. *)
Theorem transfer_manager_bound_and_fifo config s :
  (0 ≤ KvTransferConfig.maxConcurrent config)%Z →
  KVCacheTransferManager.reachable config s →
  KVCacheTransferManager.active s
  = Z.of_nat (length (KVCacheTransferManager.suspended s))
  ∧ (KVCacheTransferManager.active s ≤ KvTransferConfig.maxConcurrent config)%Z
  ∧ KVCacheTransferManager.enqueued s
    = KVCacheTransferManager.started s
      ++ (KVCacheTransferManager.waiting_promise
            <$> KVCacheTransferManager.pending s).
Proof.
  intros Hmax Hr.
  destruct (kv_invariant_reachable _ _ Hr) as [(H1 & H2 & H3) Hm].
  unfold KVCacheTransferManager.active. rewrite Hm in H2.
  repeat split; [done | by apply H2 | done].
Qed.

Lemma transfer_manager_bound_and_fifo_witness :
  let config := KvTransferConfig.mk 1 15000 in
  let job n := KVCacheTransferRequest.mk n "http://p1:8000" "http://d1:8000" "h" 0 in
  let answer := Response.mk true 200 (inr "") (inr (ObjectBody (Some "t"))) in
  let net := Network.mk (inr answer) (λ _, inr answer) in
  let s0 := KVCacheTransferManager.create config in
  let s1 := (KVCacheTransferManager.transfer (job "a") 0 s0).2 in
  let s2 := (KVCacheTransferManager.transfer (job "b") 1 s1).2 in
  let s3 := (KVCacheTransferManager.transfer (job "c") 2 s2).2 in
  let s4 := KVCacheTransferManager.executeTransfer_resumed 0 net 50 s3 in
  (KVCacheTransferManager.active s4 ≤ 1)%Z
  ∧ KVCacheTransferManager.enqueued s4 = [1; 2]
  ∧ KVCacheTransferManager.started s4 = [1]
  ∧ KVCacheTransferManager.waiting_promise
      <$> KVCacheTransferManager.pending s4 = [2].
Proof.
  intros config job answer net s0 s1 s2 s3 s4.
  assert (Hr : KVCacheTransferManager.reachable config s4).
  { repeat (eapply reachable_step;
            [| first [ apply KVCacheTransferManager.step_resumed; by eexists
                     | apply KVCacheTransferManager.step_transfer ]]).
    apply rtc_refl. }
  assert (Hmax : (0 ≤ KvTransferConfig.maxConcurrent config)%Z) by done.
  destruct (transfer_manager_bound_and_fifo config s4 Hmax Hr) as (_ & H2 & _).
  split; [exact H2 |]. by vm_compute.
Defined.



(** The three kinds of failure, on concrete answers of the network. *)
Example transfer_http_failure :
  let req := KVCacheTransferRequest.mk "r" "http://p1:8000" "http://d1:8000" "h" 0 in
  let refused := Response.mk false 503 (inr "busy") (throw (ErrorObj "no body")) in
  let net := Network.mk (inr refused) (λ _, throw (ErrorObj "unused")) in
  KVCacheTransferManager.transferResult req 10 35
    (KVCacheTransferManager.doTransfer net req)
  = inr (KVCacheTransferResult.mk "r" false 25 None
           (Some "KV cache export failed (503): busy")).
Proof. by vm_compute. Qed.

Example transfer_deadline_failure :
  let req := KVCacheTransferRequest.mk "r" "http://p1:8000" "http://d1:8000" "h" 0 in
  let answer := Response.mk true 200 (inr "") (inr (ObjectBody (Some "token"))) in
  let net := Network.mk (inr answer)
               (λ _, throw (ErrorObj "This operation was aborted")) in
  KVCacheTransferManager.transferResult req 10 15010
    (KVCacheTransferManager.doTransfer net req)
  = inr (KVCacheTransferResult.mk "r" false 15000 None
           (Some "This operation was aborted")).
Proof. by vm_compute. Qed.

Example transfer_success :
  let req := KVCacheTransferRequest.mk "r" "http://p1:8000" "http://d1:8000" "h" 0 in
  let exported := Response.mk true 200 (inr "") (inr (ObjectBody (Some "token"))) in
  let imported := Response.mk true 200 (inr "") (inr (ObjectBody (Some "h2"))) in
  let net := Network.mk (inr exported) (λ _, inr imported) in
  KVCacheTransferManager.transferResult req 10 35
    (KVCacheTransferManager.doTransfer net req)
  = inr (KVCacheTransferResult.mk "r" true 25 (Some "h2") None).
Proof. by vm_compute. Qed.

(** ** The scheduler *)

Lemma last_emit event h :
  last (HealthMonitor.eventLog (HealthMonitor.emit event h)) = Some event.
Proof.
  unfold HealthMonitor.emit; simpl. case_decide as Hlen.
  - destruct (HealthMonitor.eventLog h) as [|e l]; simpl in *; [lia |].
    by rewrite last_snoc.
  - by rewrite last_snoc.
Qed.

Lemma submit_full opts now s :
  (PDSchedulerConfig.maxQueueSize (PDScheduler.config s)
   ≤ Z.of_nat (length (PDScheduler.queue s)))%Z →
  PDScheduler.submit opts now s = (inl (ErrorObj "Scheduler queue is full"), s).
Proof.
  intros H. unfold PDScheduler.submit.
  by rewrite (proj2 (Z.leb_le _ _) H).
Qed.

Lemma submit_accepted opts now s :
  (Z.of_nat (length (PDScheduler.queue s))
   < PDSchedulerConfig.maxQueueSize (PDScheduler.config s))%Z →
  let s' := (PDScheduler.submit opts now s).2 in
  let c := length (PDScheduler.store s) in
  (PDScheduler.submit opts now s).1 = inr c
  ∧ PDScheduler.store s'
    = PDScheduler.store s
      ++ [PDScheduler.mkCell (submitted_request opts now s) Pending]
  ∧ PDScheduler.queue s' = PDScheduler.queue s ++ [c]
  ∧ PDScheduler.inflight s'
    = <[(PDScheduler.generateRequestId now s).1 := c]> (PDScheduler.inflight s)
  ∧ PDScheduler.idCounter s' = (PDScheduler.idCounter s + 1)%N
  ∧ PDScheduler.pipelines s' = PDScheduler.pipelines s
  ∧ PDScheduler.config s' = PDScheduler.config s.
Proof.
  intros H. unfold PDScheduler.submit.
  rewrite (proj2 (Z.leb_gt _ _) H). simpl. by repeat split.
Qed.

(** C2. [submit] returns a promise already rejected with the queue-full
    error exactly when the queue is at least [maxQueueSize] long, and then
    the scheduler is left as it was (queue, in-flight table, id counter and
    all the rest); otherwise it returns the pending promise of a new
    request. With [maxQueueSize = 0] every [submit] is rejected. *)
Theorem submit_queue_full opts now s :
  let full :=
    (PDSchedulerConfig.maxQueueSize (PDScheduler.config s)
     ≤ Z.of_nat (length (PDScheduler.queue s)))%Z in
  let '(r, s') := PDScheduler.submit opts now s in
  (r = inl (ErrorObj "Scheduler queue is full") ↔ full)
  ∧ (full → s' = s)
  ∧ (¬ full →
     ∃ c, r = inr c
          ∧ PDScheduler.promise <$> PDScheduler.store s' !! c = Some Pending
          ∧ PDScheduler.queue s' = PDScheduler.queue s ++ [c])
  ∧ (PDSchedulerConfig.maxQueueSize (PDScheduler.config s) = 0%Z →
     r = inl (ErrorObj "Scheduler queue is full")
     ∧ PDScheduler.queue s' = PDScheduler.queue s
     ∧ PDScheduler.inflight s' = PDScheduler.inflight s
     ∧ PDScheduler.idCounter s' = PDScheduler.idCounter s).
Proof.
  intros full.
  destruct (Z.le_gt_cases
              (PDSchedulerConfig.maxQueueSize (PDScheduler.config s))
              (Z.of_nat (length (PDScheduler.queue s)))) as [Hfull|Hfree].
  - rewrite submit_full by done. repeat split; done.
  - destruct (submit_accepted opts now s Hfree) as (Hr & Hst & Hq & _).
    destruct (PDScheduler.submit opts now s) as [r s']. simpl in *.
    subst r. unfold full.
    split; [split; [done | lia] |]. split; [lia |]. split; [| lia].
    intros _. eexists. split; [done |]. split; [| done].
    rewrite Hst, lookup_app_r by done.
    by rewrite Nat.sub_diag.
Qed.

Lemma submit_queue_full_witness :
  let config := PDSchedulerConfig.mk true least_loaded 60000 30000 0 5000 []
                  (KvTransferConfig.mk 2 5000) in
  let opts := SubmitOptions.mk "m" (PromptText "hello") None None None in
  let s := PDScheduler.create config 0 in
  (PDScheduler.submit opts 1 s).1 = inl (ErrorObj "Scheduler queue is full")
  ∧ (PDScheduler.submit opts 1 s).2 = s.
Proof.
  intros config opts s.
  pose proof (submit_queue_full opts 1%Z s) as H.
  destruct (PDScheduler.submit opts 1 s) as [r s'].
  destruct H as (_ & H2 & _ & H4). simpl.
  split; [apply H4; reflexivity | apply H2; vm_compute; discriminate].
Defined.

(** C8, as amended. [fail] with an id that has no in-flight entry leaves
    the queue, the in-flight table, the request objects and their promises,
    the pool, the transfer manager and the running pipelines as they were,
    but it does count a failure and log a [request_failed] event. *)
Theorem fail_unknown_id requestId error now s :
  PDScheduler.inflight s !! requestId = None →
  let s' := PDScheduler.fail requestId error now s in
  s' = PDScheduler.emit
         (request_failed requestId (thrown_message error) now)
         (PDScheduler.set_health
            (HealthMonitor.recordFailure (PDScheduler.health s)) s)
  ∧ PDScheduler.queue s' = PDScheduler.queue s
  ∧ PDScheduler.inflight s' = PDScheduler.inflight s
  ∧ PDScheduler.store s' = PDScheduler.store s
  ∧ PDScheduler.pool s' = PDScheduler.pool s
  ∧ PDScheduler.kvManager s' = PDScheduler.kvManager s
  ∧ PDScheduler.pipelines s' = PDScheduler.pipelines s
  ∧ HealthMonitor.failed (PDScheduler.health s')
    = (HealthMonitor.failed (PDScheduler.health s) + 1)%Z
  ∧ last (HealthMonitor.eventLog (PDScheduler.health s'))
    = Some (request_failed requestId (thrown_message error) now).
Proof.
  intros Hnone. unfold PDScheduler.fail. simpl. rewrite Hnone. simpl.
  repeat split; try done.
  apply (last_emit _ (HealthMonitor.recordFailure (PDScheduler.health s))).
Qed.

Lemma fail_unknown_id_witness :
  let config := PDSchedulerConfig.mk true least_loaded 60000 30000 10 5000 []
                  (KvTransferConfig.mk 2 5000) in
  let s := PDScheduler.create config 0 in
  HealthMonitor.failed
    (PDScheduler.health (PDScheduler.fail "req-0-7" (ErrorObj "late") 1 s))
  = 1%Z.
Proof.
  intros config s.
  refine (let H := fail_unknown_id "req-0-7" (ErrorObj "late") 1%Z s _ in _).
  Unshelve. 2: { reflexivity. }
  destruct H as (_ & _ & _ & _ & _ & _ & _ & H & _). exact H.
Defined.

(** C8 as stated fails: on a fresh scheduler, [fail] with an id that is not
    in flight raises the failure counter from 0 to 1 and logs a
    [request_failed] event. *)
Lemma fail_unknown_id_counts_and_logs :
  let config := PDSchedulerConfig.mk true least_loaded 60000 30000 10 5000 []
                  (KvTransferConfig.mk 2 5000) in
  let s := PDScheduler.create config 0 in
  let s' := PDScheduler.fail "req-0-7" (ErrorObj "late") 1 s in
  PDScheduler.inflight s !! "req-0-7" = None
  ∧ HealthMonitor.failed (PDScheduler.health s) = 0%Z
  ∧ HealthMonitor.failed (PDScheduler.health s') = 1%Z
  ∧ HealthMonitor.eventLog (PDScheduler.health s) = []
  ∧ HealthMonitor.eventLog (PDScheduler.health s')
    = [request_failed "req-0-7" "late" 1].
Proof. by vm_compute. Qed.

(** *** The queue and in-flight invariant, on what it reads of the state *)

Section invariant_moves.
Implicit Types (ids : list string) (pend : list bool) (q : list nat)
  (inf : gmap string nat) (n : N) (fr : list PDScheduler.Frame).

Lemma invariant_queue_shrinks ids pend q q' inf n fr :
  queue_inflight_invariant ids pend q inf n fr →
  NoDup q' → (∀ c, c ∈ q' → c ∈ q) →
  queue_inflight_invariant ids pend q' inf n fr.
Proof.
  intros [] Hnd Hsub. split; try done.
  - intros c Hc. auto.
  - intros f Hf. destruct (inv_frames0 f Hf) as [Hq Hid]. split; [| done].
    intros Hc. auto.
Qed.

Lemma invariant_frames_shrink ids pend q inf n fr fr' :
  queue_inflight_invariant ids pend q inf n fr →
  (∀ f, f ∈ fr' → f ∈ fr) →
  queue_inflight_invariant ids pend q inf n fr'.
Proof. intros [] Hsub. split; try done. intros f Hf. auto. Qed.

Lemma ids_lookup_inj ids c c' k :
  NoDup ids → ids !! c = Some k → ids !! c' = Some k → c = c'.
Proof. intros Hnd H1 H2. by eapply NoDup_lookup. Qed.

(** A request becomes terminal: its entry leaves the in-flight table and
    its promise settles. *)
Lemma invariant_terminal ids pend q inf n fr k :
  queue_inflight_invariant ids pend q inf n fr →
  (∀ c, ids !! c = Some k → c ∉ q) →
  queue_inflight_invariant ids
    (match inf !! k with Some c => <[c := false]> pend | None => pend end)
    q (delete k inf) n fr.
Proof.
  intros [] Hk. split; try done.
  - by destruct (inf !! k); rewrite ?length_insert.
  - intros c Hc. destruct (inv_queue0 c Hc) as (k0 & Hid & Hin).
    exists k0. split; [done |]. rewrite lookup_delete_ne; [done |].
    intros <-. by apply (Hk c).
  - intros k0 c Hin. apply lookup_delete_Some in Hin as [_ Hin]. auto.
  - intros c k0 Hid. rewrite lookup_delete_Some.
    destruct (inf !! k) as [ck|] eqn:Hck.
    + pose proof (inv_own0 _ _ Hck) as Hidk.
      destruct (decide (c = ck)) as [->|Hne].
      * assert (k0 = k) as -> by congruence.
        split; [| by intros [? _]].
        intros Hp. apply list_lookup_insert_Some in Hp.
        destruct Hp as [(_ & ? & _)|[? _]]; done.
      * rewrite list_lookup_insert_ne by done.
        rewrite (inv_pending0 c k0 Hid). split; [| by intros [_ ?]].
        intros Hin. split; [| done]. intros <-. congruence.
    + rewrite (inv_pending0 c k0 Hid). split; [| by intros [_ ?]].
      intros Hin. split; [| done]. intros <-. congruence.
Qed.

(** The head of the queue is launched into a pipeline. *)
Lemma invariant_launch ids pend c rest inf n fr f :
  queue_inflight_invariant ids pend (c :: rest) inf n fr →
  PDScheduler.frame_request f = c →
  ids !! c = Some (PDScheduler.frame_rid f) →
  queue_inflight_invariant ids pend rest inf n (fr ++ [f]).
Proof.
  intros [] Hc Hid. apply NoDup_cons in inv_queue_nodup0 as [Hnot Hnd].
  split; try done.
  - intros c' Hc'. apply inv_queue0. by right.
  - intros f' Hf'. apply elem_of_app in Hf' as [Hf'|Hf'].
    + destruct (inv_frames0 f' Hf') as [Hq Hid']. split; [| done].
      intros Hr. apply Hq. by right.
    + apply list_elem_of_singleton in Hf' as ->. by rewrite Hc.
Qed.

(** An accepted [submit]. *)
Lemma invariant_submit ids pend q inf n fr now :
  queue_inflight_invariant ids pend q inf n fr →
  queue_inflight_invariant
    (ids ++ [issued_id now (n + 1)]) (pend ++ [true]) (q ++ [length ids])
    (<[issued_id now (n + 1) := length ids]> inf) (n + 1) fr.
Proof.
  intros [].
  assert (Hfresh : issued_id now (n + 1) ∉ ids).
  { intros Hin. rewrite Forall_forall in inv_issued0.
    destruct (inv_issued0 _ Hin) as (now' & n' & Heq & Hle).
    apply issued_id_inj in Heq. lia. }
  assert (Hlt : ∀ c k, ids !! c = Some k → c < length ids
                       ∧ k ≠ issued_id now (n + 1)).
  { intros c k Hid. split; [by eapply lookup_lt_Some |].
    intros ->. apply Hfresh. by eapply list_elem_of_lookup_2. }
  split.
  - apply Forall_app. split.
    + eapply Forall_impl; [done |]. intros k (now' & n' & -> & Hle).
      exists now', n'. split; [done | lia].
    + repeat constructor. exists now, (n + 1)%N. split; [done | lia].
  - apply NoDup_app. split; [done |]. split; [| apply NoDup_singleton].
    intros k Hk Hk'. apply list_elem_of_singleton in Hk' as ->. done.
  - rewrite !length_app. simpl. lia.
  - apply NoDup_app. split; [done |]. split; [| apply NoDup_singleton].
    intros c Hc Hc'. apply list_elem_of_singleton in Hc' as ->.
    destruct (inv_queue0 _ Hc) as (k & Hid & _).
    destruct (Hlt _ _ Hid). lia.
  - intros c Hc. apply elem_of_app in Hc as [Hc|Hc].
    + destruct (inv_queue0 _ Hc) as (k & Hid & Hin).
      destruct (Hlt _ _ Hid) as [? ?].
      exists k. rewrite lookup_app_l by done.
      by rewrite lookup_insert_ne.
    + apply list_elem_of_singleton in Hc as ->.
      exists (issued_id now (n + 1)).
      rewrite lookup_app_r, Nat.sub_diag by done.
      by rewrite lookup_insert_eq.
  - intros k c Hin. apply lookup_insert_Some in Hin as [[<- <-]|[Hne Hin]].
    + by rewrite lookup_app_r, Nat.sub_diag.
    + pose proof (inv_own0 _ _ Hin) as Hid.
      destruct (Hlt _ _ Hid). by rewrite lookup_app_l.
  - intros c k Hid.
    destruct (decide (c < length ids)) as [Hc|Hc].
    + rewrite lookup_app_l in Hid by done.
      destruct (Hlt _ _ Hid) as [_ Hne].
      rewrite lookup_app_l by lia. rewrite lookup_insert_ne by done.
      by apply inv_pending0.
    + pose proof (lookup_lt_Some _ _ _ Hid) as Hlen.
      rewrite length_app in Hlen; simpl in Hlen.
      assert (c = length ids) as -> by lia.
      rewrite lookup_app_r, Nat.sub_diag in Hid by done.
      injection Hid as <-.
      rewrite lookup_app_r by lia. rewrite inv_len0, Nat.sub_diag.
      by rewrite lookup_insert_eq.
  - intros f Hf. destruct (inv_frames0 f Hf) as [Hq Hid].
    destruct (Hlt _ _ Hid) as [? _]. split.
    + intros Hc. apply elem_of_app in Hc as [Hc|Hc]; [done |].
      apply list_elem_of_singleton in Hc. lia.
    + by rewrite lookup_app_l.
Qed.

Lemma invariant_empty : queue_inflight_invariant [] [] [] ∅ 0 [].
Proof.
  split; [constructor | constructor | done | constructor | | done | done |];
    intros x Hx; by apply elem_of_nil in Hx.
Qed.
End invariant_moves.

(** *** What the operations of the scheduler do to the request objects *)

Lemma descriptors_alter (g : PDScheduler.Cell → PDScheduler.Cell) (c : nat)
    (st : list PDScheduler.Cell) :
  (∀ cell, descriptor (PDScheduler.request (g cell))
           = descriptor (PDScheduler.request cell)) →
  descriptors (alter g c st) = descriptors st.
Proof.
  intros Hg. unfold descriptors.
  rewrite (list_fmap_alter _ g id).
  - apply list_eq. intros i. rewrite list_lookup_alter.
    case_decide; [subst |]; by destruct (_ !! _).
  - apply Forall_forall. intros cell _. apply Hg.
Qed.

Lemma pendings_alter (g : PDScheduler.Cell → PDScheduler.Cell) (c : nat)
    (st : list PDScheduler.Cell) :
  (∀ cell, PDScheduler.promise (g cell) = PDScheduler.promise cell) →
  (λ cell, is_pending (PDScheduler.promise cell)) <$> alter g c st
  = (λ cell, is_pending (PDScheduler.promise cell)) <$> st.
Proof.
  intros Hg. rewrite (list_fmap_alter _ g id).
  - apply list_eq. intros i. rewrite list_lookup_alter.
    case_decide; [subst |]; by destruct (_ !! _).
  - apply Forall_forall. intros cell _. by rewrite Hg.
Qed.

Lemma ids_descriptors s : ids s = (λ d, d.1.1.1) <$> descriptors (PDScheduler.store s).
Proof. unfold ids, descriptors. by rewrite <- list_fmap_compose. Qed.

Lemma keeps_descriptor_set_phase p : keeps_descriptor (InferenceRequest.set_phase p).
Proof. done. Qed.
Lemma keeps_descriptor_set_prefillWorkerId w :
  keeps_descriptor (InferenceRequest.set_prefillWorkerId w).
Proof. done. Qed.
Lemma keeps_descriptor_set_decodeWorkerId w :
  keeps_descriptor (InferenceRequest.set_decodeWorkerId w).
Proof. done. Qed.
Lemma keeps_descriptor_set_kvCacheHandle h :
  keeps_descriptor (InferenceRequest.set_kvCacheHandle h).
Proof. done. Qed.

Create HintDb sched.
#[local] Hint Resolve keeps_descriptor_set_phase keeps_descriptor_set_prefillWorkerId
  keeps_descriptor_set_decodeWorkerId keeps_descriptor_set_kvCacheHandle : sched.

Lemma descriptors_mutate_request c f s :
  keeps_descriptor f →
  descriptors (PDScheduler.store (PDScheduler.mutate_request c f s))
  = descriptors (PDScheduler.store s).
Proof. intros Hf. simpl. apply descriptors_alter. intros cell. apply Hf. Qed.

Lemma pendings_mutate_request c f s :
  pendings (PDScheduler.mutate_request c f s) = pendings s.
Proof. unfold pendings. simpl. apply pendings_alter. by intros cell. Qed.

Lemma descriptors_settle c v s :
  descriptors (PDScheduler.store (PDScheduler.settle c v s))
  = descriptors (PDScheduler.store s).
Proof.
  simpl. apply descriptors_alter. intros cell.
  by destruct (PDScheduler.promise cell).
Qed.

Lemma pendings_settle c v s :
  is_pending v = false →
  pendings (PDScheduler.settle c v s) = <[c := false]> (pendings s).
Proof.
  intros Hv. unfold pendings. simpl. apply list_eq. intros i.
  rewrite list_lookup_fmap, list_lookup_alter.
  destruct (decide (c = i)) as [->|Hne].
  - destruct (decide (i < length (PDScheduler.store s))) as [Hi|Hi].
    + rewrite list_lookup_insert_eq by (by rewrite length_fmap).
      destruct (lookup_lt_is_Some_2 _ _ Hi) as [cell ->]. simpl.
      destruct (PDScheduler.promise cell) eqn:Hp; simpl; by rewrite ?Hv, ?Hp.
    + rewrite list_insert_ge by (rewrite length_fmap; lia).
      rewrite list_lookup_fmap.
      by rewrite (lookup_ge_None_2 (PDScheduler.store s)) by lia.
  - by rewrite list_lookup_insert_ne, list_lookup_fmap.
Qed.

(** What [fail] does to the part of the state the invariant reads. *)
Lemma fail_effect k e now s :
  let s' := PDScheduler.fail k e now s in
  descriptors (PDScheduler.store s') = descriptors (PDScheduler.store s)
  ∧ pendings s'
    = match PDScheduler.inflight s !! k with
      | Some c => <[c := false]> (pendings s)
      | None => pendings s
      end
  ∧ PDScheduler.queue s' = PDScheduler.queue s
  ∧ PDScheduler.inflight s' = delete k (PDScheduler.inflight s)
  ∧ PDScheduler.idCounter s' = PDScheduler.idCounter s
  ∧ PDScheduler.pipelines s' = PDScheduler.pipelines s
  ∧ PDScheduler.pool s' = PDScheduler.pool s
  ∧ PDScheduler.kvManager s' = PDScheduler.kvManager s
  ∧ PDScheduler.config s' = PDScheduler.config s.
Proof.
  unfold PDScheduler.fail. simpl.
  destruct (PDScheduler.inflight s !! k) as [c|] eqn:Hk.
  - split; [| split]; [| | by repeat split].
    + rewrite descriptors_settle. simpl. apply descriptors_alter. by intros cell.
    + rewrite pendings_settle by done. f_equal. unfold pendings. simpl.
      apply pendings_alter. by intros cell.
  - repeat split; try done. symmetry. by apply delete_id.
Qed.

Lemma request_at_descriptor st c :
  descriptor <$> PDScheduler.request_at st c = descriptors st !! c.
Proof.
  unfold PDScheduler.request_at, descriptors. rewrite list_lookup_fmap.
  by destruct (st !! c).
Qed.

Lemma request_at_same st st' c :
  descriptors st = descriptors st' →
  descriptor <$> PDScheduler.request_at st c
  = descriptor <$> PDScheduler.request_at st' c.
Proof. intros H. by rewrite !request_at_descriptor, H. Qed.

Lemma timed_out_descriptor now r r' :
  descriptor r = descriptor r' →
  PDScheduler.timed_out now r = PDScheduler.timed_out now r'.
Proof.
  unfold descriptor, PDScheduler.timed_out. intros [= _ _ Hc Ht].
  by rewrite Hc, Ht.
Qed.

Lemma compare_descriptor x x' y y' :
  descriptor x = descriptor x' → descriptor y = descriptor y' →
  PDScheduler.compare x y = PDScheduler.compare x' y'.
Proof.
  unfold descriptor, PDScheduler.compare.
  intros [= _ Hp Hc _] [= _ Hp' Hc' _]. by rewrite Hp, Hc, Hp', Hc'.
Qed.

Lemma is_live_same st st' now c :
  descriptors st = descriptors st' → is_live st now c = is_live st' now c.
Proof.
  intros H. pose proof (request_at_same st st' c H) as Hr. unfold is_live.
  destruct (PDScheduler.request_at st c) as [r|],
           (PDScheduler.request_at st' c) as [r'|]; simpl in Hr; try done.
  apply (inj Some) in Hr. f_equal. by apply timed_out_descriptor.
Qed.

Lemma compare_at_same st st' a b :
  descriptors st = descriptors st' →
  PDScheduler.compare_at st a b = PDScheduler.compare_at st' a b.
Proof.
  intros H. pose proof (request_at_same st st' a H) as Ha.
  pose proof (request_at_same st st' b H) as Hb. unfold PDScheduler.compare_at.
  destruct (PDScheduler.request_at st a) as [x|],
           (PDScheduler.request_at st' a) as [x'|]; simpl in Ha; try done.
  destruct (PDScheduler.request_at st b) as [y|],
           (PDScheduler.request_at st' b) as [y'|]; simpl in Hb; try done.
  apply (inj Some) in Ha, Hb. by apply compare_descriptor.
Qed.

Lemma compare_not_after x y :
  (PDScheduler.compare x y ≤ 0)%Z ↔ not_after x y.
Proof.
  unfold PDScheduler.compare, not_after. case_bool_decide; lia.
Qed.

Lemma ids_request_at s c r :
  PDScheduler.request_at (PDScheduler.store s) c = Some r →
  ids s !! c = Some (InferenceRequest.requestId r).
Proof.
  unfold PDScheduler.request_at, ids. rewrite list_lookup_fmap.
  destruct (PDScheduler.store s !! c); [| done]. by intros [= <-].
Qed.

(** *** The invariant along the operations of the scheduler *)

Lemma sched_invariant_same s s' :
  descriptors (PDScheduler.store s') = descriptors (PDScheduler.store s) →
  pendings s' = pendings s →
  PDScheduler.queue s' = PDScheduler.queue s →
  PDScheduler.inflight s' = PDScheduler.inflight s →
  PDScheduler.idCounter s' = PDScheduler.idCounter s →
  frames s' = frames s →
  sched_invariant s → sched_invariant s'.
Proof.
  unfold sched_invariant. rewrite !ids_descriptors.
  by intros -> -> -> -> -> ->.
Qed.

Lemma sched_invariant_mutate_request c f s :
  keeps_descriptor f →
  sched_invariant s → sched_invariant (PDScheduler.mutate_request c f s).
Proof.
  intros Hf. apply sched_invariant_same; try done.
  - by apply descriptors_mutate_request.
  - apply pendings_mutate_request.
Qed.

Lemma sched_invariant_fail k e now s :
  sched_invariant s →
  (∀ c, ids s !! c = Some k → c ∉ PDScheduler.queue s) →
  sched_invariant (PDScheduler.fail k e now s).
Proof.
  intros Hs Hk.
  destruct (fail_effect k e now s) as (Hd & Hp & Hq & Hi & Hn & Hpl & _).
  unfold sched_invariant, frames. rewrite ids_descriptors, Hd, Hp, Hq, Hi, Hn, Hpl.
  rewrite <- ids_descriptors. by apply invariant_terminal.
Qed.

Lemma sched_invariant_set_queue q' s :
  sched_invariant s →
  NoDup q' → (∀ c, c ∈ q' → c ∈ PDScheduler.queue s) →
  sched_invariant (PDScheduler.set_queue q' s).
Proof. intros Hs Hnd Hsub. eapply invariant_queue_shrinks; eauto. Qed.

Lemma NoDup_delete {A} (l : list A) i : NoDup l → NoDup (delete i l).
Proof.
  intros H. eapply sublist_NoDup; [done |]. apply sublist_delete.
Qed.

Lemma elem_of_delete {A} (l : list A) i x : x ∈ delete i l → x ∈ l.
Proof. intros H. eapply elem_of_sublist; [done | apply sublist_delete]. Qed.

Lemma NoDup_lookup_not_in_delete {A} (l : list A) i x :
  NoDup l → l !! i = Some x → x ∉ delete i l.
Proof.
  intros Hnd Hi Hin. rewrite <- (take_drop_middle l i x Hi) in Hnd.
  rewrite delete_take_drop in Hin.
  apply NoDup_app in Hnd as (_ & Hnot & Hnd).
  apply NoDup_cons in Hnd as [Hx _].
  apply elem_of_app in Hin as [Hin|Hin]; [| done].
  apply (Hnot x Hin). by left.
Qed.

Lemma sched_invariant_sweep_at i now s :
  sched_invariant s → sched_invariant (PDScheduler.sweep_at i now s).
Proof.
  intros Hs. unfold PDScheduler.sweep_at.
  destruct (PDScheduler.queue s !! i) as [c|] eqn:Hi; [| done].
  destruct (PDScheduler.request_at (PDScheduler.store s) c) as [req|] eqn:Hc;
    [| done].
  case_match; [| done].
  pose proof (inv_queue_nodup _ _ _ _ _ _ Hs) as Hnd.
  apply sched_invariant_fail.
  - apply sched_invariant_set_queue; [done | by apply NoDup_delete |].
    intros c'. apply elem_of_delete.
  - intros c' Hc'. simpl.
    assert (c' = c) as ->.
    { eapply ids_lookup_inj; [apply (inv_ids _ _ _ _ _ _ Hs) | done |].
      by apply ids_request_at. }
    by apply NoDup_lookup_not_in_delete.
Qed.

Lemma sched_invariant_sweep n now s :
  sched_invariant s → sched_invariant (PDScheduler.sweep n now s).
Proof.
  revert s. induction n as [|n IH]; intros s Hs; [done |].
  simpl. by apply IH, sched_invariant_sweep_at.
Qed.

(** *** The sweep *)

Lemma sweep_at_frame i now s :
  let s' := PDScheduler.sweep_at i now s in
  descriptors (PDScheduler.store s') = descriptors (PDScheduler.store s)
  ∧ PDScheduler.pool s' = PDScheduler.pool s
  ∧ PDScheduler.pipelines s' = PDScheduler.pipelines s
  ∧ PDScheduler.config s' = PDScheduler.config s
  ∧ PDScheduler.kvManager s' = PDScheduler.kvManager s
  ∧ PDScheduler.idCounter s' = PDScheduler.idCounter s.
Proof.
  unfold PDScheduler.sweep_at.
  destruct (PDScheduler.queue s !! i) as [c|]; [| done].
  destruct (PDScheduler.request_at (PDScheduler.store s) c) as [req|]; [| done].
  case_match; [| done].
  destruct (fail_effect (InferenceRequest.requestId req)
              (ErrorObj "Request timed out in queue") now
              (PDScheduler.set_queue (delete i (PDScheduler.queue s)) s))
    as (Hd & _ & _ & _ & Hn & Hpl & Hpo & Hkv & Hc).
  by repeat split.
Qed.

Lemma sweep_at_queue i now s c :
  PDScheduler.queue s !! i = Some c →
  PDScheduler.queue (PDScheduler.sweep_at i now s)
  = if is_live (PDScheduler.store s) now c then PDScheduler.queue s
    else delete i (PDScheduler.queue s).
Proof.
  intros Hi. unfold PDScheduler.sweep_at, is_live. rewrite Hi.
  destruct (PDScheduler.request_at (PDScheduler.store s) c) as [req|]; [| done].
  destruct (PDScheduler.timed_out now req); [| done]. simpl.
  by destruct (fail_effect (InferenceRequest.requestId req)
                 (ErrorObj "Request timed out in queue") now
                 (PDScheduler.set_queue (delete i (PDScheduler.queue s)) s))
    as (_ & _ & -> & _).
Qed.

Lemma sweep_frame n now s :
  let s' := PDScheduler.sweep n now s in
  descriptors (PDScheduler.store s') = descriptors (PDScheduler.store s)
  ∧ PDScheduler.pool s' = PDScheduler.pool s
  ∧ PDScheduler.pipelines s' = PDScheduler.pipelines s
  ∧ PDScheduler.config s' = PDScheduler.config s
  ∧ PDScheduler.kvManager s' = PDScheduler.kvManager s
  ∧ PDScheduler.idCounter s' = PDScheduler.idCounter s.
Proof.
  revert s. induction n as [|n IH]; intros s; [done |]. simpl.
  destruct (IH (PDScheduler.sweep_at n now s)) as (-> & -> & -> & -> & -> & ->).
  apply sweep_at_frame.
Qed.

(** The sweep removes the expired requests and keeps the others in
    order. *)
Lemma sweep_queue n now s :
  n ≤ length (PDScheduler.queue s) →
  PDScheduler.queue (PDScheduler.sweep n now s)
  = filter (λ c, is_live (PDScheduler.store s) now c = true)
           (take n (PDScheduler.queue s))
    ++ drop n (PDScheduler.queue s).
Proof.
  revert s. induction n as [|n IH]; intros s Hn; [done |]. simpl.
  destruct (lookup_lt_is_Some_2 (PDScheduler.queue s) n) as [c Hc]; [lia |].
  destruct (sweep_at_frame n now s) as (Hd & _).
  pose proof (sweep_at_queue n now s c Hc) as Hq.
  rewrite IH.
  - rewrite (take_S_r _ _ _ Hc), filter_app.
    rewrite (list_filter_iff _ (λ c, is_live (PDScheduler.store s) now c = true))
      by (intros x; by rewrite (is_live_same _ _ now x Hd)).
    rewrite Hq. destruct (is_live (PDScheduler.store s) now c) eqn:Hlive.
    + rewrite filter_cons_True, filter_nil by done.
      rewrite <- app_assoc. simpl. by rewrite (drop_S _ _ _ Hc).
    + rewrite filter_cons_False, filter_nil, app_nil_r by (by rewrite Hlive).
      rewrite delete_take_drop.
      assert (Hlen : length (take n (PDScheduler.queue s)) = n)
        by (rewrite length_take; lia).
      rewrite take_app_ge, drop_app_ge by lia.
      rewrite Hlen, Nat.sub_diag. simpl. by rewrite app_nil_r.
  - rewrite Hq. case_match; [lia |].
    rewrite length_delete by (by eexists). lia.
Qed.

Lemma sorted_and_swept_queue now s :
  PDScheduler.queue (sorted_and_swept now s)
  = filter (λ c, is_live (PDScheduler.store s) now c = true)
      (JsArray.sort (PDScheduler.compare_at (PDScheduler.store s))
                    (PDScheduler.queue s)).
Proof.
  unfold sorted_and_swept. rewrite sweep_queue by done. simpl.
  by rewrite firstn_all, drop_all, app_nil_r.
Qed.

Lemma sorted_and_swept_frame now s :
  let s' := sorted_and_swept now s in
  descriptors (PDScheduler.store s') = descriptors (PDScheduler.store s)
  ∧ PDScheduler.pool s' = PDScheduler.pool s
  ∧ PDScheduler.pipelines s' = PDScheduler.pipelines s
  ∧ PDScheduler.config s' = PDScheduler.config s
  ∧ PDScheduler.kvManager s' = PDScheduler.kvManager s
  ∧ PDScheduler.idCounter s' = PDScheduler.idCounter s.
Proof.
  unfold sorted_and_swept.
  apply (sweep_frame _ now
           (PDScheduler.set_queue
              (JsArray.sort (PDScheduler.compare_at (PDScheduler.store s))
                            (PDScheduler.queue s)) s)).
Qed.

Lemma sched_invariant_sorted_and_swept now s :
  sched_invariant s → sched_invariant (sorted_and_swept now s).
Proof.
  intros Hs. apply sched_invariant_sweep, sched_invariant_set_queue; [done | |].
  - rewrite sort_Permutation. by apply (inv_queue_nodup _ _ _ _ _ _ Hs).
  - intros c. by rewrite sort_Permutation.
Qed.

(** *** Dispatch *)

Lemma dispatch_unfold now s :
  PDScheduler.dispatch now s
  = if bool_decide (length (PDScheduler.queue s) = 0) then s
    else
      let s2 := sorted_and_swept now s in
      let '(w, pool') :=
        WorkerPool.select prefill
          (PDSchedulerConfig.strategy (PDScheduler.config s)) (PDScheduler.pool s) in
      let s3 := PDScheduler.set_pool pool' s2 in
      match w with
      | None => s3
      | Some w =>
          match PDScheduler.queue s2 with
          | [] => s3
          | c :: rest =>
              PDScheduler.runPipeline c (WorkerInfo.id w) now
                (PDScheduler.set_queue rest s3)
          end
      end.
Proof.
  unfold PDScheduler.dispatch. case_bool_decide; [done |].
  fold (sorted_and_swept now s).
  destruct (sorted_and_swept_frame now s) as (_ & -> & _ & -> & _).
  reflexivity.
Qed.

Lemma runPipeline_effect c w now s r :
  PDScheduler.request_at (PDScheduler.store s) c = Some r →
  let s' := PDScheduler.runPipeline c w now s in
  descriptors (PDScheduler.store s') = descriptors (PDScheduler.store s)
  ∧ pendings s' = pendings s
  ∧ PDScheduler.queue s' = PDScheduler.queue s
  ∧ PDScheduler.inflight s' = PDScheduler.inflight s
  ∧ PDScheduler.idCounter s' = PDScheduler.idCounter s
  ∧ PDScheduler.pipelines s'
    = PDScheduler.pipelines s
      ++ [PDScheduler.AwaitPrefill
            (PDScheduler.mkFrame c (InferenceRequest.requestId r) w now
               (WorkerPool.get w (WorkerPool.incrementActive w (PDScheduler.pool s))))].
Proof.
  intros Hr. unfold PDScheduler.runPipeline. rewrite Hr.
  set (s1 := PDScheduler.mutate_request c
               (InferenceRequest.set_phase prefilling) s).
  split; [| split]; [| | done].
  - transitivity (descriptors (PDScheduler.store s1)).
    + by apply (descriptors_mutate_request c _ s1).
    + by apply descriptors_mutate_request.
  - transitivity (pendings s1).
    + apply (pendings_mutate_request c _ s1).
    + apply pendings_mutate_request.
Qed.

Lemma sched_invariant_valid s c :
  sched_invariant s → c ∈ PDScheduler.queue s →
  is_Some (PDScheduler.request_at (PDScheduler.store s) c).
Proof.
  intros Hs Hc. destruct (inv_queue _ _ _ _ _ _ Hs c Hc) as (k & Hid & _).
  unfold ids in Hid. rewrite list_lookup_fmap in Hid.
  unfold PDScheduler.request_at.
  destruct (PDScheduler.store s !! c); by eauto.
Qed.

Lemma sched_invariant_dispatch now s :
  sched_invariant s → sched_invariant (PDScheduler.dispatch now s).
Proof.
  intros Hs. rewrite dispatch_unfold. case_bool_decide; [done |].
  pose proof (sched_invariant_sorted_and_swept now s Hs) as H2.
  destruct (WorkerPool.select _ _ _) as [[w|] pool']; simpl; [| done].
  destruct (PDScheduler.queue (sorted_and_swept now s)) as [|c rest] eqn:Hq;
    [done |].
  destruct (sched_invariant_valid _ c H2) as [r Hr]; [rewrite Hq; by left |].
  destruct (runPipeline_effect c (WorkerInfo.id w) now
              (PDScheduler.set_queue rest
                 (PDScheduler.set_pool pool' (sorted_and_swept now s))) r Hr)
    as (Hd & Hp & Hqu & Hi & Hn & Hpl).
  unfold sched_invariant, frames.
  rewrite ids_descriptors, Hd, Hp, Hqu, Hi, Hn, Hpl. simpl.
  rewrite <- ids_descriptors, fmap_app. simpl.
  eapply invariant_launch; [| reflexivity |].
  - unfold sched_invariant in H2. by rewrite Hq in H2.
  - simpl. by apply ids_request_at.
Qed.

(** *** The invariant along the steps *)

Lemma sched_invariant_set_pool v s :
  sched_invariant s → sched_invariant (PDScheduler.set_pool v s).
Proof. done. Qed.
Lemma sched_invariant_set_health v s :
  sched_invariant s → sched_invariant (PDScheduler.set_health v s).
Proof. done. Qed.
Lemma sched_invariant_emit e s :
  sched_invariant s → sched_invariant (PDScheduler.emit e s).
Proof. done. Qed.
Lemma sched_invariant_set_kvManager v s :
  sched_invariant s → sched_invariant (PDScheduler.set_kvManager v s).
Proof. done. Qed.
Lemma sched_invariant_set_activePrefills v s :
  sched_invariant s → sched_invariant (PDScheduler.set_activePrefills v s).
Proof. done. Qed.
Lemma sched_invariant_set_activeDecodes v s :
  sched_invariant s → sched_invariant (PDScheduler.set_activeDecodes v s).
Proof. done. Qed.
Lemma sched_invariant_set_running v s :
  sched_invariant s → sched_invariant (PDScheduler.set_running v s).
Proof. done. Qed.

Ltac invariant_peel :=
  repeat match goal with
    | |- sched_invariant (PDScheduler.set_pool _ _) =>
        apply sched_invariant_set_pool
    | |- sched_invariant (PDScheduler.emit _ _) =>
        apply sched_invariant_emit
    | |- sched_invariant (PDScheduler.set_health _ _) =>
        apply sched_invariant_set_health
    | |- sched_invariant (PDScheduler.set_kvManager _ _) =>
        apply sched_invariant_set_kvManager
    | |- sched_invariant (PDScheduler.set_activePrefills _ _) =>
        apply sched_invariant_set_activePrefills
    | |- sched_invariant (PDScheduler.set_activeDecodes _ _) =>
        apply sched_invariant_set_activeDecodes
    | |- sched_invariant (PDScheduler.set_running _ _) =>
        apply sched_invariant_set_running
    | |- sched_invariant (PDScheduler.mutate_request _ _ _) =>
        apply sched_invariant_mutate_request; [by auto with sched |]
    end.

Lemma frame_rid_not_queued s p :
  sched_invariant s → p ∈ PDScheduler.pipelines s →
  ∀ c, ids s !! c = Some (PDScheduler.frame_rid (PDScheduler.frame p)) →
       c ∉ PDScheduler.queue s.
Proof.
  intros Hs Hp c Hc.
  destruct (inv_frames _ _ _ _ _ _ Hs (PDScheduler.frame p)) as [Hq Hid].
  { unfold frames. by apply list_elem_of_fmap_2. }
  by rewrite (ids_lookup_inj _ _ _ _ (inv_ids _ _ _ _ _ _ Hs) Hc Hid).
Qed.

Lemma sched_invariant_drop_pipeline i s :
  sched_invariant s →
  sched_invariant
    (PDScheduler.set_pipelines (delete i (PDScheduler.pipelines s)) s).
Proof.
  intros Hs. eapply invariant_frames_shrink; [exact Hs |].
  intros f Hf. unfold frames in *. simpl in Hf.
  apply list_elem_of_fmap in Hf as (p & -> & Hp).
  apply list_elem_of_fmap_2. by eapply elem_of_delete.
Qed.

Lemma sched_invariant_caught i f err now s p :
  sched_invariant s →
  PDScheduler.pipelines s !! i = Some p → PDScheduler.frame p = f →
  sched_invariant (PDScheduler.caught i f err now s).
Proof.
  intros Hs Hi <-. unfold PDScheduler.caught. apply sched_invariant_fail.
  - by apply sched_invariant_drop_pipeline.
  - apply (frame_rid_not_queued s p Hs). by eapply list_elem_of_lookup_2.
Qed.

Lemma sched_invariant_restage i p p' s :
  sched_invariant s →
  PDScheduler.pipelines s !! i = Some p →
  PDScheduler.frame p' = PDScheduler.frame p →
  sched_invariant
    (PDScheduler.set_pipelines (<[i := p']> (PDScheduler.pipelines s)) s).
Proof.
  intros Hs Hi Hf. eapply sched_invariant_same; [..| exact Hs]; try done.
  unfold frames. simpl. rewrite list_fmap_insert, Hf.
  apply list_insert_id. by rewrite list_lookup_fmap, Hi.
Qed.

Lemma sched_invariant_resolve k v s :
  sched_invariant s →
  (∀ c, ids s !! c = Some k → c ∉ PDScheduler.queue s) →
  sched_invariant
    (match PDScheduler.inflight s !! k with
     | Some e =>
         PDScheduler.settle e (Resolved v)
           (PDScheduler.set_inflight (delete k (PDScheduler.inflight s)) s)
     | None => s
     end).
Proof.
  intros Hs Hk. pose proof (invariant_terminal _ _ _ _ _ _ k Hs Hk) as Ht.
  destruct (PDScheduler.inflight s !! k) as [e|] eqn:He.
  - unfold sched_invariant. rewrite ids_descriptors, descriptors_settle.
    rewrite pendings_settle by done. by rewrite <- ids_descriptors.
  - by rewrite delete_id in Ht.
Qed.

Lemma sched_invariant_submit opts now s :
  sched_invariant s → sched_invariant (PDScheduler.submit opts now s).2.
Proof.
  intros Hs.
  destruct (Z.le_gt_cases
              (PDSchedulerConfig.maxQueueSize (PDScheduler.config s))
              (Z.of_nat (length (PDScheduler.queue s)))) as [Hfull|Hfree].
  - by rewrite submit_full.
  - destruct (submit_accepted opts now s Hfree) as (_ & Hst & Hq & Hi & Hn & Hp & _).
    unfold sched_invariant, ids, pendings, frames.
    rewrite Hst, Hq, Hi, Hn, Hp, !fmap_app. simpl.
    rewrite <- (length_fmap cell_id (PDScheduler.store s)).
    by apply invariant_submit.
Qed.

Lemma sched_invariant_prefilled i f outcome now s :
  sched_invariant s →
  PDScheduler.pipelines s !! i = Some (PDScheduler.AwaitPrefill f) →
  sched_invariant (PDScheduler.runPipeline_prefilled i f outcome now s).
Proof.
  intros Hs Hi. unfold PDScheduler.runPipeline_prefilled.
  destruct outcome as [err|prefillResult];
    [by eapply sched_invariant_caught |].
  destruct (WorkerPool.select _ _ _) as [[decodeWorker|] pool'].
  - destruct (PDScheduler.frame_prefillWorker f) as [prefillWorker|].
    + destruct (KVCacheTransferManager.transfer _ _ _) as [q kv].
      eapply sched_invariant_restage; [| exact Hi | done].
      by invariant_peel.
    + eapply sched_invariant_caught; [| exact Hi | done]. by invariant_peel.
  - eapply sched_invariant_caught; [| exact Hi | done]. by invariant_peel.
Qed.

Lemma sched_invariant_transferred i f prefillResult decodeWorker q outcome now s :
  sched_invariant s →
  PDScheduler.pipelines s !! i
  = Some (PDScheduler.AwaitTransfer f prefillResult decodeWorker q) →
  sched_invariant
    (PDScheduler.runPipeline_transferred i f prefillResult decodeWorker
       outcome now s).
Proof.
  intros Hs Hi. unfold PDScheduler.runPipeline_transferred.
  destruct outcome as [err|transferResult];
    [by eapply sched_invariant_caught |].
  destruct (KVCacheTransferResult.success transferResult); cbn [negb].
  - eapply sched_invariant_restage; [| exact Hi | done]. by invariant_peel.
  - by eapply sched_invariant_caught.
Qed.

Lemma sched_invariant_decoded i f prefillResult decodeWorker transferResult
    outcome now s :
  sched_invariant s →
  PDScheduler.pipelines s !! i
  = Some (PDScheduler.AwaitDecode f prefillResult decodeWorker transferResult) →
  sched_invariant
    (PDScheduler.runPipeline_decoded i f prefillResult decodeWorker
       outcome now s).
Proof.
  intros Hs Hi. unfold PDScheduler.runPipeline_decoded.
  destruct outcome as [err|decodeResult];
    [by eapply sched_invariant_caught |].
  set (s1 := PDScheduler.mutate_request _ _ _).
  assert (H1 : sched_invariant s1) by (unfold s1; by invariant_peel).
  apply (sched_invariant_resolve (PDScheduler.frame_rid f) _
           (PDScheduler.set_pipelines (delete i (PDScheduler.pipelines s1)) s1)).
  - by apply sched_invariant_drop_pipeline.
  - intros c Hc.
    apply (frame_rid_not_queued s1
             (PDScheduler.AwaitDecode f prefillResult decodeWorker transferResult)
             H1); [| done].
    by eapply list_elem_of_lookup_2.
Qed.

Lemma sched_invariant_step s s' :
  PDScheduler.step s s' → sched_invariant s → sched_invariant s'.
Proof.
  destruct 1; intros Hs.
  - unfold PDScheduler.start. by case_match.
  - done.
  - by apply sched_invariant_submit.
  - by apply sched_invariant_dispatch.
  - by apply sched_invariant_prefilled.
  - done.
  - by eapply sched_invariant_transferred.
  - by eapply sched_invariant_decoded.
  - done.
  - by destruct (HealthMonitor.probed _ _ _ _).
  - by destruct (HealthMonitor.expire _ _ _).
Qed.

Lemma sched_invariant_reachable config s :
  PDScheduler.reachable config s → sched_invariant s.
Proof.
  intros [now Hr]. apply rtc_nsteps in Hr as [n Hr].
  revert s Hr. induction n as [|n IH]; intros s Hr.
  - inversion Hr; subst. apply invariant_empty.
  - apply nsteps_inv_r in Hr as (s0 & Hr & Hstep).
    eapply sched_invariant_step; eauto.
Qed.

(** *** The order of dispatch *)

Lemma compare_at_valid st a b x y :
  PDScheduler.request_at st a = Some x → PDScheduler.request_at st b = Some y →
  PDScheduler.compare_at st a b = PDScheduler.compare x y.
Proof. intros Ha Hb. unfold PDScheduler.compare_at. by rewrite Ha, Hb. Qed.

Lemma compare_at_total st a b :
  is_Some (PDScheduler.request_at st a) → is_Some (PDScheduler.request_at st b) →
  (PDScheduler.compare_at st a b ≤ 0 ∨ PDScheduler.compare_at st b a ≤ 0)%Z.
Proof.
  intros [x Hx] [y Hy].
  rewrite (compare_at_valid _ _ _ _ _ Hx Hy), (compare_at_valid _ _ _ _ _ Hy Hx).
  unfold PDScheduler.compare. repeat case_bool_decide; lia.
Qed.

Lemma compare_at_trans st a b c :
  is_Some (PDScheduler.request_at st a) → is_Some (PDScheduler.request_at st b) →
  is_Some (PDScheduler.request_at st c) →
  (PDScheduler.compare_at st a b ≤ 0 → PDScheduler.compare_at st b c ≤ 0 →
   PDScheduler.compare_at st a c ≤ 0)%Z.
Proof.
  intros [x Hx] [y Hy] [z Hz].
  rewrite (compare_at_valid _ _ _ _ _ Hx Hy), (compare_at_valid _ _ _ _ _ Hy Hz),
    (compare_at_valid _ _ _ _ _ Hx Hz).
  rewrite !compare_not_after. unfold not_after. lia.
Qed.

(** C3. A dispatch tick launches at most one request. The request it
    launches is one of the queued requests the sweep does not expire, and
    it is not after any other of them in the order (priority rank, then
    creation time); the rest of them stay queued. When [select] finds no
    prefill worker nothing is launched and every queued request that is
    not expired stays queued. *)
Theorem dispatch_launches_minimum config s now :
  PDScheduler.reachable config s →
  let s' := PDScheduler.dispatch now s in
  let live := filter (λ c, is_live (PDScheduler.store s) now c = true)
                     (PDScheduler.queue s) in
  let worker := (WorkerPool.select prefill
                   (PDSchedulerConfig.strategy (PDScheduler.config s))
                   (PDScheduler.pool s)).1 in
  ((PDScheduler.pipelines s' = PDScheduler.pipelines s
    ∧ PDScheduler.queue s' ≡ₚ live)
   ∨ (∃ c f w r,
        PDScheduler.pipelines s'
        = PDScheduler.pipelines s ++ [PDScheduler.AwaitPrefill f]
        ∧ PDScheduler.frame_request f = c
        ∧ worker = Some w
        ∧ PDScheduler.frame_prefillWorkerId f = WorkerInfo.id w
        ∧ c ∈ PDScheduler.queue s
        ∧ PDScheduler.request_at (PDScheduler.store s) c = Some r
        ∧ PDScheduler.timed_out now r = false
        ∧ c :: PDScheduler.queue s' ≡ₚ live
        ∧ ∀ c', c' ∈ live →
                ∃ r', PDScheduler.request_at (PDScheduler.store s) c' = Some r'
                      ∧ not_after r r'))
  ∧ (worker = None →
     PDScheduler.pipelines s' = PDScheduler.pipelines s
     ∧ PDScheduler.queue s' ≡ₚ live).
Proof.
  intros Hr s' live worker. apply sched_invariant_reachable in Hr as Hs.
  subst s'. rewrite dispatch_unfold. case_bool_decide as Hempty.
  { apply length_zero_iff_nil in Hempty. subst live. rewrite Hempty.
    split; [by left | done]. }
  destruct (sorted_and_swept_frame now s) as (Hd & _ & Hpl & _).
  pose proof (sorted_and_swept_queue now s) as Hq.
  pose proof (sched_invariant_sorted_and_swept now s Hs) as H2.
  assert (Hperm : PDScheduler.queue (sorted_and_swept now s) ≡ₚ live).
  { rewrite Hq. subst live. by rewrite sort_Permutation. }
  subst worker.
  destruct (WorkerPool.select _ _ _) as [[w|] pool'] eqn:Hsel; simpl;
    [| split; [left |]; done].
  split; [| done].
  destruct (PDScheduler.queue (sorted_and_swept now s)) as [|c rest] eqn:Hq2.
  { left. split; [exact Hpl |]. simpl. by rewrite Hq2. }
  right.
  assert (Hvalid : Forall (λ c, is_Some (PDScheduler.request_at
                                            (PDScheduler.store s) c))
                     (JsArray.sort (PDScheduler.compare_at (PDScheduler.store s))
                                   (PDScheduler.queue s))).
  { rewrite sort_Permutation. apply Forall_forall. intros x Hx.
    by apply sched_invariant_valid. }
  assert (Hc : c ∈ live) by (rewrite <- Hperm; by left).
  apply list_elem_of_filter in Hc as [Hlive Hc].
  destruct (sched_invariant_valid s c Hs Hc) as [r Hcr].
  destruct (sched_invariant_valid _ c H2) as [r2 Hr2]; [rewrite Hq2; by left |].
  destruct (runPipeline_effect c (WorkerInfo.id w) now
              (PDScheduler.set_queue rest
                 (PDScheduler.set_pool pool' (sorted_and_swept now s))) r2 Hr2)
    as (_ & _ & Hqu & _ & _ & Hpipe).
  eexists c, _, w, r. rewrite Hpipe, Hqu. simpl. rewrite Hpl.
  split; [done |]. split; [done |]. split; [done |]. split; [done |].
  split; [done |]. split; [done |]. split.
  { unfold is_live in Hlive. rewrite Hcr in Hlive.
    by destruct (PDScheduler.timed_out now r). }
  split; [done |].
  intros c' Hc'. apply list_elem_of_filter in Hc' as [Hlive' Hc'].
  destruct (sched_invariant_valid s c' Hs Hc') as [r' Hr'].
  exists r'. split; [done |].
  apply compare_not_after. rewrite <- (compare_at_valid _ _ _ _ _ Hcr Hr').
  eapply (sorted_filter_head (PDScheduler.compare_at (PDScheduler.store s))
            (λ c, is_Some (PDScheduler.request_at (PDScheduler.store s) c))
            (compare_at_total _)
            (λ c, is_live (PDScheduler.store s) now c = true)).
  - exact Hvalid.
  - apply (sort_sorted (PDScheduler.compare_at (PDScheduler.store s))
             (λ c, is_Some (PDScheduler.request_at (PDScheduler.store s) c))
             (compare_at_total _) (compare_at_trans _)).
    rewrite <- (sort_Permutation (PDScheduler.compare_at (PDScheduler.store s))).
    exact Hvalid.
  - symmetry. exact Hq.
  - by rewrite sort_Permutation.
  - exact Hlive'.
Qed.

(** *** Request objects keep their descriptor *)

Lemma descriptors_caught i f err now s :
  descriptors (PDScheduler.store (PDScheduler.caught i f err now s))
  = descriptors (PDScheduler.store s).
Proof.
  unfold PDScheduler.caught.
  by destruct (fail_effect (PDScheduler.frame_rid f) (as_error err) now
                 (PDScheduler.set_pipelines (delete i (PDScheduler.pipelines s)) s))
    as (-> & _).
Qed.

Lemma descriptors_dispatch now s :
  sched_invariant s →
  descriptors (PDScheduler.store (PDScheduler.dispatch now s))
  = descriptors (PDScheduler.store s).
Proof.
  intros Hs. rewrite dispatch_unfold. case_bool_decide; [done |].
  destruct (sorted_and_swept_frame now s) as (Hd & _).
  pose proof (sched_invariant_sorted_and_swept now s Hs) as H2.
  destruct (WorkerPool.select _ _ _) as [[w|] pool']; simpl; [| done].
  destruct (PDScheduler.queue (sorted_and_swept now s)) as [|c rest] eqn:Hq;
    [done |].
  destruct (sched_invariant_valid _ c H2) as [r Hr]; [rewrite Hq; by left |].
  by destruct (runPipeline_effect c (WorkerInfo.id w) now
                 (PDScheduler.set_queue rest
                    (PDScheduler.set_pool pool' (sorted_and_swept now s))) r Hr)
    as (-> & _).
Qed.

Lemma descriptors_step s s' :
  PDScheduler.step s s' → sched_invariant s →
  descriptors (PDScheduler.store s)
  `prefix_of` descriptors (PDScheduler.store s').
Proof.
  destruct 1 as [s|s|opts now s|now s Hrun|i f outcome now s Hi|i net now s Hi
                |i f pr dw q outcome now s Hi Hq|i f pr dw tr outcome now s Hi
                |op s|w result now s|now s]; intros Hs.
  - unfold PDScheduler.start. by case_match.
  - done.
  - destruct (Z.le_gt_cases
                (PDSchedulerConfig.maxQueueSize (PDScheduler.config s))
                (Z.of_nat (length (PDScheduler.queue s)))) as [Hfull|Hfree].
    + by rewrite submit_full.
    + destruct (submit_accepted opts now s Hfree) as (_ & -> & _).
      unfold descriptors. rewrite fmap_app. by apply prefix_app_r.
  - by rewrite descriptors_dispatch.
  - unfold PDScheduler.runPipeline_prefilled.
    destruct outcome as [err|prefillResult]; [by rewrite descriptors_caught |].
    destruct (WorkerPool.select _ _ _) as [[decodeWorker|] pool'].
    + destruct (PDScheduler.frame_prefillWorker f) as [prefillWorker|].
      * destruct (KVCacheTransferManager.transfer _ _ _) as [q kv]. simpl.
        by rewrite !descriptors_alter by (by intros cell).
      * rewrite descriptors_caught. simpl.
        by rewrite !descriptors_alter by (by intros cell).
    + rewrite descriptors_caught. simpl.
      by rewrite !descriptors_alter by (by intros cell).
  - done.
  - unfold PDScheduler.runPipeline_transferred.
    destruct outcome as [err|transferResult]; [by rewrite descriptors_caught |].
    destruct (KVCacheTransferResult.success transferResult); simpl.
    + by rewrite !descriptors_alter by (by intros cell).
    + by rewrite descriptors_caught.
  - unfold PDScheduler.runPipeline_decoded.
    destruct outcome as [err|decodeResult]; [by rewrite descriptors_caught |].
    simpl. destruct (PDScheduler.inflight s !! PDScheduler.frame_rid f); simpl.
    + rewrite !descriptors_alter; [done | by intros cell |].
      intros cell. by destruct (PDScheduler.promise cell).
    + by rewrite !descriptors_alter by (by intros cell).
  - done.
  - by destruct (HealthMonitor.probed _ _ _ _).
  - by destruct (HealthMonitor.expire _ _ _).
Qed.

Lemma descriptors_steps s s' :
  rtc PDScheduler.step s s' → sched_invariant s →
  sched_invariant s'
  ∧ descriptors (PDScheduler.store s)
    `prefix_of` descriptors (PDScheduler.store s').
Proof.
  induction 1 as [s|s s1 s' Hstep Hrtc IH]; intros Hs; [done |].
  destruct IH as [Hs' Hp]; [by eapply sched_invariant_step |].
  split; [done |]. etrans; [| exact Hp]. by apply descriptors_step.
Qed.

Lemma pendings_promise s c :
  pendings s !! c = Some true →
  PDScheduler.promise <$> PDScheduler.store s !! c = Some Pending.
Proof.
  unfold pendings. rewrite list_lookup_fmap.
  destruct (PDScheduler.store s !! c) as [cell|]; [| done]. simpl.
  by destruct (PDScheduler.promise cell).
Qed.

(** One tick leaves a queued request that has [timeoutMs = 0] alone. *)
Lemma tick_keeps_zero_timeout s c req now :
  sched_invariant s →
  c ∈ PDScheduler.queue s →
  PDScheduler.request_at (PDScheduler.store s) c = Some req →
  InferenceRequest.timeoutMs req = Some 0%Z →
  let s' := PDScheduler.dispatch now s in
  PDScheduler.timed_out now req = false
  ∧ (c ∈ PDScheduler.queue s' ∨ in_pipeline s' c)
  ∧ PDScheduler.inflight s' !! InferenceRequest.requestId req = Some c
  ∧ PDScheduler.promise <$> PDScheduler.store s' !! c = Some Pending.
Proof.
  intros Hs Hc Hreq Ht s'.
  assert (Hlive : PDScheduler.timed_out now req = false)
    by (unfold PDScheduler.timed_out; by rewrite Ht).
  split; [done |]. subst s'. rewrite dispatch_unfold.
  case_bool_decide as Hempty.
  { apply length_zero_iff_nil in Hempty. rewrite Hempty in Hc.
    by apply elem_of_nil in Hc. }
  destruct (sorted_and_swept_frame now s) as (Hd & _).
  pose proof (sched_invariant_sorted_and_swept now s Hs) as H2.
  assert (Hc2 : c ∈ PDScheduler.queue (sorted_and_swept now s)).
  { rewrite sorted_and_swept_queue. apply list_elem_of_filter. split.
    - unfold is_live. by rewrite Hreq, Hlive.
    - by rewrite sort_Permutation. }
  destruct (inv_queue _ _ _ _ _ _ H2 c Hc2) as (k & Hid & Hin).
  assert (k = InferenceRequest.requestId req) as ->.
  { rewrite ids_descriptors, Hd, <- ids_descriptors in Hid.
    rewrite (ids_request_at s c req Hreq) in Hid. congruence. }
  pose proof (proj2 (inv_pending _ _ _ _ _ _ H2 c _ Hid) Hin) as Hpend.
  apply pendings_promise in Hpend.
  destruct (WorkerPool.select _ _ _) as [[w|] pool']; simpl;
    [| split; [by left | done]].
  destruct (PDScheduler.queue (sorted_and_swept now s)) as [|h rest] eqn:Hq;
    [by apply elem_of_nil in Hc2 |].
  destruct (sched_invariant_valid _ h H2) as [r Hr]; [rewrite Hq; by left |].
  destruct (runPipeline_effect h (WorkerInfo.id w) now
              (PDScheduler.set_queue rest
                 (PDScheduler.set_pool pool' (sorted_and_swept now s))) r Hr)
    as (_ & Hp & Hqu & Hi & _ & Hpipe).
  rewrite Hqu, Hi. simpl. split; [| split; [done |]].
  - apply elem_of_cons in Hc2 as [->|Hc2]; [right | by left].
    eexists. rewrite Hpipe. split; [apply elem_of_app; right; by left | done].
  - apply pendings_promise. rewrite Hp.
    apply (proj2 (inv_pending _ _ _ _ _ _ H2 c _ Hid) Hin).
Qed.

Lemma NoDup_omap_inj {A B} (f : A → option B) (l : list A) :
  NoDup l →
  (∀ x y k, x ∈ l → y ∈ l → f x = Some k → f y = Some k → x = y) →
  NoDup (omap f l).
Proof.
  induction 1 as [|x l Hx Hl IH]; intros Hf; simpl; [constructor |].
  assert (NoDup (omap f l)) as Hnd.
  { apply IH. intros y z k Hy Hz. apply Hf; by right. }
  destruct (f x) as [k|] eqn:Hk; [| done].
  constructor; [| done]. intros Hin.
  apply list_elem_of_omap in Hin as (y & Hy & Hky).
  assert (x = y) as -> by (apply (Hf x y k); [by left | by right | done..]).
  done.
Qed.

Lemma length_omap_Some {A B} (f : A → option B) (l : list A) :
  (∀ x, x ∈ l → is_Some (f x)) → length (omap f l) = length l.
Proof.
  induction l as [|x l IH]; intros Hf; simpl; [done |].
  destruct (Hf x) as [k ->]; [by left |]. simpl. f_equal. apply IH.
  intros y Hy. apply Hf. by right.
Qed.

Lemma sched_reachable_step config s s' :
  PDScheduler.reachable config s → PDScheduler.step s s' →
  PDScheduler.reachable config s'.
Proof. intros [now Hr] Hs. exists now. by eapply rtc_r. Qed.

Lemma sched_reachable_create config now :
  PDScheduler.reachable config (PDScheduler.create config now).
Proof. by exists now. Qed.

(** C1, as amended. In every state the scheduler can reach, the ids of the
    queued requests are pairwise distinct and each of them has an entry in
    the in-flight table: a request is in the in-flight table from [submit]
    until it is terminal (exactly as long as its promise is pending), and
    while it waits it is in the queue as well. *)
Theorem queued_requests_are_in_flight config s :
  PDScheduler.reachable config s →
  NoDup (queue_ids s)
  ∧ length (queue_ids s) = length (PDScheduler.queue s)
  ∧ (∀ k, k ∈ queue_ids s → is_Some (PDScheduler.inflight s !! k))
  ∧ (∀ c cell,
       PDScheduler.store s !! c = Some cell →
       (PDScheduler.promise cell = Pending
        ↔ PDScheduler.inflight s !! cell_id cell = Some c)).
Proof.
  intros Hr. apply sched_invariant_reachable in Hr as Hs.
  destruct Hs. split; [| split; [| split]].
  - apply NoDup_omap_inj; [done |]. intros x y k _ _ Hx Hy.
    by eapply ids_lookup_inj.
  - apply length_omap_Some. intros c Hc.
    destruct (inv_queue0 c Hc) as (k & -> & _). by eexists.
  - intros k Hk. apply list_elem_of_omap in Hk as (c & Hc & Hid).
    destruct (inv_queue0 c Hc) as (k' & Hid' & Hin).
    assert (k' = k) as -> by congruence. by eexists.
  - intros c cell Hcell.
    assert (Hid : ids s !! c = Some (cell_id cell))
      by (unfold ids; by rewrite list_lookup_fmap, Hcell).
    rewrite <- (inv_pending0 c _ Hid). unfold pendings.
    rewrite list_lookup_fmap, Hcell. simpl.
    destruct (PDScheduler.promise cell); split; done.
Qed.

Lemma queued_requests_are_in_flight_witness :
  let config := PDSchedulerConfig.mk true least_loaded 60000 30000 10 5000 []
                  (KvTransferConfig.mk 2 5000) in
  let opts := SubmitOptions.mk "m" (PromptText "hello") None None None in
  let s := (PDScheduler.submit opts 5 (PDScheduler.create config 0)).2 in
  NoDup (queue_ids s) ∧ is_Some (PDScheduler.inflight s !! "req-5-1").
Proof.
  intros config opts s.
  assert (Hr : PDScheduler.reachable config s).
  { eapply sched_reachable_step; [apply sched_reachable_create |].
    apply PDScheduler.step_submit. }
  destruct (queued_requests_are_in_flight config s Hr) as (H1 & _ & H & _).
  split; [exact H1 |]. apply H.
  assert (queue_ids s = ["req-5-1"]) as -> by (vm_compute; reflexivity).
  apply list_elem_of_here.
Defined.

(** C1 as stated fails: after one accepted [submit] the id of the request
    is in the queue and in the in-flight table at once. *)
Lemma submitted_request_in_queue_and_in_flight :
  let config := PDSchedulerConfig.mk true least_loaded 60000 30000 10 5000 []
                  (KvTransferConfig.mk 2 5000) in
  let opts := SubmitOptions.mk "m" (PromptText "hello") None None None in
  let s := (PDScheduler.submit opts 5 (PDScheduler.create config 0)).2 in
  PDScheduler.reachable config s
  ∧ queue_ids s = ["req-5-1"]
  ∧ PDScheduler.inflight s !! "req-5-1" = Some 0%nat.
Proof.
  intros config opts s. split.
  - eapply sched_reachable_step; [apply sched_reachable_create |].
    apply PDScheduler.step_submit.
  - by vm_compute.
Qed.

(** C10. A request submitted with [timeoutMs = 0] is stored with that
    value, and as long as it is queued no dispatch tick, at whatever time,
    expires it: after the tick it is still queued or has been launched, its
    in-flight entry is there and its promise is pending. *)
Theorem zero_timeout_never_expires config s opts t0 :
  PDScheduler.reachable config s →
  SubmitOptions.timeoutMs opts = Some 0%Z →
  (Z.of_nat (length (PDScheduler.queue s))
   < PDSchedulerConfig.maxQueueSize (PDScheduler.config s))%Z →
  let s1 := (PDScheduler.submit opts t0 s).2 in
  ∃ c req,
    (PDScheduler.submit opts t0 s).1 = inr c
    ∧ PDScheduler.request_at (PDScheduler.store s1) c = Some req
    ∧ InferenceRequest.timeoutMs req = Some 0%Z
    ∧ InferenceRequest.createdAt req = t0
    ∧ c ∈ PDScheduler.queue s1
    ∧ ∀ s2 now,
        rtc PDScheduler.step s1 s2 → c ∈ PDScheduler.queue s2 →
        let s' := PDScheduler.dispatch now s2 in
        (c ∈ PDScheduler.queue s' ∨ in_pipeline s' c)
        ∧ PDScheduler.inflight s' !! InferenceRequest.requestId req = Some c
        ∧ PDScheduler.promise <$> PDScheduler.store s' !! c = Some Pending.
Proof.
  intros Hr Ht Hfree s1. apply sched_invariant_reachable in Hr as Hs.
  pose proof (sched_invariant_submit opts t0 s Hs) as Hs1. fold s1 in Hs1.
  destruct (submit_accepted opts t0 s Hfree) as (Hres & Hst & Hq & _).
  fold s1 in Hst, Hq.
  exists (length (PDScheduler.store s)), (submitted_request opts t0 s).
  assert (Hreq : PDScheduler.request_at (PDScheduler.store s1)
                   (length (PDScheduler.store s))
                 = Some (submitted_request opts t0 s)).
  { unfold PDScheduler.request_at.
    by rewrite Hst, lookup_app_r, Nat.sub_diag. }
  split; [done |]. split; [done |].
  split; [simpl; by rewrite Ht |]. split; [done |].
  split; [rewrite Hq; apply elem_of_app; right; by left |].
  intros s2 now Hsteps Hc s'.
  destruct (descriptors_steps _ _ Hsteps Hs1) as [Hs2 Hpre].
  pose proof (request_at_descriptor (PDScheduler.store s1)
                (length (PDScheduler.store s))) as Hd1.
  rewrite Hreq in Hd1. simpl in Hd1. symmetry in Hd1.
  pose proof (prefix_lookup_Some _ _ _ _ Hd1 Hpre) as Hd2.
  rewrite <- request_at_descriptor in Hd2.
  destruct (PDScheduler.request_at (PDScheduler.store s2)
              (length (PDScheduler.store s))) as [req2|] eqn:Hreq2; [| done].
  apply (inj Some) in Hd2. injection Hd2 as Hid _ _ Htm.
  destruct (tick_keeps_zero_timeout s2 _ req2 now Hs2 Hc Hreq2) as (_ & H1 & H2 & H3).
  { rewrite Htm. simpl. by rewrite Ht. }
  subst s'. rewrite Hid in H2. done.
Qed.

Lemma zero_timeout_never_expires_witness :
  let config := PDSchedulerConfig.mk true least_loaded 60000 30000 10 5000 []
                  (KvTransferConfig.mk 2 5000) in
  let opts := SubmitOptions.mk "m" (PromptText "hello") None None (Some 0%Z) in
  let s := PDScheduler.create config 0 in
  let s1 := (PDScheduler.submit opts 5 s).2 in
  ∃ c req,
    PDScheduler.request_at (PDScheduler.store s1) c = Some req
    ∧ InferenceRequest.timeoutMs req = Some 0%Z
    ∧ ∀ now,
        PDScheduler.promise
          <$> PDScheduler.store (PDScheduler.dispatch now s1) !! c
        = Some Pending.
Proof.
  intros config opts s s1.
  assert (Hr : PDScheduler.reachable config s) by apply sched_reachable_create.
  assert (Ht : SubmitOptions.timeoutMs opts = Some 0%Z) by reflexivity.
  assert (Hfree : (Z.of_nat (length (PDScheduler.queue s))
                   < PDSchedulerConfig.maxQueueSize (PDScheduler.config s))%Z)
    by (vm_compute; reflexivity).
  destruct (zero_timeout_never_expires config s opts 5%Z Hr Ht Hfree)
    as (c & req & _ & Hreq & Hz & _ & Hc & H).
  exists c, req. split; [exact Hreq |]. split; [exact Hz |].
  intros now. destruct (H s1 now (rtc_refl _ _) Hc) as (_ & _ & Hp). exact Hp.
Defined.

Lemma dispatch_launches_minimum_witness :
  let p1 := WorkerSeedConfig.mk "p1" "http://p1:8000" prefill "m1" None in
  let config := PDSchedulerConfig.mk true least_loaded 60000 30000 10 5000 [p1]
                  (KvTransferConfig.mk 2 5000) in
  let opts p := SubmitOptions.mk "m" (PromptText "hello") None (Some p) None in
  let s0 := PDScheduler.start (PDScheduler.create config 0) in
  let s1 := (PDScheduler.submit (opts low) 0 s0).2 in
  let s2 := (PDScheduler.submit (opts normal) 1 s1).2 in
  let s := (PDScheduler.submit (opts high) 2 s2).2 in
  let s' := PDScheduler.dispatch 3 s in
  PDScheduler.pipelines s' = PDScheduler.pipelines s
  ∨ ∃ c r,
      in_pipeline s' c
      ∧ PDScheduler.request_at (PDScheduler.store s) c = Some r
      ∧ ∀ c', c' ∈ PDScheduler.queue s →
              is_live (PDScheduler.store s) 3 c' = true →
              ∃ r', PDScheduler.request_at (PDScheduler.store s) c' = Some r'
                    ∧ not_after r r'.
Proof.
  intros p1 config opts s0 s1 s2 s s'.
  assert (Hr : PDScheduler.reachable config s).
  { repeat (eapply sched_reachable_step;
            [| first [ apply PDScheduler.step_submit
                     | apply PDScheduler.step_start ]]).
    apply sched_reachable_create. }
  destruct (dispatch_launches_minimum config s 3%Z Hr) as [[[H _]|H] _].
  - left. exact H.
  - right. destruct H as (c & f & w & r & Hp & Hf & _ & _ & _ & Hreq & _ & _ & Hmin).
    exists c, r. split; [| split; [exact Hreq |]].
    + exists (PDScheduler.AwaitPrefill f). split; [| exact Hf].
      unfold s'. rewrite Hp. apply elem_of_app. right. by left.
    + intros c' Hc' Hlive. apply Hmin. apply list_elem_of_filter. by split.
Defined.

(** The third scenario of the specification: three requests of rising
    priority, one prefill worker, three ticks. *)
Example dispatch_by_priority :
  let p1 := WorkerSeedConfig.mk "p1" "http://p1:8000" prefill "m1" None in
  let config := PDSchedulerConfig.mk true least_loaded 60000 30000 10 5000 [p1]
                  (KvTransferConfig.mk 2 5000) in
  let opts p := SubmitOptions.mk "m" (PromptText "hello") None (Some p) None in
  let s0 := PDScheduler.start (PDScheduler.create config 0) in
  let s1 := (PDScheduler.submit (opts low) 0 s0).2 in
  let s2 := (PDScheduler.submit (opts normal) 1 s1).2 in
  let s3 := (PDScheduler.submit (opts high) 2 s2).2 in
  let t1 := PDScheduler.dispatch 50 s3 in
  let t2 := PDScheduler.dispatch 100 t1 in
  let t3 := PDScheduler.dispatch 150 t2 in
  PDScheduler.queue s3 = [0; 1; 2]
  ∧ PDScheduler.queue t1 = [1; 0]
  ∧ PDScheduler.queue t2 = [0]
  ∧ PDScheduler.queue t3 = []
  ∧ PDScheduler.frame_request ∘ PDScheduler.frame <$> PDScheduler.pipelines t3
    = [2; 1; 0].
Proof. by vm_compute. Qed.

(** The sixth scenario: a request with a timeout of 10 ms and no prefill
    worker is failed by a tick 50 ms later. *)
Example dispatch_queue_timeout :
  let config := PDSchedulerConfig.mk true least_loaded 60000 30000 10 5000 []
                  (KvTransferConfig.mk 2 5000) in
  let opts := SubmitOptions.mk "m" (PromptText "hello") None None (Some 10%Z) in
  let s0 := PDScheduler.start (PDScheduler.create config 0) in
  let s1 := (PDScheduler.submit opts 0 s0).2 in
  let t1 := PDScheduler.dispatch 50 s1 in
  PDScheduler.queue t1 = []
  ∧ PDScheduler.inflight t1 !! "req-0-1" = None
  ∧ PDScheduler.promise <$> PDScheduler.store t1 !! 0%nat
    = Some (Rejected (ErrorObj "Request timed out in queue"))
  ∧ HealthMonitor.eventLog (PDScheduler.health t1)
    = [request_queued "req-0-1" 0;
       request_failed "req-0-1" "Request timed out in queue" 50].
Proof. by vm_compute. Qed.

(** With [timeoutMs = 0] the same request survives the tick. *)
Example dispatch_zero_timeout :
  let config := PDSchedulerConfig.mk true least_loaded 60000 30000 10 5000 []
                  (KvTransferConfig.mk 2 5000) in
  let opts := SubmitOptions.mk "m" (PromptText "hello") None None (Some 0%Z) in
  let s0 := PDScheduler.start (PDScheduler.create config 0) in
  let s1 := (PDScheduler.submit opts 0 s0).2 in
  let t1 := PDScheduler.dispatch 86400000 s1 in
  PDScheduler.queue t1 = [0%nat]
  ∧ PDScheduler.inflight t1 !! "req-0-1" = Some 0%nat
  ∧ PDScheduler.promise <$> PDScheduler.store t1 !! 0%nat = Some Pending.
Proof. by vm_compute. Qed.

(** ** More on the worker pool *)

Lemma reduce1_elem {A} (f : A → A → A) (l : list A) x :
  (∀ a b, f a b = a ∨ f a b = b) →
  WorkerPool.reduce1 f l = Some x → x ∈ l.
Proof.
  intros Hf. destruct l as [|b l]; [done |]. simpl. intros [= <-].
  revert b. induction l as [|c l IH]; intros b; simpl; [by left |].
  destruct (Hf b c) as [-> | ->].
  - specialize (IH b). apply elem_of_cons in IH as [-> | IH]; [by left |].
    by do 2 right.
  - right. apply IH.
Qed.

Lemma available_spec role p w :
  w ∈ WorkerPool.available role p ↔
  w ∈ JsMap.values (WorkerPool.workers p)
  ∧ WorkerInfo.role w = role
  ∧ (WorkerInfo.status w = idle ∨ WorkerInfo.status w = busy)
  ∧ (WorkerInfo.activeRequests w < WorkerInfo.maxConcurrency w)%Z.
Proof.
  unfold WorkerPool.available, WorkerPool.list, WorkerPool.can_accept.
  rewrite !list_elem_of_filter, andb_true_iff, orb_true_iff,
    !bool_decide_eq_true, Z.ltb_lt.
  tauto.
Qed.

(** Whatever the strategy, [select] returns a worker exactly when some
    worker of the role is available, and the worker it returns is one of
    the available ones: of that role, idle or busy, below its capacity.
    The registry itself is not changed. *)
Theorem select_returns_available role strategy p :
  let '(w, p') := WorkerPool.select role strategy p in
  WorkerPool.workers p' = WorkerPool.workers p
  ∧ (w = None ↔ WorkerPool.available role p = [])
  ∧ ∀ x, w = Some x →
         x ∈ WorkerPool.available role p
         ∧ WorkerInfo.role x = role
         ∧ WorkerInfo.status x ≠ offline
         ∧ WorkerInfo.status x ≠ draining
         ∧ (WorkerInfo.activeRequests x < WorkerInfo.maxConcurrency x)%Z.
Proof.
  pose proof (select_workers role strategy p) as Hw.
  destruct (WorkerPool.select role strategy p) as [w p'] eqn:Hsel.
  simpl in Hw. split; [done |].
  assert (Hin : ∀ x, w = Some x → x ∈ WorkerPool.available role p).
  { intros x ->. unfold WorkerPool.select in Hsel.
    case_bool_decide; [done |]. destruct strategy.
    - unfold WorkerPool.selectRoundRobin in Hsel. injection Hsel as Hx _.
      by eapply list_elem_of_lookup_2.
    - injection Hsel as Hx _. eapply reduce1_elem; [| exact Hx].
      intros a b. simpl. case_match; auto.
    - injection Hsel as Hx _. eapply reduce1_elem; [| exact Hx].
      intros a b. simpl. case_match; auto.
    - injection Hsel as Hx _. by eapply list_elem_of_lookup_2. }
  split.
  - split.
    + intros ->. unfold WorkerPool.select in Hsel.
      case_bool_decide as Hlen; [by apply length_zero_iff_nil |].
      exfalso. destruct (WorkerPool.available role p) as [|c cs] eqn:Hc; [done |].
      destruct strategy; simpl in Hsel; try done.
      unfold WorkerPool.selectRoundRobin in Hsel. injection Hsel as Hx _.
      apply lookup_ge_None in Hx. rewrite N2Nat.inj_mod, Nat2N.id in Hx.
      pose proof (Nat.mod_upper_bound
                    (N.to_nat (WorkerPool.counter
                                 (WorkerPool.roundRobinCounters p) role))
                    (length (c :: cs))) as Hlt.
      simpl in *. lia.
    + intros Hnil. unfold WorkerPool.select in Hsel. rewrite Hnil in Hsel.
      simpl in Hsel. by injection Hsel as <- _.
  - intros x Hx. specialize (Hin x Hx). split; [done |].
    apply available_spec in Hin as (_ & Hr & Hs & Ha).
    repeat split; [done | | | done]; intros Hst; rewrite Hst in Hs;
      by destruct Hs.
Qed.

Lemma foldl_least_loaded l : ∀ b,
  first_least_loaded
    (foldl (λ best cur,
              if (WorkerInfo.activeRequests cur
                  <? WorkerInfo.activeRequests best)%Z
              then cur else best) b l)
    (b :: l).
Proof.
  induction l as [|c l IH]; intros b; simpl.
  - exists [], []. by repeat split.
  - destruct (Z.ltb_spec (WorkerInfo.activeRequests c)
                (WorkerInfo.activeRequests b)) as [Hlt|Hge].
    + pose proof (IH c) as Hc. remember (foldl _ c l) as x eqn:Ex. clear Ex.
      destruct Hc as (l1 & l2 & Heq & H1 & H2).
      exists (b :: l1), l2. rewrite Heq. split; [done |]. split; [| done].
      constructor; [| done].
      destruct l1 as [|c' l1]; simpl in Heq.
      * by injection Heq as -> _.
      * injection Heq as <- _. apply Forall_cons in H1 as [H1 _]. lia.
    + pose proof (IH b) as Hb. remember (foldl _ b l) as x eqn:Ex. clear Ex.
      destruct Hb as (l1 & l2 & Heq & H1 & H2).
      destruct l1 as [|b' l1]; simpl in Heq.
      * injection Heq as -> ->. exists [], (c :: l2).
        split; [done |]. split; [done |]. by constructor.
      * injection Heq as <- ->. exists (b :: c :: l1), l2.
        split; [done |]. split; [| done].
        apply Forall_cons in H1 as [Hb H1].
        constructor; [done |]. constructor; [lia | done].
Qed.

(** [select] with the least-loaded strategy returns the first of the
    available workers with the smallest [activeRequests] and leaves the
    pool, its round-robin counters included, as it was. *)
Theorem select_least_loaded role p :
  let '(w, p') := WorkerPool.select role least_loaded p in
  p' = p
  ∧ ∀ x, w = Some x →
         first_least_loaded x (WorkerPool.available role p)
         ∧ ∀ y, y ∈ WorkerPool.available role p →
                (WorkerInfo.activeRequests x ≤ WorkerInfo.activeRequests y)%Z.
Proof.
  unfold WorkerPool.select. case_bool_decide; [done |].
  split; [done |]. intros x Hx.
  destruct (WorkerPool.available role p) as [|b l]; [done |].
  simpl in Hx. injection Hx as <-.
  pose proof (foldl_least_loaded l b) as Hfirst. split; [done |].
  destruct Hfirst as (l1 & l2 & -> & H1 & H2).
  intros y Hy. rewrite Forall_forall in H1, H2.
  apply elem_of_app in Hy as [Hy|Hy]; [specialize (H1 y Hy); lia |].
  apply elem_of_cons in Hy as [->|Hy]; [lia | by apply H2].
Qed.

(** *** Expiry *)

Lemma filter_all {A} (P : A → Prop) `{!∀ x, Decision (P x)} (l : list A) :
  Forall P l → filter P l = l.
Proof.
  induction 1 as [|x l Hx Hl IH]; [done |].
  by rewrite filter_cons_True, IH.
Qed.

Lemma filter_none {A} (P : A → Prop) `{!∀ x, Decision (P x)} (l : list A) :
  Forall (λ x, ¬ P x) l → filter P l = [].
Proof.
  induction 1 as [|x l Hx Hl IH]; [done |].
  by rewrite filter_cons_False.
Qed.

Lemma expireLoop_spec t now ws :
  WorkerPool.expireLoop t now ws
  = (WorkerInfo.id <$> filter (λ w, WorkerPool.is_stale t now w = true)
                              (JsMap.values ws),
     (λ kv : string * WorkerInfo.t,
        (kv.1, if WorkerPool.is_stale t now kv.2
               then WorkerInfo.set_status offline kv.2 else kv.2)) <$> ws).
Proof.
  induction ws as [|[k w] ws IH]; simpl; [done |]. rewrite IH.
  unfold JsMap.values. simpl.
  destruct (WorkerPool.is_stale t now w) eqn:Hs.
  - by rewrite filter_cons_True.
  - rewrite filter_cons_False; [done |]. by rewrite Hs.
Qed.

Lemma is_stale_set_offline t now w :
  WorkerPool.is_stale t now (WorkerInfo.set_status offline w) = false.
Proof. done. Qed.


(** *** Keys of the registry *)

Section JsMap_more.
Context {V : Type}.
Implicit Types (m : list (string * V)) (k : string) (v : V).

Lemma JsMap_get_None m k : JsMap.get k m = None ↔ k ∉ JsMap.keys m.
Proof.
  unfold JsMap.keys. induction m as [|[k0 v0] m IH]; simpl.
  - split; [intros _ H; by apply elem_of_nil in H | done].
  - rewrite not_elem_of_cons. destruct (decide (k0 = k)) as [->|Hne].
    + split; [done | by intros [? _]].
    + rewrite IH. split; [by auto | by intros [_ ?]].
Qed.

Lemma JsMap_set_fresh m k v :
  JsMap.get k m = None → JsMap.set k v m = m ++ [(k, v)].
Proof.
  induction m as [|[k0 v0] m IH]; simpl; [done |].
  destruct (decide (k0 = k)); [done |]. intros H. by rewrite IH.
Qed.

Lemma JsMap_set_present m k v v0 :
  NoDup (JsMap.keys m) → JsMap.get k m = Some v0 →
  JsMap.set k v m
  = (λ kv : string * V, if decide (kv.1 = k) then (k, v) else kv) <$> m.
Proof.
  unfold JsMap.keys. induction m as [|[k0 v1] m IH]; simpl; [done |].
  intros Hnd Hget. apply NoDup_cons in Hnd as [Hk0 Hnd].
  destruct (decide (k0 = k)) as [->|Hne].
  - f_equal. symmetry. rewrite <- (list_fmap_id m) at 2.
    apply list_fmap_ext. intros i [k1 v2] Hi. simpl.
    rewrite decide_False; [done |]. intros ->. apply Hk0.
    apply list_elem_of_fmap. exists (k, v2). split; [done |].
    by eapply list_elem_of_lookup_2.
  - f_equal. by apply IH.
Qed.

Lemma JsMap_keys_set m k v :
  JsMap.keys (JsMap.set k v m)
  = if decide (k ∈ JsMap.keys m) then JsMap.keys m else JsMap.keys m ++ [k].
Proof.
  unfold JsMap.keys. induction m as [|[k0 v0] m IH].
  - case_decide as Hin; [by apply elem_of_nil in Hin | done].
  - cbn [JsMap.set]. destruct (decide (k0 = k)) as [->|Hne].
    + rewrite decide_True by (by left). done.
    + cbn [map fst]. rewrite IH.
      destruct (decide (k ∈ map fst m)) as [Hin|Hin].
      * rewrite decide_True by (by right). done.
      * rewrite decide_False; [done |]. rewrite not_elem_of_cons. by split.
Qed.

Lemma JsMap_delete_spec m k :
  NoDup (JsMap.keys m) →
  (JsMap.delete k m).2 = filter (λ kv : string * V, kv.1 ≠ k) m
  ∧ (JsMap.delete k m).1 = bool_decide (is_Some (JsMap.get k m)).
Proof.
  unfold JsMap.keys. induction m as [|[k0 v0] m IH]; simpl; [done |].
  intros Hnd. apply NoDup_cons in Hnd as [Hk0 Hnd].
  destruct (decide (k0 = k)) as [->|Hne]; simpl.
  - rewrite filter_cons_False by (simpl; by intros H).
    split; [| first [done | symmetry; by apply bool_decide_eq_true_2]].
    symmetry.
    apply filter_all, Forall_forall. intros [k1 v1] Hin. simpl.
    intros ->. apply Hk0. apply list_elem_of_fmap. by exists (k, v1).
  - destruct (IH Hnd) as [H1 H2].
    destruct (JsMap.delete k m) as [b r]. simpl in *.
    rewrite filter_cons_True by done. by rewrite H1.
Qed.

Lemma JsMap_get_filter_ne m k k' :
  k' ≠ k →
  JsMap.get k' (filter (λ kv : string * V, kv.1 ≠ k) m) = JsMap.get k' m.
Proof.
  intros Hne. induction m as [|[k0 v0] m IH]; simpl; [done |].
  destruct (decide (k0 = k)) as [->|Hk0].
  - rewrite filter_cons_False by (simpl; by intros H).
    by rewrite decide_False.
  - rewrite filter_cons_True by done. simpl. by rewrite IH.
Qed.

Lemma JsMap_get_filter_eq m k :
  JsMap.get k (filter (λ kv : string * V, kv.1 ≠ k) m) = None.
Proof.
  apply JsMap_get_None. unfold JsMap.keys. intros Hin.
  apply list_elem_of_fmap in Hin as ([k0 v0] & -> & Hin).
  by apply list_elem_of_filter in Hin as [Hne _].
Qed.
End JsMap_more.

Lemma keys_ok_set k v p :
  pool_keys_ok p → WorkerInfo.id v = k →
  pool_keys_ok (WorkerPool.with_workers (JsMap.set k v (WorkerPool.workers p)) p).
Proof.
  intros [Hnd Hid] Hv. split; simpl.
  - rewrite JsMap_keys_set. case_decide as Hin; [done |].
    apply NoDup_app. split; [done |]. split; [| apply NoDup_singleton].
    intros x Hx Hx'. apply list_elem_of_singleton in Hx' as ->. done.
  - by apply JsMap_Forall_set.
Qed.

Lemma keys_ok_get k p w :
  pool_keys_ok p → WorkerPool.get k p = Some w → WorkerInfo.id w = k.
Proof.
  intros [_ Hid] Hget. apply JsMap_get_Some_elem in Hget.
  rewrite Forall_forall in Hid. apply (Hid _ Hget).
Qed.

Lemma keys_ok_mutate k f p :
  pool_keys_ok p → (∀ w, WorkerInfo.id (f w) = WorkerInfo.id w) →
  pool_keys_ok (WorkerPool.mutate k f p).
Proof.
  intros Hp Hf. unfold WorkerPool.mutate.
  destruct (JsMap.get k (WorkerPool.workers p)) as [w|] eqn:Hget; [| done].
  apply keys_ok_set; [done |]. rewrite Hf. by eapply keys_ok_get.
Qed.

Lemma keys_ok_apply op p : pool_keys_ok p → pool_keys_ok (WorkerPool.apply op p).
Proof.
  intros Hp. destruct op as [seed now|k|r s|k m now|k|k|k|t now]; simpl.
  - by apply keys_ok_set.
  - unfold WorkerPool.remove. destruct Hp as [Hnd Hid].
    destruct (JsMap_delete_spec (WorkerPool.workers p) k Hnd) as [Hd _].
    destruct (JsMap.delete k (WorkerPool.workers p)) as [b r]. simpl in *.
    subst r. split; simpl.
    + eapply sublist_NoDup; [exact Hnd |]. unfold JsMap.keys.
      apply (fmap_sublist fst), sublist_filter.
    + rewrite Forall_forall in Hid |- *. intros x Hx. apply Hid.
      by apply list_elem_of_filter in Hx as [_ Hx].
  - destruct Hp as [Hnd Hid]. split; by rewrite select_workers.
  - apply keys_ok_mutate; [done |]. intros w.
    by destruct m as [[g|] [a|] [st|]].
  - by apply keys_ok_mutate.
  - apply keys_ok_mutate; [done |]. intros w. simpl. by case_match.
  - apply keys_ok_mutate; [done |]. intros w. simpl. by case_match.
  - unfold WorkerPool.expireStaleWorkers. rewrite expireLoop_spec.
    destruct Hp as [Hnd Hid]. split; simpl.
    + unfold JsMap.keys in *.
      replace (map fst) with (fmap (M:=list) (@fst string WorkerInfo.t)) in * by done.
      by rewrite <- list_fmap_compose.
    + apply Forall_fmap. eapply Forall_impl; [exact Hid |].
      intros [k w] Hk. simpl in *. by case_match.
Qed.

Lemma keys_ok_run ops p : pool_keys_ok p → pool_keys_ok (WorkerPool.run ops p).
Proof.
  revert p. induction ops as [|op ops IH]; intros p Hp; [done |].
  by apply IH, keys_ok_apply.
Qed.

Lemma keys_ok_empty : pool_keys_ok WorkerPool.empty.
Proof. split; constructor. Qed.

(** In a registry built by the operations of the pool, [remove] returns
    whether the worker was there, after it the worker is gone ([get] finds
    nothing), every other worker is found as before, and the workers listed
    are those listed before without the removed one, in the same order. *)
Theorem remove_forgets_worker ops workerId :
  let p := WorkerPool.run ops WorkerPool.empty in
  let '(removed, p') := WorkerPool.remove workerId p in
  (removed = true ↔ is_Some (WorkerPool.get workerId p))
  ∧ WorkerPool.get workerId p' = None
  ∧ (∀ k, k ≠ workerId → WorkerPool.get k p' = WorkerPool.get k p)
  ∧ WorkerPool.list None p'
    = filter (λ w, WorkerInfo.id w ≠ workerId) (WorkerPool.list None p)
  ∧ (removed = false → p' = p).
Proof.
  intros p.
  assert (Hp : pool_keys_ok p) by apply keys_ok_run, keys_ok_empty.
  destruct Hp as [Hnd Hid]. unfold WorkerPool.remove, WorkerPool.get.
  destruct (JsMap_delete_spec (WorkerPool.workers p) workerId Hnd) as [Hd Hb].
  destruct (JsMap.delete workerId (WorkerPool.workers p)) as [b r].
  simpl in *. subst r b.
  split; [by rewrite bool_decide_eq_true |].
  split; [apply JsMap_get_filter_eq |].
  split; [intros k Hk; by apply JsMap_get_filter_ne |]. split.
  - unfold WorkerPool.list, JsMap.values.
    induction Hid as [|[k w] ws Hk Hws IH]; [done |]. simpl in Hk.
    apply NoDup_cons in Hnd as [_ Hnd]. specialize (IH Hnd).
    destruct (decide (k = workerId)) as [->|Hne].
    + rewrite filter_cons_False by (simpl; by intros H). simpl.
      rewrite filter_cons_False by (rewrite Hk; by intros H). done.
    + rewrite filter_cons_True by done. simpl.
      rewrite filter_cons_True by (by rewrite Hk). by rewrite IH.
  - rewrite bool_decide_eq_false. intros Hnone.
    destruct p as [ws rr]. unfold WorkerPool.with_workers. simpl in *. f_equal.
    apply filter_all, Forall_forall. intros [k w] Hin. simpl. intros ->.
    apply Hnone. destruct (JsMap.get workerId ws) eqn:Hget; [done |].
    apply JsMap_get_None in Hget. exfalso. apply Hget.
    unfold JsMap.keys. apply list_elem_of_fmap. by exists (workerId, w).
Qed.

Lemma fmap_id_on {A} (f : A → A) (l : list A) :
  Forall (λ x, f x = x) l → f <$> l = l.
Proof. induction 1 as [|x l Hx _ IH]; [done |]. csimpl. by rewrite Hx, IH. Qed.

Lemma values_other_ids (ws : list (string * WorkerInfo.t)) k :
  Forall (λ kv, WorkerInfo.id kv.2 = kv.1) ws → k ∉ JsMap.keys ws →
  Forall (λ w, WorkerInfo.id w ≠ k) (JsMap.values ws).
Proof.
  induction 1 as [|[k0 w0] ws Hk _ IH]; simpl; [constructor |].
  intros Hnot. apply not_elem_of_cons in Hnot as [Hne Hnot]. simpl in *.
  constructor; [by rewrite Hk | by apply IH].
Qed.

Lemma mutate_values k f (ws : list (string * WorkerInfo.t)) :
  NoDup (JsMap.keys ws) → Forall (λ kv, WorkerInfo.id kv.2 = kv.1) ws →
  JsMap.values
    (match JsMap.get k ws with Some w => JsMap.set k (f w) ws | None => ws end)
  = (λ w, if decide (WorkerInfo.id w = k) then f w else w) <$> JsMap.values ws.
Proof.
  intros Hnd Hid. induction Hid as [|[k0 w0] ws Hk Hid IH]; [done |].
  simpl in Hk. apply NoDup_cons in Hnd as [Hk0 Hnd]. specialize (IH Hnd).
  cbn [JsMap.get JsMap.set]. destruct (decide (k0 = k)) as [->|Hne].
  - cbn [JsMap.values map snd fmap list_fmap].
    rewrite decide_True by done. f_equal. symmetry. apply fmap_id_on.
    eapply Forall_impl; [by apply values_other_ids |].
    intros w Hw. simpl in Hw. by rewrite decide_False.
  - destruct (JsMap.get k ws) as [w|] eqn:Hget.
    + cbn [JsMap.values map snd fmap list_fmap].
      rewrite decide_False by (by rewrite Hk). f_equal. exact IH.
    + cbn [JsMap.values map snd fmap list_fmap].
      rewrite decide_False by (by rewrite Hk). f_equal. exact IH.
Qed.

Lemma list_mutate k f p :
  pool_keys_ok p →
  WorkerPool.list None (WorkerPool.mutate k f p)
  = (λ w, if decide (WorkerInfo.id w = k) then f w else w)
      <$> WorkerPool.list None p.
Proof.
  intros [Hnd Hid]. unfold WorkerPool.list, WorkerPool.mutate.
  rewrite <- (mutate_values k f _ Hnd Hid).
  by destruct (JsMap.get k (WorkerPool.workers p)).
Qed.

(** In a registry built by the operations of the pool, [register] returns
    the record it stores; a worker whose id is new is listed last, idle, with
    no load, and with a capacity of 32 unless the seed gives one; a worker
    whose id is known keeps its place in the listing, its status and its
    load; every other worker is found and listed as before. *)
Theorem register_listing ops seed now :
  let p := WorkerPool.run ops WorkerPool.empty in
  let '(info, p') := WorkerPool.register seed now p in
  let k := WorkerSeedConfig.id seed in
  WorkerPool.get k p' = Some info
  ∧ (∀ k', k' ≠ k → WorkerPool.get k' p' = WorkerPool.get k' p)
  ∧ match WorkerPool.get k p with
    | None =>
        WorkerPool.list None p' = WorkerPool.list None p ++ [info]
        ∧ info = WorkerInfo.mk k (WorkerSeedConfig.endpoint seed)
                   (WorkerSeedConfig.role seed) idle 0%Q 0%Z
                   (default 32%Z (WorkerSeedConfig.maxConcurrency seed)) now
                   (WorkerSeedConfig.modelId seed)
    | Some w =>
        WorkerPool.list None p'
        = (λ x, if decide (WorkerInfo.id x = k) then info else x)
            <$> WorkerPool.list None p
        ∧ WorkerInfo.status info = WorkerInfo.status w
        ∧ WorkerInfo.activeRequests info = WorkerInfo.activeRequests w
        ∧ WorkerInfo.gpuUtilization info = WorkerInfo.gpuUtilization w
    end.
Proof.
  intros p.
  assert (Hp : pool_keys_ok p) by apply keys_ok_run, keys_ok_empty.
  destruct Hp as [Hnd Hid].
  unfold WorkerPool.register, WorkerPool.get, WorkerPool.with_workers.
  cbv zeta. cbn [WorkerPool.workers].
  split; [apply JsMap_get_set_eq |].
  split; [intros k' Hk'; by apply JsMap_get_set_ne |].
  destruct (JsMap.get (WorkerSeedConfig.id seed) (WorkerPool.workers p))
    as [w|] eqn:Hget; cbn [fmap option_fmap option_map default].
  - split; [| done]. unfold WorkerPool.list.
    pose proof (mutate_values (WorkerSeedConfig.id seed)
                  (λ _, WorkerInfo.mk (WorkerSeedConfig.id seed)
                          (WorkerSeedConfig.endpoint seed)
                          (WorkerSeedConfig.role seed) (WorkerInfo.status w)
                          (WorkerInfo.gpuUtilization w)
                          (WorkerInfo.activeRequests w)
                          (default 32%Z (WorkerSeedConfig.maxConcurrency seed))
                          now (WorkerSeedConfig.modelId seed))
                  _ Hnd Hid) as Hv.
    rewrite Hget in Hv. exact Hv.
  - split; [| done]. unfold WorkerPool.list, JsMap.values.
    rewrite JsMap_set_fresh by done. cbn [WorkerPool.workers].
    by rewrite List.map_app.
Qed.

(** In a registry built by the operations of the pool, a status update
    ([updateMetrics], [markOffline], [incrementActive], [decrementActive])
    changes no worker but the one named, and keeps the number and the order
    of the workers; after [markOffline] the workers available for a role are
    those available before without the one marked. *)
Theorem markOffline_excludes_worker ops workerId role :
  let p := WorkerPool.run ops WorkerPool.empty in
  WorkerPool.available role (WorkerPool.markOffline workerId p)
  = filter (λ w, WorkerInfo.id w ≠ workerId) (WorkerPool.available role p)
  ∧ ∀ op, op ∈ [WorkerPool.OpMarkOffline workerId;
                 WorkerPool.OpIncrementActive workerId;
                 WorkerPool.OpDecrementActive workerId] ∨
          (∃ m now, op = WorkerPool.OpUpdateMetrics workerId m now) →
      (∀ k, k ≠ workerId →
         WorkerPool.get k (WorkerPool.apply op p) = WorkerPool.get k p)
      ∧ WorkerInfo.id <$> WorkerPool.list None (WorkerPool.apply op p)
        = WorkerInfo.id <$> WorkerPool.list None p.
Proof.
  intros p.
  assert (Hp : pool_keys_ok p) by apply keys_ok_run, keys_ok_empty.
  split.
  - unfold WorkerPool.available, WorkerPool.markOffline.
    change (WorkerPool.list (Some role) ?q)
      with (filter (λ w, WorkerInfo.role w = role) (WorkerPool.list None q)).
    rewrite (list_mutate _ _ _ Hp).
    induction (WorkerPool.list None p) as [|w l IH]; [done |].
    cbn [fmap list_fmap].
    rewrite (filter_cons (λ w, WorkerInfo.role w = role) w l).
    rewrite (filter_cons (λ w, WorkerInfo.role w = role)).
    destruct (decide (WorkerInfo.id w = workerId)) as [Hw|Hw].
    + cbn [WorkerInfo.set_status WorkerInfo.role].
      destruct (decide (WorkerInfo.role w = role)) as [Hr|Hr]; [| exact IH].
      rewrite !(filter_cons (λ w, WorkerPool.can_accept w = true)), IH.
      rewrite (decide_False (P := WorkerPool.can_accept _ = true))
        by (unfold WorkerPool.can_accept; simpl; done).
      destruct (decide (WorkerPool.can_accept w = true)); [| done].
      rewrite filter_cons. by rewrite decide_False by (by intros H).
    + destruct (decide (WorkerInfo.role w = role)) as [Hr|Hr]; [| exact IH].
      rewrite !(filter_cons (λ w, WorkerPool.can_accept w = true)), IH.
      destruct (decide (WorkerPool.can_accept w = true)); [| done].
      rewrite filter_cons. by rewrite decide_True by done.
  - assert (Hmut : ∀ f, (∀ w, WorkerInfo.id (f w) = WorkerInfo.id w) →
              (∀ k, k ≠ workerId →
                 WorkerPool.get k (WorkerPool.mutate workerId f p)
                 = WorkerPool.get k p)
              ∧ WorkerInfo.id <$> WorkerPool.list None
                                    (WorkerPool.mutate workerId f p)
                = WorkerInfo.id <$> WorkerPool.list None p).
    { intros f Hf. split.
      - intros k Hk. unfold WorkerPool.mutate, WorkerPool.get.
        destruct (JsMap.get workerId (WorkerPool.workers p)); [| done].
        by apply JsMap_get_set_ne.
      - rewrite (list_mutate _ _ _ Hp), <- list_fmap_compose.
        apply list_fmap_ext. intros i w _. simpl. by case_decide. }
    intros op [Hop|(m & now & ->)].
    + rewrite !elem_of_cons, elem_of_nil in Hop.
      destruct Hop as [->|[->|[->|[]]]]; simpl; apply Hmut; intros w;
        simpl; by repeat case_match.
    + simpl. apply Hmut. intros w. by destruct m as [[g|] [a|] [st|]].
Qed.

Lemma JsMap_set_back {V} (m : list (string * V)) k v v' :
  JsMap.get k m = Some v → JsMap.set k v (JsMap.set k v' m) = m.
Proof.
  induction m as [|[k0 v0] m IH]; simpl; [done |].
  destruct (decide (k0 = k)) as [->|Hne]; simpl.
  - intros [= ->]. by rewrite decide_True.
  - intros Hget. rewrite decide_False by done. by rewrite IH.
Qed.

(** [incrementActive] followed by [decrementActive] on an idle worker with
    room left brings the pool back to what it was, also when the increment
    filled the worker and marked it busy. *)
Theorem increment_then_decrement workerId p w :
  WorkerPool.get workerId p = Some w →
  WorkerInfo.status w = idle →
  (0 ≤ WorkerInfo.activeRequests w < WorkerInfo.maxConcurrency w)%Z →
  WorkerPool.decrementActive workerId (WorkerPool.incrementActive workerId p)
  = p.
Proof.
  intros Hget Hst [H0 Hlt].
  unfold WorkerPool.decrementActive at 1.
  unfold WorkerPool.mutate at 1. fold (WorkerPool.get workerId
    (WorkerPool.incrementActive workerId p)).
  unfold WorkerPool.incrementActive. rewrite (get_mutate_eq _ _ _ _ Hget).
  unfold WorkerPool.mutate, WorkerPool.get in *. rewrite Hget.
  destruct p as [ws rr]. unfold WorkerPool.with_workers. simpl in *. f_equal.
  match goal with |- JsMap.set _ ?x _ = _ => replace x with w end.
  { by apply JsMap_set_back. }
  destruct w as [i e r st g a mx h md]. simpl in *. subst st.
  destruct (mx <=? a + 1)%Z eqn:Hfull; simpl.
  - replace (Z.max 0 (a + 1 - 1)) with a by lia.
    assert ((a <? mx)%Z = true) as -> by lia. done.
  - replace (Z.max 0 (a + 1 - 1)) with a by lia. done.
Qed.

Lemma increment_then_decrement_witness :
  let seed := WorkerSeedConfig.mk "p1" "http://p1:8000" prefill "m1" (Some 1%Z) in
  let p := (WorkerPool.register seed 0 WorkerPool.empty).2 in
  WorkerPool.get "p1" (WorkerPool.incrementActive "p1" p)
  = Some (WorkerInfo.mk "p1" "http://p1:8000" prefill busy 0%Q 1 1 0 "m1")
  ∧ WorkerPool.decrementActive "p1" (WorkerPool.incrementActive "p1" p) = p.
Proof.
  split; [reflexivity |].
  eapply (increment_then_decrement "p1"); [reflexivity | reflexivity |].
  simpl. lia.
Defined.

(** ** The transfer manager: waiting and running callers *)

Section KV_more.
Import KVCacheTransferManager.

Lemma pending_exactly_perm {A} L L' (ps : list (Settlement A)) :
  L ≡ₚ L' → pending_exactly L ps → pending_exactly L' ps.
Proof.
  intros HL [Hnd Hiff]. split; [by rewrite <- HL |].
  intros p. by rewrite <- HL.
Qed.

Lemma pending_exactly_alloc {A} L (ps : list (Settlement A)) :
  pending_exactly L ps →
  pending_exactly (L ++ [length ps]) (ps ++ [Pending]).
Proof.
  intros [Hnd Hiff]. split.
  - apply NoDup_app. split; [done |]. split; [| apply NoDup_singleton].
    intros x Hx Hx'. apply list_elem_of_singleton in Hx' as ->.
    apply Hiff, lookup_lt_Some in Hx. lia.
  - intros p. rewrite elem_of_app, list_elem_of_singleton.
    destruct (decide (p < length ps)) as [Hlt|Hge].
    + rewrite lookup_app_l by done. rewrite Hiff. split; [| tauto].
      intros [H | ->]; [done | lia].
    + rewrite lookup_app_r by lia. split.
      * intros [H| ->].
        -- apply Hiff, lookup_lt_Some in H. lia.
        -- by rewrite Nat.sub_diag.
      * intros H. right.
        destruct (p - length ps) as [|n] eqn:Hn; [lia | done].
Qed.

Lemma pending_exactly_settle {A} x L (ps : list (Settlement A)) v :
  v ≠ Pending → pending_exactly (x :: L) ps → pending_exactly L (<[x := v]> ps).
Proof.
  intros Hv [Hnd Hiff]. apply NoDup_cons in Hnd as [Hx Hnd].
  split; [done |]. intros p. split.
  - intros Hp. rewrite list_lookup_insert_ne by (intros ->; done).
    apply Hiff. by right.
  - intros Hp. destruct (decide (x = p)) as [->|Hne].
    + assert (p < length ps) as Hlt.
      { eapply lookup_lt_Some, Hiff. by left. }
      rewrite list_lookup_insert_eq in Hp by done. congruence.
    + rewrite list_lookup_insert_ne in Hp by done.
      apply Hiff in Hp. apply elem_of_cons in Hp as [->|Hp]; done.
Qed.

Lemma owes_executeTransfer X req now s :
  owes X s → owes X (executeTransfer req None now s).2.
Proof.
  unfold owes. intros H. simpl.
  eapply pending_exactly_perm; [| by apply pending_exactly_alloc].
  unfold owed; simpl. rewrite fmap_app, omap_app; simpl.
  rewrite app_nil_r. solve_Permutation.
Qed.

Lemma owes_executeTransfer_next X next rest now s :
  pending s = next :: rest →
  owes X s →
  owes X (executeTransfer (waiting_req next) (Some (waiting_promise next)) now
                          (shift s)).2.
Proof.
  unfold owes. intros Hp H. simpl.
  eapply pending_exactly_perm; [| by apply pending_exactly_alloc].
  unfold owed; simpl. rewrite Hp, fmap_app, omap_app; simpl.
  solve_Permutation.
Qed.

Lemma owes_drain X entries now s :
  entries = pending s → owes X s → owes X (drain entries now s).
Proof.
  revert s. induction entries as [|next rest IH]; intros s Hp Hs; [done |].
  simpl. case_match; [| done]. apply IH; [by rewrite <- Hp |].
  by eapply owes_executeTransfer_next.
Qed.

Lemma owes_settle x X v s : v ≠ Pending → owes (x :: X) s → owes X (settle x v s).
Proof. intros Hv H. by apply pending_exactly_settle. Qed.

Lemma settlement_transferResult_settled req start now outcome :
  settlement (transferResult req start now outcome) ≠ Pending.
Proof. by destruct outcome. Qed.

Lemma owes_step s s' : step s s' → owes [] s → owes [] s'.
Proof.
  destruct 1 as [req now s|i net now s Hi]; intros Hs.
  - unfold transfer. case_match; [by apply owes_executeTransfer |].
    unfold owes in *. simpl.
    eapply pending_exactly_perm; [| by apply pending_exactly_alloc].
    unfold owed; simpl. rewrite fmap_app; simpl. solve_Permutation.
  - unfold executeTransfer_resumed. destruct Hi as [j Hj]. rewrite Hj.
    assert (owes (job_promise j :: option_list (job_forward j))
              (drainPending now
                 (mk (maxConcurrent s) (timeoutMs s) (activeTransfers s - 1)
                     (pending s) (delete i (suspended s)) (promises s)
                     (enqueued s) (started s)))) as Hd.
    { apply owes_drain; [done |]. unfold owes in *. simpl.
      eapply pending_exactly_perm; [| exact Hs].
      unfold owed; simpl. rewrite (delete_Permutation _ _ _ Hj) at 1 2.
      simpl. destruct (job_forward j); simpl; solve_Permutation. }
    destruct (job_forward j); simpl in *;
      repeat apply owes_settle;
      try done; apply settlement_transferResult_settled.
Qed.

Lemma owes_reachable config s : reachable config s → owes [] s.
Proof.
  intros Hr. unfold reachable in Hr.
  apply rtc_nsteps in Hr as [n Hr].
  revert s Hr. induction n as [|n IH]; intros s Hr.
  - inversion Hr; subst. split; [constructor |]. intros p. simpl.
    by rewrite elem_of_nil.
  - apply nsteps_inv_r in Hr as (s0 & Hr & Hstep).
    eapply owes_step; eauto.
Qed.

Lemma work_conserving_drain entries now s :
  entries = pending s → work_conserving (drain entries now s).
Proof.
  revert s. induction entries as [|next rest IH]; intros s Hp; simpl.
  - intros H. by rewrite <- Hp in H.
  - case_match eqn:Hlt; [apply IH; simpl; by rewrite <- Hp |].
    intros _. apply Z.ltb_ge in Hlt. done.
Qed.

Lemma work_conserving_step s s' :
  step s s' → work_conserving s → work_conserving s'.
Proof.
  destruct 1 as [req now s|i net now s Hi]; intros Hs.
  - unfold transfer. case_match eqn:Hlt.
    + apply Z.ltb_lt in Hlt. intros Hp. simpl in *. apply Hs in Hp. lia.
    + apply Z.ltb_ge in Hlt. intros _. done.
  - unfold executeTransfer_resumed. destruct Hi as [j Hj]. rewrite Hj.
    pose proof (work_conserving_drain (pending s) now
                  (mk (maxConcurrent s) (timeoutMs s) (activeTransfers s - 1)
                      (pending s) (delete i (suspended s)) (promises s)
                      (enqueued s) (started s)) eq_refl) as Hd.
    by destruct (job_forward j).
Qed.

Lemma work_conserving_reachable config s :
  reachable config s → work_conserving s.
Proof.
  intros Hr. unfold reachable in Hr.
  apply rtc_nsteps in Hr as [n Hr].
  revert s Hr. induction n as [|n IH]; intros s Hr.
  - inversion Hr; subst. by intros H.
  - apply nsteps_inv_r in Hr as (s0 & Hr & Hstep).
    eapply work_conserving_step; eauto.
Qed.
End KV_more.

(** In every state the manager can reach, a promise handed out by
    [transfer] is pending exactly while its transfer is running or its
    caller is waiting, and each such promise is held once: no caller is
    forgotten and no promise is answered twice. *)
Theorem transfer_promise_pending_while_owed config s :
  KVCacheTransferManager.reachable config s →
  NoDup (owed s)
  ∧ ∀ p, KVCacheTransferManager.promises s !! p = Some Pending ↔ p ∈ owed s.
Proof.
  intros Hr. destruct (owes_reachable _ _ Hr) as [Hnd Hiff].
  split; [done |]. intros p. symmetry. apply Hiff.
Qed.

Lemma transfer_promise_pending_while_owed_witness :
  let config := KvTransferConfig.mk 1 15000 in
  let job n := KVCacheTransferRequest.mk n "http://p1:8000" "http://d1:8000" "h" 0 in
  let answer := Response.mk true 200 (inr "") (inr (ObjectBody (Some "t"))) in
  let net := Network.mk (inr answer) (λ _, inr answer) in
  let s0 := KVCacheTransferManager.create config in
  let s1 := (KVCacheTransferManager.transfer (job "a") 0 s0).2 in
  let s2 := (KVCacheTransferManager.transfer (job "b") 1 s1).2 in
  let s3 := KVCacheTransferManager.executeTransfer_resumed 0 net 50 s2 in
  NoDup (owed s3) ∧ owed s3 = [2; 1]
  ∧ KVCacheTransferManager.promises s3
    = [Resolved (KVCacheTransferResult.mk "a" true 50 (Some "t") None);
       Pending; Pending].
Proof.
  intros config job answer net s0 s1 s2 s3.
  assert (Hr : KVCacheTransferManager.reachable config s3).
  { repeat (eapply reachable_step;
            [| first [ apply KVCacheTransferManager.step_resumed; by eexists
                     | apply KVCacheTransferManager.step_transfer ]]).
    apply rtc_refl. }
  destruct (transfer_promise_pending_while_owed config s3 Hr) as [Hnd _].
  split; [exact Hnd |]. by vm_compute.
Defined.

(** In every state the manager can reach, a caller waits only while the
    counter of running transfers is at or above the limit; with a limit
    that is not negative, only while exactly [maxConcurrent] transfers are
    running. *)
Theorem transfer_waits_only_when_full config s :
  KVCacheTransferManager.reachable config s →
  0%nat < KVCacheTransferManager.pendingCount s →
  (KvTransferConfig.maxConcurrent config ≤ KVCacheTransferManager.active s)%Z
  ∧ ((0 ≤ KvTransferConfig.maxConcurrent config)%Z →
     KVCacheTransferManager.active s = KvTransferConfig.maxConcurrent config).
Proof.
  intros Hr Hp.
  destruct (kv_invariant_reachable _ _ Hr) as [(H1 & H2 & H3) Hm].
  pose proof (work_conserving_reachable _ _ Hr) as Hw.
  unfold KVCacheTransferManager.active, KVCacheTransferManager.pendingCount in *.
  rewrite Hm in *.
  assert (KVCacheTransferManager.pending s ≠ []) as Hne.
  { intros Hnil. rewrite Hnil in Hp. simpl in Hp. lia. }
  specialize (Hw Hne). rewrite Hm in Hw. split; [done |].
  intros H0. specialize (H2 H0). lia.
Qed.

Lemma transfer_waits_only_when_full_witness :
  let config := KvTransferConfig.mk 1 15000 in
  let job n := KVCacheTransferRequest.mk n "http://p1:8000" "http://d1:8000" "h" 0 in
  let s0 := KVCacheTransferManager.create config in
  let s1 := (KVCacheTransferManager.transfer (job "a") 0 s0).2 in
  let s2 := (KVCacheTransferManager.transfer (job "b") 1 s1).2 in
  KVCacheTransferManager.pendingCount s2 = 1%nat
  ∧ (1 ≤ KVCacheTransferManager.active s2)%Z.
Proof.
  intros config job s0 s1 s2. split; [reflexivity |].
  assert (Hr : KVCacheTransferManager.reachable config s2).
  { repeat (eapply reachable_step;
            [| apply KVCacheTransferManager.step_transfer ]).
    apply rtc_refl. }
  assert (Hp : 0%nat < KVCacheTransferManager.pendingCount s2)
    by (vm_compute; lia).
  exact (proj1 (transfer_waits_only_when_full config s2 Hr Hp)).
Defined.

(** With a limit [maxConcurrent] of 0 or less the manager never starts a
    transfer: every caller is put on the pending list and every promise
    handed out stays pending. *)
Theorem transfer_never_starts_without_slots config s :
  (KvTransferConfig.maxConcurrent config ≤ 0)%Z →
  KVCacheTransferManager.reachable config s →
  KVCacheTransferManager.suspended s = []
  ∧ KVCacheTransferManager.active s = 0%Z
  ∧ KVCacheTransferManager.started s = []
  ∧ KVCacheTransferManager.pendingCount s
    = length (KVCacheTransferManager.promises s)
  ∧ Forall (λ v, v = Pending) (KVCacheTransferManager.promises s).
Proof.
  intros Hmax Hr. unfold KVCacheTransferManager.reachable in Hr.
  apply rtc_nsteps in Hr as [n Hr].
  assert (KVCacheTransferManager.maxConcurrent s
          = KvTransferConfig.maxConcurrent config ∧
          KVCacheTransferManager.suspended s = []
          ∧ KVCacheTransferManager.active s = 0%Z
          ∧ KVCacheTransferManager.started s = []
          ∧ KVCacheTransferManager.pendingCount s
            = length (KVCacheTransferManager.promises s)
          ∧ Forall (λ v, v = Pending) (KVCacheTransferManager.promises s))
    as [_ H]; [| exact H].
  revert s Hr. induction n as [|n IH]; intros s Hr.
  - inversion Hr; subst. by repeat split.
  - apply nsteps_inv_r in Hr as (s0 & Hr & Hstep).
    destruct (IH _ Hr) as (Hm & Hs & Ha & Hst & Hlen & Hall).
    unfold KVCacheTransferManager.active,
      KVCacheTransferManager.pendingCount in *.
    destruct Hstep as [req now s0|i net now s0 [j Hj]].
    + unfold KVCacheTransferManager.transfer.
      case_match eqn:Hlt; [apply Z.ltb_lt in Hlt; lia |]. simpl.
      rewrite !length_app, Hlen. simpl.
      repeat split; try done. apply Forall_app. split; [done |].
      by repeat constructor.
    + by rewrite Hs in Hj.
Qed.

Lemma transfer_never_starts_without_slots_witness :
  let config := KvTransferConfig.mk 0 15000 in
  let job n := KVCacheTransferRequest.mk n "http://p1:8000" "http://d1:8000" "h" 0 in
  let s0 := KVCacheTransferManager.create config in
  let s1 := (KVCacheTransferManager.transfer (job "a") 0 s0).2 in
  KVCacheTransferManager.active s1 = 0%Z
  ∧ KVCacheTransferManager.promises s1 = [Pending].
Proof.
  intros config job s0 s1. split; [| reflexivity].
  assert (Hr : KVCacheTransferManager.reachable config s1).
  { eapply reachable_step; [apply rtc_refl |].
    apply KVCacheTransferManager.step_transfer. }
  assert (Hmax : (KvTransferConfig.maxConcurrent config ≤ 0)%Z) by done.
  exact (proj1 (proj2 (transfer_never_starts_without_slots config s1 Hmax Hr))).
Defined.

(** When the export call fails, by a rejected [fetch] or by a status that
    is not a success, the import call is not made: the outcome does not
    depend on how the import call would be answered. The result has
    [success = false] and reports the message of the rejection, or the
    status and the body text of the export response. *)
Theorem transfer_export_failure net req start now message :
  export_error net = Some message →
  ∀ answer,
    KVCacheTransferManager.transferResult req start now
      (KVCacheTransferManager.doTransfer
         (Network.mk (Network.export net) answer) req)
    = inr (KVCacheTransferResult.mk (KVCacheTransferRequest.requestId req)
             false (now - start) None (Some message)).
Proof.
  unfold export_error, KVCacheTransferManager.doTransfer. simpl.
  destruct (Network.export net) as [e|exportRes]; simpl.
  - by intros [= <-] answer.
  - destruct (Response.ok exportRes); [done |]. simpl.
    intros [= <-] answer. by destruct (Response.text exportRes).
Qed.

Lemma transfer_export_failure_witness :
  let req := KVCacheTransferRequest.mk "r" "http://p1:8000" "http://d1:8000" "h" 0 in
  let refused := Response.mk false 503 (inr "busy") (throw (ErrorObj "no body")) in
  let accepted := Response.mk true 200 (inr "") (inr (ObjectBody (Some "h2"))) in
  let net := Network.mk (inr refused) (λ _, inr accepted) in
  KVCacheTransferManager.transferResult req 10 35
    (KVCacheTransferManager.doTransfer net req)
  = inr (KVCacheTransferResult.mk "r" false 25 None
           (Some "KV cache export failed (503): busy")).
Proof.
  intros req refused accepted net.
  assert (He : export_error net = Some "KV cache export failed (503): busy")
    by reflexivity.
  exact (transfer_export_failure net req 10 35 _ He (λ _, inr accepted)).
Defined.

(** ** The health monitor: windows and the event log *)

Section capped.
Context {A : Type}.
Implicit Types (l : list A) (cap : nat).

Lemma last_n_all cap l : length l ≤ cap → last_n cap l = l.
Proof. intros H. unfold last_n. by replace (length l - cap) with 0 by lia. Qed.

Lemma length_last_n cap l : length (last_n cap l) = length l `min` cap.
Proof. unfold last_n. rewrite length_drop. lia. Qed.

Lemma last_n_app cap (a b : list A) : last_n cap (last_n cap a ++ b) = last_n cap (a ++ b).
Proof.
  unfold last_n at 1 3. rewrite !length_app, length_last_n. unfold last_n.
  rewrite <- (drop_app_le a b) by lia. rewrite drop_drop. f_equal. lia.
Qed.

Lemma capped_push cap l v :
  length l ≤ cap →
  (if decide (cap < length (l ++ [v])) then tail (l ++ [v]) else l ++ [v])
  = last_n cap (l ++ [v]).
Proof.
  intros Hlen. unfold last_n. rewrite length_app. simpl. case_decide as Hc.
  - simpl in Hc.
    replace (length l + 1 - cap) with 1 by lia. by destruct (l ++ [v]).
  - simpl in Hc.
    by replace (length l + 1 - cap) with 0 by lia.
Qed.
End capped.

Lemma LatencyWindow_push_many vs : ∀ samples,
  length samples ≤ LatencyWindow.WINDOW_SIZE →
  foldl (λ w v, LatencyWindow.push v w) samples vs
  = last_n LatencyWindow.WINDOW_SIZE (samples ++ vs).
Proof.
  induction vs as [|v vs IH]; intros samples Hlen; simpl.
  - rewrite app_nil_r. by rewrite last_n_all.
  - unfold LatencyWindow.push at 2. rewrite capped_push by done.
    rewrite IH by (rewrite length_last_n; lia).
    rewrite last_n_app. by rewrite <- app_assoc.
Qed.

Lemma eventLog_emit_many evs : ∀ h,
  length (HealthMonitor.eventLog h) ≤ 1000 →
  HealthMonitor.eventLog (foldl (λ h e, HealthMonitor.emit e h) h evs)
  = last_n 1000 (HealthMonitor.eventLog h ++ evs).
Proof.
  induction evs as [|e evs IH]; intros h Hlen; simpl.
  - rewrite app_nil_r. by rewrite last_n_all.
  - assert (HealthMonitor.eventLog (HealthMonitor.emit e h)
            = last_n 1000 (HealthMonitor.eventLog h ++ [e])) as He.
    { unfold HealthMonitor.emit. simpl. by rewrite capped_push. }
    rewrite IH by (rewrite He, length_last_n; lia).
    rewrite He, last_n_app. by rewrite <- app_assoc.
Qed.

(** A monitor to which completed requests are reported keeps, in each of
    its three latency windows, the last 200 samples in the order reported,
    and counts every report. *)
Theorem latency_windows_keep_last_200 (samples : list (Z * Z * Z)) :
  let h := foldl (λ h x, HealthMonitor.recordCompletion x.1.1 x.1.2 x.2 h)
                 HealthMonitor.create samples in
  HealthMonitor.latency_total h = last_n 200 ((λ x, x.1.1) <$> samples)
  ∧ HealthMonitor.latency_prefill h = last_n 200 ((λ x, x.1.2) <$> samples)
  ∧ HealthMonitor.latency_decode h = last_n 200 ((λ x, x.2) <$> samples)
  ∧ HealthMonitor.completed h = Z.of_nat (length samples)
  ∧ HealthMonitor.failed h = 0%Z
  ∧ HealthMonitor.eventLog h = [].
Proof.
  intros h. subst h.
  assert (∀ h0,
    let h := foldl (λ h x, HealthMonitor.recordCompletion x.1.1 x.1.2 x.2 h)
                   h0 samples in
    HealthMonitor.latency_total h
    = foldl (λ w v, LatencyWindow.push v w) (HealthMonitor.latency_total h0)
            ((λ x, x.1.1) <$> samples)
    ∧ HealthMonitor.latency_prefill h
      = foldl (λ w v, LatencyWindow.push v w) (HealthMonitor.latency_prefill h0)
              ((λ x, x.1.2) <$> samples)
    ∧ HealthMonitor.latency_decode h
      = foldl (λ w v, LatencyWindow.push v w) (HealthMonitor.latency_decode h0)
              ((λ x, x.2) <$> samples)
    ∧ HealthMonitor.completed h
      = (HealthMonitor.completed h0 + Z.of_nat (length samples))%Z
    ∧ HealthMonitor.failed h = HealthMonitor.failed h0
    ∧ HealthMonitor.eventLog h = HealthMonitor.eventLog h0) as H.
  { induction samples as [|x xs IH]; intros h0; simpl.
    - repeat split; try done. lia.
    - destruct (IH (HealthMonitor.recordCompletion x.1.1 x.1.2 x.2 h0))
        as (H1 & H2 & H3 & H4 & H5 & H6).
      rewrite H1, H2, H3, H4, H5, H6. simpl. repeat split; try done. lia. }
  destruct (H HealthMonitor.create) as (H1 & H2 & H3 & H4 & H5 & H6).
  rewrite H1, H2, H3, H4, H5, H6. simpl.
  rewrite !LatencyWindow_push_many by (simpl; lia). done.
Qed.

(** The event log keeps the last 1000 events emitted, in order, and
    [recentEvents] with a positive limit returns the newest [limit] of
    them. *)
Theorem event_log_keeps_last_1000 (events : list SchedulerEvent) (limit : nat) :
  0 < limit →
  let h := foldl (λ h e, HealthMonitor.emit e h) HealthMonitor.create events in
  HealthMonitor.eventLog h = last_n 1000 events
  ∧ HealthMonitor.recentEvents limit h = last_n (limit `min` 1000) events.
Proof.
  intros Hlimit h. subst h.
  rewrite (eventLog_emit_many events HealthMonitor.create) by (simpl; lia).
  simpl. split; [done |]. unfold HealthMonitor.recentEvents.
  rewrite (eventLog_emit_many events HealthMonitor.create) by (simpl; lia).
  simpl. unfold last_n. rewrite length_drop, drop_drop. f_equal. lia.
Qed.

Lemma event_log_keeps_last_1000_witness :
  let events := [request_queued "req-1-1" 1; request_queued "req-2-2" 2;
                 request_failed "req-1-1" "Request timed out in queue" 9] in
  let h := foldl (λ h e, HealthMonitor.emit e h) HealthMonitor.create events in
  HealthMonitor.recentEvents 2 h
  = [request_queued "req-2-2" 2;
     request_failed "req-1-1" "Request timed out in queue" 9].
Proof.
  intros events h.
  assert (Hlimit : 0 < 2) by lia.
  exact (proj2 (event_log_keeps_last_1000 events 2 Hlimit)).
Defined.

(** A health probe of a registered worker: a healthy answer overwrites the
    worker's load and utilisation with the reported ones and sets its
    status to busy or idle by the reported load, whatever the status was
    (offline and draining included), and logs nothing; any other answer
    marks the worker offline and logs one [worker_offline] event. No other
    worker is touched. *)
Theorem probe_outcome w result now pool h :
  WorkerPool.get (WorkerInfo.id w) pool = Some w →
  let '(pool', h') := HealthMonitor.probed w result now (pool, h) in
  (∀ k, k ≠ WorkerInfo.id w → WorkerPool.get k pool' = WorkerPool.get k pool)
  ∧ if HealthResult.healthy result then
      WorkerPool.get (WorkerInfo.id w) pool'
      = Some (probed_worker w result now)
      ∧ (WorkerPool.can_accept (probed_worker w result now) = true
         ↔ (HealthResult.activeRequests result < WorkerInfo.maxConcurrency w)%Z)
      ∧ h' = h
    else
      WorkerPool.get (WorkerInfo.id w) pool'
      = Some (WorkerInfo.set_status offline w)
      ∧ last (HealthMonitor.eventLog h')
        = Some (worker_offline (WorkerInfo.id w) now)
      ∧ HealthMonitor.completed h' = HealthMonitor.completed h
      ∧ HealthMonitor.failed h' = HealthMonitor.failed h.
Proof.
  intros Hget. unfold HealthMonitor.probed.
  assert (Hother : ∀ f k, k ≠ WorkerInfo.id w →
            WorkerPool.get k (WorkerPool.mutate (WorkerInfo.id w) f pool)
            = WorkerPool.get k pool).
  { intros f k Hk. unfold WorkerPool.mutate, WorkerPool.get in *.
    rewrite Hget. simpl. by apply JsMap_get_set_ne. }
  destruct (HealthResult.healthy result).
  - split; [apply Hother |]. split; [| split; [| done]].
    + unfold WorkerPool.updateMetrics.
      by rewrite (get_mutate_eq _ _ _ _ Hget).
    + unfold WorkerPool.can_accept, probed_worker. simpl.
      destruct (WorkerInfo.maxConcurrency w
                <=? HealthResult.activeRequests result)%Z eqn:Hfull; simpl.
      * rewrite Z.ltb_lt. apply Z.leb_le in Hfull. done.
      * rewrite Z.ltb_lt. done.
  - split; [apply Hother |]. split; [| split; [apply last_emit | done]].
    unfold WorkerPool.markOffline. by rewrite (get_mutate_eq _ _ _ _ Hget).
Qed.

Lemma probe_outcome_witness :
  let w := WorkerInfo.mk "d1" "http://d1:8000" decode draining 0%Q 3 4 0 "m1" in
  let pool := WorkerPool.mk [("d1", w)] (WorkerPool.mkCounters 0 0) in
  let result := HealthResult.mk true (1 # 2) 1 None in
  WorkerPool.get "d1" (HealthMonitor.probed w result 9
                         (pool, HealthMonitor.create)).1
  = Some (WorkerInfo.mk "d1" "http://d1:8000" decode idle (1 # 2) 1 4 9 "m1").
Proof.
  intros w pool result.
  assert (Hget : WorkerPool.get (WorkerInfo.id w) pool = Some w) by reflexivity.
  exact (proj1 (proj2 (probe_outcome w result 9 pool HealthMonitor.create Hget))).
Defined.

Lemma expireLoop_again t now ws :
  WorkerPool.expireLoop t now (WorkerPool.expireLoop t now ws).2
  = ([], (WorkerPool.expireLoop t now ws).2).
Proof.
  induction ws as [|[k w] ws IH]; simpl; [done |].
  destruct (WorkerPool.expireLoop t now ws) as [e r]. simpl in IH.
  destruct (WorkerPool.is_stale t now w) eqn:Hst; simpl; rewrite IH.
  - done.
  - by rewrite Hst.
Qed.

(** The expiry pass at the end of a health round logs one [worker_offline]
    event for each worker it switches off, in registry order, and none for
    a worker that was offline already; a second pass at the same time logs
    nothing. *)
Theorem expire_logs_each_expired_worker workerTimeoutMs now pool h :
  length (HealthMonitor.eventLog h) ≤ 1000 →
  let expired := (WorkerPool.expireStaleWorkers workerTimeoutMs now pool).1 in
  let '(pool', h') := HealthMonitor.expire workerTimeoutMs now (pool, h) in
  pool' = (WorkerPool.expireStaleWorkers workerTimeoutMs now pool).2
  ∧ expired
    = WorkerInfo.id
        <$> filter (λ w, WorkerPool.is_stale workerTimeoutMs now w = true)
                   (WorkerPool.list None pool)
  ∧ HealthMonitor.eventLog h'
    = last_n 1000 (HealthMonitor.eventLog h
                   ++ ((λ wid, worker_offline wid now) <$> expired))
  ∧ HealthMonitor.expire workerTimeoutMs now (pool', h') = (pool', h').
Proof.
  intros Hlen expired. subst expired. unfold HealthMonitor.expire.
  pose proof (expireLoop_spec workerTimeoutMs now (WorkerPool.workers pool))
    as Hloop.
  unfold WorkerPool.expireStaleWorkers.
  destruct (WorkerPool.expireLoop workerTimeoutMs now (WorkerPool.workers pool))
    as [ex ws] eqn:Hex. simpl.
  split; [done |]. split.
  { by injection Hloop as -> _. }
  split.
  { rewrite <- (foldl_fmap (λ h e, HealthMonitor.emit e h)).
    by apply eventLog_emit_many. }
  pose proof (expireLoop_again workerTimeoutMs now (WorkerPool.workers pool))
    as Hagain.
  rewrite Hex in Hagain. simpl in Hagain.
  by rewrite Hagain.
Qed.

Lemma expire_logs_each_expired_worker_witness :
  let stale := WorkerInfo.mk "p1" "http://p1:8000" prefill idle 0%Q 0 32 0 "m1" in
  let gone := WorkerInfo.mk "p2" "http://p2:8000" prefill offline 0%Q 0 32 0 "m1" in
  let pool := WorkerPool.mk [("p1", stale); ("p2", gone)]
                (WorkerPool.mkCounters 0 0) in
  HealthMonitor.eventLog
    (HealthMonitor.expire 30000 60000 (pool, HealthMonitor.create)).2
  = [worker_offline "p1" 60000].
Proof.
  intros stale gone pool.
  assert (Hlen : length (HealthMonitor.eventLog HealthMonitor.create) ≤ 1000)
    by (simpl; lia).
  exact (proj1 (proj2 (proj2
    (expire_logs_each_expired_worker 30000 60000 pool HealthMonitor.create Hlen)))).
Defined.

(** ** The scheduler: ids, expiry and load *)

Section list_more.
Context {A B : Type}.

Lemma fmap_alter (proj : A → B) (g : A → A) (h : B → B) c (l : list A) :
  (∀ x, proj (g x) = h (proj x)) →
  proj <$> alter g c l = alter h c (proj <$> l).
Proof.
  intros Hg. revert c. induction l as [|x l IH]; intros [|c]; csimpl;
    by rewrite ?Hg, ?IH.
Qed.

Lemma fmap_alter_keep (proj : A → B) (g : A → A) c (l : list A) :
  (∀ x, proj (g x) = proj x) → proj <$> alter g c l = proj <$> l.
Proof.
  intros Hg. rewrite (fmap_alter proj g id) by done. apply list_alter_id.
  by intros x.
Qed.

Lemma alter_as_insert (h : B → B) c (l : list B) x :
  l !! c = Some x → alter h c l = <[c := h x]> l.
Proof.
  revert c. induction l as [|y l IH]; intros [|c]; simpl; try done.
  - by intros [= ->].
  - intros Hc. f_equal. by apply IH.
Qed.

Lemma elem_of_delete_ne (l : list A) i x y :
  l !! i = Some y → x ≠ y → x ∈ l → x ∈ delete i l.
Proof.
  intros Hi Hne Hx. apply list_elem_of_lookup in Hx as [j Hj].
  destruct (decide (j < i)) as [Hlt|Hge].
  - apply (list_elem_of_lookup_2 _ j). by rewrite list_lookup_delete_lt.
  - assert (j ≠ i) by (intros ->; congruence).
    apply (list_elem_of_lookup_2 _ (pred j)).
    rewrite list_lookup_delete_ge by lia.
    by replace (S (pred j)) with j by lia.
Qed.
End list_more.

(** *** What the operations do to promises and phases *)

Lemma promises_of_mutate_request c f s :
  promises_of (PDScheduler.mutate_request c f s) = promises_of s.
Proof. unfold promises_of. simpl. by apply fmap_alter_keep. Qed.

Lemma phases_of_mutate_keep c f s :
  keeps_phase f → phases_of (PDScheduler.mutate_request c f s) = phases_of s.
Proof. intros Hf. unfold phases_of. simpl. apply fmap_alter_keep. intros x. apply Hf. Qed.

Lemma phases_of_mutate_phase c p s :
  phases_of (PDScheduler.mutate_request c (InferenceRequest.set_phase p) s)
  = alter (λ _, p) c (phases_of s).
Proof. unfold phases_of. simpl. by apply fmap_alter. Qed.

Lemma promises_of_settle c v s :
  promises_of (PDScheduler.settle c v s)
  = alter (λ x, match x with Pending => v | _ => x end) c (promises_of s).
Proof.
  unfold promises_of. simpl. apply fmap_alter. intros cell.
  destruct (PDScheduler.promise cell) eqn:Hp; simpl; by rewrite ?Hp.
Qed.

Lemma phases_of_settle c v s :
  phases_of (PDScheduler.settle c v s) = phases_of s.
Proof.
  unfold phases_of. simpl. apply fmap_alter_keep. intros cell.
  by destruct (PDScheduler.promise cell).
Qed.

Lemma pendings_promises_of s : pendings s = is_pending <$> promises_of s.
Proof. unfold pendings, promises_of. by rewrite <- list_fmap_compose. Qed.

Lemma promises_of_pending s c :
  pendings s !! c = Some true ↔ promises_of s !! c = Some Pending.
Proof.
  rewrite pendings_promises_of, list_lookup_fmap.
  destruct (promises_of s !! c) as [[| |]|]; simpl; split; congruence.
Qed.

(** Promises and phases are read off the store. *)
Lemma promises_of_store s s' :
  PDScheduler.store s' = PDScheduler.store s → promises_of s' = promises_of s.
Proof. unfold promises_of. by intros ->. Qed.

Lemma phases_of_store s s' :
  PDScheduler.store s' = PDScheduler.store s → phases_of s' = phases_of s.
Proof. unfold phases_of. by intros ->. Qed.

(** The setters of the other fields leave the store alone. *)
Lemma store_set_pool v s :
  PDScheduler.store (PDScheduler.set_pool v s) = PDScheduler.store s.
Proof. reflexivity. Qed.
Lemma store_set_kvManager v s :
  PDScheduler.store (PDScheduler.set_kvManager v s) = PDScheduler.store s.
Proof. reflexivity. Qed.
Lemma store_set_health v s :
  PDScheduler.store (PDScheduler.set_health v s) = PDScheduler.store s.
Proof. reflexivity. Qed.
Lemma store_emit v s :
  PDScheduler.store (PDScheduler.emit v s) = PDScheduler.store s.
Proof. reflexivity. Qed.
Lemma store_set_queue v s :
  PDScheduler.store (PDScheduler.set_queue v s) = PDScheduler.store s.
Proof. reflexivity. Qed.
Lemma store_set_inflight v s :
  PDScheduler.store (PDScheduler.set_inflight v s) = PDScheduler.store s.
Proof. reflexivity. Qed.
Lemma store_set_activePrefills v s :
  PDScheduler.store (PDScheduler.set_activePrefills v s) = PDScheduler.store s.
Proof. reflexivity. Qed.
Lemma store_set_activeDecodes v s :
  PDScheduler.store (PDScheduler.set_activeDecodes v s) = PDScheduler.store s.
Proof. reflexivity. Qed.
Lemma store_set_running v s :
  PDScheduler.store (PDScheduler.set_running v s) = PDScheduler.store s.
Proof. reflexivity. Qed.
Lemma store_set_pipelines v s :
  PDScheduler.store (PDScheduler.set_pipelines v s) = PDScheduler.store s.
Proof. reflexivity. Qed.

Ltac peel_view f lem :=
  repeat match goal with
    | |- context [f (PDScheduler.set_pool ?v ?s)] =>
        rewrite (lem s _ (store_set_pool v s))
    | |- context [f (PDScheduler.set_kvManager ?v ?s)] =>
        rewrite (lem s _ (store_set_kvManager v s))
    | |- context [f (PDScheduler.set_health ?v ?s)] =>
        rewrite (lem s _ (store_set_health v s))
    | |- context [f (PDScheduler.emit ?v ?s)] =>
        rewrite (lem s _ (store_emit v s))
    | |- context [f (PDScheduler.set_queue ?v ?s)] =>
        rewrite (lem s _ (store_set_queue v s))
    | |- context [f (PDScheduler.set_inflight ?v ?s)] =>
        rewrite (lem s _ (store_set_inflight v s))
    | |- context [f (PDScheduler.set_activePrefills ?v ?s)] =>
        rewrite (lem s _ (store_set_activePrefills v s))
    | |- context [f (PDScheduler.set_activeDecodes ?v ?s)] =>
        rewrite (lem s _ (store_set_activeDecodes v s))
    | |- context [f (PDScheduler.set_running ?v ?s)] =>
        rewrite (lem s _ (store_set_running v s))
    | |- context [f (PDScheduler.set_pipelines ?v ?s)] =>
        rewrite (lem s _ (store_set_pipelines v s))
    end.

Ltac view_peel :=
  peel_view promises_of promises_of_store; peel_view phases_of phases_of_store.

(** A request with an in-flight entry has a pending promise. *)
Lemma inflight_pending s k c :
  sched_invariant s → PDScheduler.inflight s !! k = Some c →
  promises_of s !! c = Some Pending.
Proof.
  intros Hs Hk. apply promises_of_pending.
  apply (inv_pending _ _ _ _ _ _ Hs c k); [| done].
  by apply (inv_own _ _ _ _ _ _ Hs).
Qed.

(** [fail] on a request that is in flight. *)
Lemma fail_known k e now s c :
  PDScheduler.inflight s !! k = Some c →
  promises_of s !! c = Some Pending →
  let s' := PDScheduler.fail k e now s in
  promises_of s' = <[c := Rejected e]> (promises_of s)
  ∧ phases_of s' = alter (λ _, failed) c (phases_of s)
  ∧ HealthMonitor.completed (PDScheduler.health s')
    = HealthMonitor.completed (PDScheduler.health s)
  ∧ HealthMonitor.failed (PDScheduler.health s')
    = (HealthMonitor.failed (PDScheduler.health s) + 1)%Z.
Proof.
  intros Hk Hp. unfold PDScheduler.fail. simpl. rewrite Hk.
  split; [| split; [| done]].
  - rewrite promises_of_settle. view_peel.
    rewrite promises_of_mutate_request. view_peel.
    by rewrite (alter_as_insert _ _ _ _ Hp).
  - rewrite phases_of_settle. view_peel. rewrite phases_of_mutate_phase.
    by view_peel.
Qed.

(** [fail] leaves every other request as it is. *)
Lemma fail_other k e now s c :
  (∀ c', PDScheduler.inflight s !! k = Some c' → c' ≠ c) →
  let s' := PDScheduler.fail k e now s in
  promises_of s' !! c = promises_of s !! c
  ∧ phases_of s' !! c = phases_of s !! c.
Proof.
  intros Hk. unfold PDScheduler.fail. simpl.
  destruct (PDScheduler.inflight s !! k) as [c'|] eqn:Hc'; [| done].
  specialize (Hk c' eq_refl). split.
  - rewrite promises_of_settle. rewrite list_lookup_alter_ne by done.
    view_peel. rewrite promises_of_mutate_request. by view_peel.
  - rewrite phases_of_settle. view_peel. rewrite phases_of_mutate_phase.
    view_peel. by rewrite list_lookup_alter_ne.
Qed.

Lemma runPipeline_life c w now s r :
  PDScheduler.request_at (PDScheduler.store s) c = Some r →
  let s' := PDScheduler.runPipeline c w now s in
  promises_of s' = promises_of s
  ∧ phases_of s' = alter (λ _, prefilling) c (phases_of s)
  ∧ HealthMonitor.completed (PDScheduler.health s')
    = HealthMonitor.completed (PDScheduler.health s)
  ∧ HealthMonitor.failed (PDScheduler.health s')
    = HealthMonitor.failed (PDScheduler.health s)
  ∧ PDScheduler.pool s' = WorkerPool.incrementActive w (PDScheduler.pool s)
  ∧ PDScheduler.activePrefills s' = (PDScheduler.activePrefills s + 1)%Z
  ∧ PDScheduler.activeDecodes s' = PDScheduler.activeDecodes s.
Proof.
  intros Hr. unfold PDScheduler.runPipeline. rewrite Hr.
  set (s1 := PDScheduler.mutate_request c
               (InferenceRequest.set_phase prefilling) s).
  split; [| split]; [| | done].
  - transitivity (promises_of s1); apply promises_of_mutate_request.
  - transitivity (phases_of s1); [| apply phases_of_mutate_phase].
    by apply (phases_of_mutate_keep c _ s1).
Qed.

(** *** Request ids *)

Lemma idCounter_caught i f err now s :
  PDScheduler.idCounter (PDScheduler.caught i f err now s)
  = PDScheduler.idCounter s.
Proof.
  unfold PDScheduler.caught.
  by destruct (fail_effect (PDScheduler.frame_rid f) (as_error err) now
                 (PDScheduler.set_pipelines (delete i (PDScheduler.pipelines s)) s))
    as (_ & _ & _ & _ & -> & _).
Qed.

Lemma idCounter_dispatch now s :
  sched_invariant s →
  PDScheduler.idCounter (PDScheduler.dispatch now s) = PDScheduler.idCounter s.
Proof.
  intros Hs. rewrite dispatch_unfold. case_bool_decide; [done |].
  destruct (sorted_and_swept_frame now s) as (_ & _ & _ & _ & _ & Hn).
  pose proof (sched_invariant_sorted_and_swept now s Hs) as H2.
  destruct (WorkerPool.select _ _ _) as [[w|] pool']; simpl; [| done].
  destruct (PDScheduler.queue (sorted_and_swept now s)) as [|c rest] eqn:Hq;
    [done |].
  destruct (sched_invariant_valid _ c H2) as [r Hr]; [rewrite Hq; by left |].
  by destruct (runPipeline_effect c (WorkerInfo.id w) now
                 (PDScheduler.set_queue rest
                    (PDScheduler.set_pool pool' (sorted_and_swept now s))) r Hr)
    as (_ & _ & _ & _ & -> & _).
Qed.

(** Every step but an accepted [submit] leaves the id counter and the
    number of request objects as they are. *)
Lemma idCounter_step s s' :
  PDScheduler.step s s' → sched_invariant s →
  (PDScheduler.idCounter s' = PDScheduler.idCounter s
   ∧ descriptors (PDScheduler.store s') = descriptors (PDScheduler.store s))
  ∨ (∃ opts now,
       PDScheduler.idCounter s' = (PDScheduler.idCounter s + 1)%N
       ∧ PDScheduler.store s'
         = PDScheduler.store s
           ++ [PDScheduler.mkCell (submitted_request opts now s) Pending]).
Proof.
  destruct 1 as [s|s|opts now s|now s Hrun|i f outcome now s Hi|i net now s Hi
                |i f pr dw q outcome now s Hi Hq|i f pr dw tr outcome now s Hi
                |op s|w result now s|now s]; intros Hs.
  - left. unfold PDScheduler.start. by case_match.
  - by left.
  - destruct (Z.le_gt_cases
                (PDSchedulerConfig.maxQueueSize (PDScheduler.config s))
                (Z.of_nat (length (PDScheduler.queue s)))) as [Hfull|Hfree].
    + left. by rewrite submit_full.
    + right. exists opts, now.
      by destruct (submit_accepted opts now s Hfree) as (_ & -> & _ & _ & -> & _).
  - left. by rewrite idCounter_dispatch, descriptors_dispatch.
  - left. unfold PDScheduler.runPipeline_prefilled.
    destruct outcome as [err|prefillResult];
      [by rewrite idCounter_caught, descriptors_caught |].
    destruct (WorkerPool.select _ _ _) as [[decodeWorker|] pool'].
    + destruct (PDScheduler.frame_prefillWorker f) as [prefillWorker|].
      * destruct (KVCacheTransferManager.transfer _ _ _) as [q kv]. simpl.
        by rewrite !descriptors_alter by (by intros cell).
      * rewrite idCounter_caught, descriptors_caught. simpl.
        by rewrite !descriptors_alter by (by intros cell).
    + rewrite idCounter_caught, descriptors_caught. simpl.
      by rewrite !descriptors_alter by (by intros cell).
  - by left.
  - left. unfold PDScheduler.runPipeline_transferred.
    destruct outcome as [err|transferResult];
      [by rewrite idCounter_caught, descriptors_caught |].
    destruct (KVCacheTransferResult.success transferResult); simpl.
    + by rewrite !descriptors_alter by (by intros cell).
    + by rewrite idCounter_caught, descriptors_caught.
  - left. unfold PDScheduler.runPipeline_decoded.
    destruct outcome as [err|decodeResult];
      [by rewrite idCounter_caught, descriptors_caught |].
    simpl. destruct (PDScheduler.inflight s !! PDScheduler.frame_rid f); simpl.
    + split; [done |]. rewrite !descriptors_alter; [done | by intros cell |].
      intros cell. by destruct (PDScheduler.promise cell).
    + by rewrite !descriptors_alter by (by intros cell).
  - by left.
  - left. by destruct (HealthMonitor.probed _ _ _ _).
  - left. by destruct (HealthMonitor.expire _ _ _).
Qed.

Lemma idCounter_reachable config s :
  PDScheduler.reachable config s →
  PDScheduler.idCounter s = N.of_nat (length (PDScheduler.store s))
  ∧ ∀ c d, descriptors (PDScheduler.store s) !! c = Some d →
      d.1.1.1 = issued_id d.1.2 (N.of_nat (S c)) ∧ is_Some d.2.
Proof.
  intros [t0 Hr]. apply rtc_nsteps in Hr as [n Hr].
  revert s Hr. induction n as [|n IH]; intros s Hr.
  - inversion Hr; subst. split; [done | by intros c d].
  - apply nsteps_inv_r in Hr as (s0 & Hr & Hstep).
    destruct (IH _ Hr) as [Hn Hd].
    assert (Hinv0 : sched_invariant s0).
    { apply (sched_invariant_reachable config). exists t0.
      by eapply rtc_nsteps_2. }
    destruct (idCounter_step _ _ Hstep Hinv0)
      as [[Hn' Hd']|(opts & now & Hn' & Hst)].
    + rewrite Hn', Hd'. split; [| done]. rewrite Hn. f_equal.
      apply (f_equal length) in Hd'. unfold descriptors in Hd'.
      by rewrite !length_fmap in Hd'.
    + rewrite Hn', Hst, length_app. split; [simpl; lia |].
      intros c d. unfold descriptors. rewrite fmap_app.
      intros Hc. apply lookup_app_Some in Hc as [Hc|[Hlen Hc]];
        [by apply Hd |].
      rewrite length_fmap in Hlen, Hc.
      destruct (c - length (PDScheduler.store s0)) as [|m] eqn:Hm; [| done].
      simpl in Hc. injection Hc as <-. unfold descriptor, submitted_request.
      cbn [InferenceRequest.requestId InferenceRequest.createdAt
           InferenceRequest.timeoutMs fst snd].
      rewrite generateRequestId_issued, Hn.
      split; [f_equal; lia | by eexists].
Qed.



(** *** Expiry in the queue *)

Lemma is_live_false st now c :
  is_live st now c = false →
  ∃ req, PDScheduler.request_at st c = Some req
         ∧ PDScheduler.timed_out now req = true.
Proof.
  unfold is_live. destruct (PDScheduler.request_at st c) as [req|]; [| done].
  intros H. exists req. split; [done |]. by apply negb_false_iff.
Qed.

Lemma queued_inflight s c req :
  sched_invariant s → c ∈ PDScheduler.queue s →
  PDScheduler.request_at (PDScheduler.store s) c = Some req →
  PDScheduler.inflight s !! InferenceRequest.requestId req = Some c.
Proof.
  intros Hs Hc Hreq.
  destruct (inv_queue _ _ _ _ _ _ Hs c Hc) as (k & Hid & Hk).
  rewrite (ids_request_at _ _ _ Hreq) in Hid. by injection Hid as <-.
Qed.

Lemma sweep_at_expired i now s c :
  sched_invariant s → PDScheduler.queue s !! i = Some c →
  is_live (PDScheduler.store s) now c = false →
  let s1 := PDScheduler.sweep_at i now s in
  promises_of s1 !! c = Some (Rejected queue_timeout)
  ∧ phases_of s1 !! c = Some failed.
Proof.
  intros Hs Hi Hlive. destruct (is_live_false _ _ _ Hlive) as (req & Hreq & Hout).
  unfold PDScheduler.sweep_at. rewrite Hi, Hreq, Hout.
  assert (Hk : PDScheduler.inflight s !! InferenceRequest.requestId req = Some c).
  { apply queued_inflight; [done | by eapply list_elem_of_lookup_2 | done]. }
  pose proof (inflight_pending _ _ _ Hs Hk) as Hp.
  destruct (fail_known (InferenceRequest.requestId req) queue_timeout now
              (PDScheduler.set_queue (delete i (PDScheduler.queue s)) s) c Hk Hp)
    as (HP & HF & _).
  fold queue_timeout. rewrite HP, HF. view_peel.
  apply lookup_lt_Some in Hp as Hlt. split.
  - by rewrite list_lookup_insert_eq.
  - rewrite list_lookup_alter_eq.
    unfold promises_of, phases_of in *. rewrite length_fmap in Hlt.
    rewrite list_lookup_fmap.
    by destruct (lookup_lt_is_Some_2 _ _ Hlt) as [cell ->].
Qed.

Lemma sweep_at_settled i now s c :
  sched_invariant s → c ∉ PDScheduler.queue s →
  let s1 := PDScheduler.sweep_at i now s in
  promises_of s1 !! c = promises_of s !! c
  ∧ phases_of s1 !! c = phases_of s !! c.
Proof.
  intros Hs Hc. unfold PDScheduler.sweep_at.
  destruct (PDScheduler.queue s !! i) as [c'|] eqn:Hi; [| done].
  destruct (PDScheduler.request_at (PDScheduler.store s) c') as [req|] eqn:Hreq;
    [| done].
  case_match; [| done].
  assert (Hin : c' ∈ PDScheduler.queue s) by (by eapply list_elem_of_lookup_2).
  pose proof (queued_inflight _ _ _ Hs Hin Hreq) as Hk.
  apply (fail_other (InferenceRequest.requestId req) _ now
           (PDScheduler.set_queue (delete i (PDScheduler.queue s)) s) c).
  intros c'' Hc''. simpl in Hc''. rewrite Hk in Hc''. injection Hc'' as <-.
  by intros ->.
Qed.

Lemma sweep_at_queue_sub i now s c :
  c ∈ PDScheduler.queue (PDScheduler.sweep_at i now s) → c ∈ PDScheduler.queue s.
Proof.
  destruct (PDScheduler.queue s !! i) as [c'|] eqn:Hi.
  - rewrite (sweep_at_queue _ _ _ _ Hi). case_match; [done |].
    apply elem_of_delete.
  - unfold PDScheduler.sweep_at. by rewrite Hi.
Qed.

Lemma sweep_settled n now : ∀ s c,
  sched_invariant s → c ∉ PDScheduler.queue s →
  let s1 := PDScheduler.sweep n now s in
  promises_of s1 !! c = promises_of s !! c
  ∧ phases_of s1 !! c = phases_of s !! c.
Proof.
  induction n as [|n IH]; intros s c Hs Hc; [done |]. simpl.
  destruct (IH (PDScheduler.sweep_at n now s) c) as [-> ->].
  - by apply sched_invariant_sweep_at.
  - intros Hin. by apply Hc, (sweep_at_queue_sub n now).
  - by apply sweep_at_settled.
Qed.

Lemma sweep_rejects n now : ∀ s i c,
  sched_invariant s → i < n → PDScheduler.queue s !! i = Some c →
  is_live (PDScheduler.store s) now c = false →
  let s1 := PDScheduler.sweep n now s in
  promises_of s1 !! c = Some (Rejected queue_timeout)
  ∧ phases_of s1 !! c = Some failed.
Proof.
  induction n as [|n IH]; intros s i c Hs Hlt Hi Hlive; [lia |]. simpl.
  pose proof (sched_invariant_sweep_at n now s Hs) as Hs1.
  destruct (decide (i = n)) as [->|Hne].
  - destruct (sweep_at_expired n now s c Hs Hi Hlive) as [HP HF].
    destruct (sweep_settled n now (PDScheduler.sweep_at n now s) c)
      as [-> ->]; [done | | done].
    rewrite (sweep_at_queue _ _ _ _ Hi), Hlive.
    apply NoDup_lookup_not_in_delete; [| done].
    apply (inv_queue_nodup _ _ _ _ _ _ Hs).
  - destruct (sweep_at_frame n now s) as (Hd & _).
    apply (IH _ i); [done | lia | |].
    + destruct (PDScheduler.queue s !! n) as [c'|] eqn:Hn.
      * rewrite (sweep_at_queue _ _ _ _ Hn). case_match; [done |].
        rewrite list_lookup_delete_lt by lia. done.
      * unfold PDScheduler.sweep_at. by rewrite Hn.
    + by rewrite (is_live_same _ _ now c Hd).
Qed.

(** In every state the scheduler can reach, a dispatch tick at a time
    when a queued request has waited for more than its (non-zero)
    [timeoutMs] takes the request out of the queue, rejects its promise with
    the error "Request timed out in queue", sets its phase to failed and
    drops its in-flight entry; the request is not handed to a worker. *)
Theorem queued_request_expires config s c req t now :
  PDScheduler.reachable config s →
  c ∈ PDScheduler.queue s →
  PDScheduler.request_at (PDScheduler.store s) c = Some req →
  InferenceRequest.timeoutMs req = Some t → t ≠ 0%Z →
  (t < now - InferenceRequest.createdAt req)%Z →
  let s' := PDScheduler.dispatch now s in
  (c ∉ PDScheduler.queue s')
  ∧ promises_of s' !! c = Some (Rejected queue_timeout)
  ∧ phases_of s' !! c = Some failed
  ∧ PDScheduler.inflight s' !! InferenceRequest.requestId req = None
  ∧ ¬ in_pipeline s' c.
Proof.
  intros Hr Hc Hreq Ht Ht0 Hlate.
  pose proof (sched_invariant_reachable _ _ Hr) as Hs.
  assert (Hlive : is_live (PDScheduler.store s) now c = false).
  { unfold is_live, PDScheduler.timed_out. rewrite Hreq, Ht.
    apply negb_false_iff, andb_true_iff. split.
    - apply negb_true_iff, Z.eqb_neq. done.
    - by apply Z.ltb_lt. }
  assert (Hold : ∀ p, p ∈ PDScheduler.pipelines s →
            PDScheduler.frame_request (PDScheduler.frame p) ≠ c).
  { intros p Hp Hfc.
    destruct (inv_frames _ _ _ _ _ _ Hs (PDScheduler.frame p)) as [Hnq _].
    { unfold frames. by apply list_elem_of_fmap_2. }
    by rewrite Hfc in Hnq. }
  assert (Hmain : ∀ s', s' = PDScheduler.dispatch now s →
            (c ∉ PDScheduler.queue s')
            ∧ promises_of s' !! c = Some (Rejected queue_timeout)
            ∧ phases_of s' !! c = Some failed
            ∧ ¬ in_pipeline s' c).
  { intros s' ->. rewrite dispatch_unfold. case_bool_decide as Hempty.
    { apply length_zero_iff_nil in Hempty. rewrite Hempty in Hc.
      by apply elem_of_nil in Hc. }
    set (s2 := sorted_and_swept now s).
    assert (H2 : (c ∉ PDScheduler.queue s2)
                 ∧ promises_of s2 !! c = Some (Rejected queue_timeout)
                 ∧ phases_of s2 !! c = Some failed).
    { split.
      - unfold s2. rewrite sorted_and_swept_queue.
        intros Hin. apply list_elem_of_filter in Hin as [Hin _]. congruence.
      - set (q' := JsArray.sort (PDScheduler.compare_at (PDScheduler.store s))
                     (PDScheduler.queue s)).
        assert (Hc' : c ∈ q') by (unfold q'; by rewrite sort_Permutation).
        apply list_elem_of_lookup in Hc' as [i Hi].
        apply (sweep_rejects _ now (PDScheduler.set_queue q' s) i c).
        + apply sched_invariant_set_queue; [done | |].
          * unfold q'. rewrite sort_Permutation.
            apply (inv_queue_nodup _ _ _ _ _ _ Hs).
          * intros x. unfold q'. by rewrite sort_Permutation.
        + simpl. by eapply lookup_lt_Some.
        + done.
        + done. }
    destruct H2 as (Hq2 & HP2 & HF2).
    pose proof (sched_invariant_sorted_and_swept now s Hs) as Hs2.
    destruct (sorted_and_swept_frame now s) as (_ & _ & Hpl2 & _).
    fold s2 in Hs2, Hpl2.
    assert (Hno2 : ¬ in_pipeline s2 c).
    { intros (p & Hp & Hfc). rewrite Hpl2 in Hp. by apply (Hold p). }
    destruct (WorkerPool.select _ _ _) as [[w|] pool']; simpl;
      [| exact (conj Hq2 (conj HP2 (conj HF2 Hno2)))].
    destruct (PDScheduler.queue s2) as [|c' rest] eqn:Hq;
      [split; [simpl; by rewrite Hq | exact (conj HP2 (conj HF2 Hno2))] |].
    destruct (sched_invariant_valid _ c' Hs2) as [r Hr']; [rewrite Hq; by left |].
    destruct (runPipeline_effect c' (WorkerInfo.id w) now
                (PDScheduler.set_queue rest (PDScheduler.set_pool pool' s2)) r Hr')
      as (_ & _ & Hqu & _ & _ & Hpl).
    destruct (runPipeline_life c' (WorkerInfo.id w) now
                (PDScheduler.set_queue rest (PDScheduler.set_pool pool' s2)) r Hr')
      as (HP & HF & _).
    unfold in_pipeline. rewrite Hqu, HP, HF, Hpl. view_peel. simpl.
    apply not_elem_of_cons in Hq2 as [Hne Hrest].
    split; [done |]. split; [done |].
    split; [by rewrite list_lookup_alter_ne |].
    intros (p & Hp & Hfc). apply elem_of_app in Hp as [Hp|Hp].
    - apply Hno2. by exists p.
    - apply list_elem_of_singleton in Hp as ->. simpl in Hfc. done. }
  intros s'. destruct (Hmain s' eq_refl) as (Hq & HP & HF & Hno).
  pose proof (sched_invariant_dispatch now s Hs) as Hs'. fold s' in Hs'.
  pose proof (ids_request_at _ _ _ Hreq) as Hid.
  assert (Hid' : ids s' !! c = Some (InferenceRequest.requestId req)).
  { rewrite ids_descriptors in Hid |- *.
    unfold s'. by rewrite descriptors_dispatch. }
  assert (Hnone : PDScheduler.inflight s' !! InferenceRequest.requestId req = None).
  { destruct (PDScheduler.inflight s' !! InferenceRequest.requestId req)
      as [c'|] eqn:Hk; [| done].
    pose proof (inv_own _ _ _ _ _ _ Hs' _ _ Hk) as Hown.
    assert (c' = c) as ->.
    { eapply ids_lookup_inj; [apply (inv_ids _ _ _ _ _ _ Hs') | done | done]. }
    pose proof (inflight_pending _ _ _ Hs' Hk) as Hpend. congruence. }
  by repeat split.
Qed.

Lemma queued_request_expires_witness :
  let config := PDSchedulerConfig.mk true least_loaded 60000 30000 10 5000 []
                  (KvTransferConfig.mk 2 5000) in
  let opts := SubmitOptions.mk "m" (PromptText "hello") None None (Some 100%Z) in
  let s0 := PDScheduler.create config 0 in
  let s1 := (PDScheduler.submit opts 7 s0).2 in
  let s2 := PDScheduler.dispatch 200 s1 in
  PDScheduler.queue s1 = [0%nat]
  ∧ PDScheduler.queue s2 = []
  ∧ promises_of s2 !! 0%nat = Some (Rejected queue_timeout).
Proof.
  intros config opts s0 s1 s2.
  assert (Hr : PDScheduler.reachable config s1).
  { apply (sched_reachable_step config s0); [apply sched_reachable_create |].
    apply PDScheduler.step_submit. }
  assert (Hc : 0%nat ∈ PDScheduler.queue s1) by (by left).
  assert (Hreq : PDScheduler.request_at (PDScheduler.store s1) 0
                 = Some (submitted_request opts 7 s0)) by reflexivity.
  assert (Ht : InferenceRequest.timeoutMs (submitted_request opts 7 s0)
               = Some 100%Z) by reflexivity.
  assert (Ht0 : 100%Z ≠ 0%Z) by done.
  assert (Hlate : (100 < 200 - InferenceRequest.createdAt
                                 (submitted_request opts 7 s0))%Z)
    by (simpl; lia).
  split; [reflexivity |]. split; [reflexivity |].
  exact (proj1 (proj2 (queued_request_expires config s1 0%nat _ 100 200
                         Hr Hc Hreq Ht Ht0 Hlate))).
Defined.

(** *** Load that is not released *)

Lemma caught_load i f err now s :
  PDScheduler.pool (PDScheduler.caught i f err now s) = PDScheduler.pool s
  ∧ PDScheduler.activePrefills (PDScheduler.caught i f err now s)
    = PDScheduler.activePrefills s
  ∧ PDScheduler.activeDecodes (PDScheduler.caught i f err now s)
    = PDScheduler.activeDecodes s.
Proof.
  unfold PDScheduler.caught, PDScheduler.fail. simpl.
  by destruct (PDScheduler.inflight s !! PDScheduler.frame_rid f).
Qed.

(** The worker load and the stage counter that [runPipeline] raises when
    it starts a prefill or a decode are lowered only when the call to the
    worker succeeds: after a failed prefill the prefill worker keeps the
    extra active request and [activePrefills] stays raised, and likewise
    for the decode worker and [activeDecodes] after a failed decode, while
    a decode that succeeds lowers both again. *)
Theorem failed_stage_keeps_load c w now s r err now' i f :
  PDScheduler.request_at (PDScheduler.store s) c = Some r →
  (let s1 := PDScheduler.runPipeline c w now s in
   let s2 := PDScheduler.runPipeline_prefilled i f (inl err) now' s1 in
   PDScheduler.pool s2 = WorkerPool.incrementActive w (PDScheduler.pool s)
   ∧ PDScheduler.activePrefills s2 = (PDScheduler.activePrefills s + 1)%Z)
  ∧ (∀ prefillResult decodeWorker transferResult,
       KVCacheTransferResult.success transferResult = true →
       let s1 := PDScheduler.runPipeline_transferred i f prefillResult
                   decodeWorker (inr transferResult) now s in
       (let s2 := PDScheduler.runPipeline_decoded i f prefillResult
                    decodeWorker (inl err) now' s1 in
        PDScheduler.pool s2
        = WorkerPool.incrementActive (WorkerInfo.id decodeWorker)
            (PDScheduler.pool s)
        ∧ PDScheduler.activeDecodes s2 = (PDScheduler.activeDecodes s + 1)%Z)
       ∧ ∀ decodeResult,
           let s3 := PDScheduler.runPipeline_decoded i f prefillResult
                       decodeWorker (inr decodeResult) now' s1 in
           PDScheduler.pool s3
           = WorkerPool.decrementActive (WorkerInfo.id decodeWorker)
               (WorkerPool.incrementActive (WorkerInfo.id decodeWorker)
                  (PDScheduler.pool s))
           ∧ PDScheduler.activeDecodes s3 = PDScheduler.activeDecodes s).
Proof.
  intros Hr. split.
  - destruct (runPipeline_life c w now s r Hr) as (_ & _ & _ & _ & Hp & Ha & _).
    cbv zeta. cbn [PDScheduler.runPipeline_prefilled].
    destruct (caught_load i f err now' (PDScheduler.runPipeline c w now s))
      as (-> & -> & _).
    by rewrite Hp, Ha.
  - intros prefillResult decodeWorker transferResult Hok. cbv zeta.
    unfold PDScheduler.runPipeline_transferred. rewrite Hok. cbn [negb].
    split.
    + cbn [PDScheduler.runPipeline_decoded].
      match goal with
      | |- context [PDScheduler.caught i f err now' ?st] =>
          destruct (caught_load i f err now' st) as (-> & _ & ->)
      end.
      done.
    + intros decodeResult. unfold PDScheduler.runPipeline_decoded.
      match goal with
      | |- context [match ?m !! ?k with _ => _ end] => destruct (m !! k)
      end; simpl; split; try done; lia.
Qed.

Lemma failed_stage_keeps_load_witness :
  let config := PDSchedulerConfig.mk true least_loaded 60000 30000 10 5000
                  [WorkerSeedConfig.mk "p1" "http://p1:8000" prefill "m" None]
                  (KvTransferConfig.mk 2 5000) in
  let opts := SubmitOptions.mk "m" (PromptText "hello") None None None in
  let s0 := PDScheduler.create config 0 in
  let s1 := (PDScheduler.submit opts 7 s0).2 in
  let s2 := PDScheduler.runPipeline 0 "p1" 8 s1 in
  let f := PDScheduler.mkFrame 0 "req-7-1" "p1" 8 None in
  let s3 := PDScheduler.runPipeline_prefilled 0 f
              (inl (ErrorObj "fetch failed")) 9 s2 in
  WorkerInfo.activeRequests <$> WorkerPool.get "p1" (PDScheduler.pool s3)
  = Some 1%Z
  ∧ PDScheduler.activePrefills s3 = 1%Z.
Proof.
  intros config opts s0 s1 s2 f s3.
  assert (Hr : PDScheduler.request_at (PDScheduler.store s1) 0
               = Some (submitted_request opts 7 s0)) by reflexivity.
  destruct (failed_stage_keeps_load 0 "p1" 8 s1 _ (ErrorObj "fetch failed") 9 0 f Hr)
    as [[Hp Ha] _].
  split; [| exact Ha].
  unfold s3, s2. rewrite Hp. reflexivity.
Defined.

(** ** The scheduler: the life cycle of a request *)

Section lifecycle_moves.
Implicit Types (P : list (Settlement InferenceResult.t)) (Φ : list RequestPhase).
Implicit Types (q : list nat) (inf : gmap string nat).
Implicit Types (st : list (nat * string * RequestPhase)) (n m : Z).

Lemma count_snoc {A} (f : A → bool) (l : list A) x :
  count f (l ++ [x]) = (count f l + if f x then 1 else 0)%Z.
Proof.
  unfold count. rewrite filter_app, length_app, filter_cons, filter_nil.
  destruct (f x); case_decide; simpl; try done; lia.
Qed.

Lemma count_insert {A} (f : A → bool) (l : list A) c u v :
  l !! c = Some u →
  count f (<[c := v]> l)
  = (count f l - (if f u then 1 else 0) + if f v then 1 else 0)%Z.
Proof.
  intros Hc. unfold count.
  rewrite insert_take_drop by (by eapply lookup_lt_Some).
  rewrite <- (take_drop_middle l c u Hc) at 3.
  rewrite !filter_app, !filter_cons, !length_app.
  destruct (f u), (f v); repeat case_decide; simpl; try done; lia.
Qed.

Lemma stages_requests_insert st i c k ph0 ph :
  st !! i = Some (c, k, ph0) → (<[i := (c, k, ph)]> st).*1.*1 = st.*1.*1.
Proof.
  intros Hi. rewrite !list_fmap_insert. simpl. apply list_insert_id.
  by rewrite !list_lookup_fmap, Hi.
Qed.

Lemma mv_skip c P Φ q inf st n m :
  lifecycle_view None P Φ q inf st n m →
  lifecycle_view (Some c) P Φ q inf st n m.
Proof.
  intros [H1 H2 H3 H4 H5]. split; try done.
  intros c' ph v HP HΦ _. by apply H3.
Qed.

Lemma mv_phase c g P Φ q inf st n m :
  lifecycle_view (Some c) P Φ q inf st n m →
  lifecycle_view (Some c) P (alter g c Φ) q inf st n m.
Proof.
  intros [H1 H2 H3 H4 H5]. split; try done.
  intros c' ph v HP HΦ Hc'. apply H3; try done.
  rewrite list_lookup_alter_ne in HΦ; [done |]. by intros ->.
Qed.

Lemma mv_perm skip P Φ q q' inf st n m :
  q ≡ₚ q' →
  lifecycle_view skip P Φ q inf st n m →
  lifecycle_view skip P Φ q' inf st n m.
Proof.
  intros Hq [H1 H2 H3 H4 H5]. split; try done.
  intros c ph v HP HΦ Hc. specialize (H3 c ph v HP HΦ Hc).
  destruct v; try done. simpl in *. by rewrite <- Hq.
Qed.

Lemma mv_restage P Φ q inf st n m i c k ph0 ph :
  lifecycle_view (Some c) P Φ q inf st n m →
  st !! i = Some (c, k, ph0) → P !! c = Some Pending → Φ !! c = Some ph →
  lifecycle_view None P Φ q inf (<[i := (c, k, ph)]> st) n m.
Proof.
  intros [H1 H2 H3 H4 H5] Hi HPc HΦc.
  assert (Hlt : i < length st) by (by eapply lookup_lt_Some).
  split; try done.
  - by rewrite (stages_requests_insert _ _ _ _ _ _ Hi).
  - intros c' k' ph' Hin. apply list_elem_of_lookup in Hin as [j Hj].
    apply list_lookup_insert_Some in Hj as [(-> & Heq & _)|[Hne Hj]].
    + injection Heq as <- <- <-. apply (H2 c k ph0).
      by eapply list_elem_of_lookup_2.
    + apply (H2 c' k' ph'). by eapply list_elem_of_lookup_2.
  - intros c' ph' v HP HΦ _. destruct (decide (c' = c)) as [->|Hne].
    + rewrite HPc in HP. rewrite HΦc in HΦ.
      injection HP as <-. injection HΦ as <-. right. exists k.
      apply (list_elem_of_lookup_2 _ i). by rewrite list_lookup_insert_eq.
    + assert (Hskip : Some c ≠ Some c') by congruence.
      specialize (H3 c' ph' v HP HΦ Hskip). destruct v; try done.
      destruct H3 as [H3|[k' H3]]; [by left | right]. exists k'.
      apply list_elem_of_lookup in H3 as [j Hj].
      apply (list_elem_of_lookup_2 _ j).
      rewrite list_lookup_insert_ne; [done |]. intros ->. congruence.
Qed.

Lemma mv_terminal skip P Φ q inf st n m i c k ph0 v ph n' m' :
  lifecycle_view skip P Φ q inf st n m →
  skip = None ∨ skip = Some c →
  st !! i = Some (c, k, ph0) → P !! c = Some Pending →
  match v with
  | Resolved _ => ph = completed ∧ n' = (n + 1)%Z ∧ m' = m
  | Rejected _ => ph = failed ∧ n' = n ∧ m' = (m + 1)%Z
  | Pending => False
  end →
  lifecycle_view None (<[c := v]> P) (alter (λ _, ph) c Φ) q (delete k inf)
    (delete i st) n' m'.
Proof.
  intros [H1 H2 H3 H4 H5] Hskip Hi HPc Hv.
  assert (Hk : inf !! k = Some c).
  { apply (H2 c k ph0). by eapply list_elem_of_lookup_2. }
  assert (Hreq : st.*1.*1 !! i = Some c) by (by rewrite !list_lookup_fmap, Hi).
  assert (Hgone : c ∉ (delete i st).*1.*1).
  { rewrite !list_fmap_delete. by apply NoDup_lookup_not_in_delete. }
  split.
  - rewrite !list_fmap_delete. by apply NoDup_delete.
  - intros c' k' ph' Hin. pose proof (elem_of_delete _ _ _ Hin) as Hin'.
    pose proof (H2 _ _ _ Hin') as Hk'.
    rewrite lookup_delete_ne; [done |]. intros <-.
    rewrite Hk in Hk'. injection Hk' as <-. apply Hgone.
    apply list_elem_of_fmap. exists (c, k). split; [done |].
    apply list_elem_of_fmap. by exists (c, k, ph').
  - intros c' ph' v' HP HΦ _. destruct (decide (c' = c)) as [->|Hne].
    + rewrite list_lookup_insert_eq in HP by (by eapply lookup_lt_Some).
      rewrite list_lookup_alter_eq in HΦ. injection HP as <-.
      destruct (Φ !! c); [| done]. injection HΦ as <-.
      destruct v; simpl; tauto.
    + rewrite list_lookup_insert_ne in HP by done.
      rewrite list_lookup_alter_ne in HΦ by done.
      assert (Hs : skip ≠ Some c') by (destruct Hskip as [->| ->]; congruence).
      specialize (H3 c' ph' v' HP HΦ Hs). destruct v'; try done.
      destruct H3 as [H3|[k' H3]]; [by left | right]. exists k'.
      eapply elem_of_delete_ne; [exact Hi | congruence | done].
  - rewrite (count_insert _ _ _ _ _ HPc). simpl.
    destruct v; simpl; [done | |]; lia.
  - rewrite (count_insert _ _ _ _ _ HPc). simpl.
    destruct v; simpl; [done | |]; lia.
Qed.

Lemma mv_fail_queued P Φ q inf st n m i c k e :
  lifecycle_view None P Φ q inf st n m →
  q !! i = Some c → P !! c = Some Pending →
  (∀ c' ph, (c', k, ph) ∉ st) →
  lifecycle_view None (<[c := Rejected e]> P) (alter (λ _, failed) c Φ)
    (delete i q) (delete k inf) st n (m + 1).
Proof.
  intros [H1 H2 H3 H4 H5] Hi HPc Hk. split; try done.
  - intros c' k' ph' Hin. rewrite lookup_delete_ne; [by eapply H2 |].
    intros <-. by apply (Hk c' ph').
  - intros c' ph' v' HP HΦ _. destruct (decide (c' = c)) as [->|Hne].
    + rewrite list_lookup_insert_eq in HP by (by eapply lookup_lt_Some).
      rewrite list_lookup_alter_eq in HΦ. injection HP as <-.
      destruct (Φ !! c); [| done]. by injection HΦ as <-.
    + rewrite list_lookup_insert_ne in HP by done.
      rewrite list_lookup_alter_ne in HΦ by done.
      specialize (H3 c' ph' v' HP HΦ). destruct v'; try by apply H3.
      destruct H3 as [[H3 ->]|H3]; [done | left | by right].
      split; [| done]. by eapply elem_of_delete_ne.
  - rewrite (count_insert _ _ _ _ _ HPc). simpl. lia.
  - rewrite (count_insert _ _ _ _ _ HPc). simpl. lia.
Qed.

Lemma mv_launch P Φ c rest inf st n m k :
  lifecycle_view None P Φ (c :: rest) inf st n m →
  c ∉ rest → inf !! k = Some c → P !! c = Some Pending → c ∉ st.*1.*1 →
  lifecycle_view None P (alter (λ _, prefilling) c Φ) rest inf
    (st ++ [(c, k, prefilling)]) n m.
Proof.
  intros [H1 H2 H3 H4 H5] Hrest Hk HPc Hfresh. split; try done.
  - rewrite !fmap_app. simpl. apply NoDup_app. split; [done |].
    split; [| apply NoDup_singleton].
    intros x Hx Hx'. apply list_elem_of_singleton in Hx' as ->. done.
  - intros c' k' ph' Hin. apply elem_of_app in Hin as [Hin|Hin].
    + by eapply H2.
    + apply list_elem_of_singleton in Hin. by injection Hin as -> -> ->.
  - intros c' ph' v' HP HΦ _. destruct (decide (c' = c)) as [->|Hne].
    + rewrite HPc in HP. injection HP as <-.
      rewrite list_lookup_alter_eq in HΦ.
      destruct (Φ !! c); [| done]. injection HΦ as <-.
      right. exists k. apply elem_of_app. right. by left.
    + rewrite list_lookup_alter_ne in HΦ by done.
      specialize (H3 c' ph' v' HP HΦ). destruct v'; try by apply H3.
      destruct H3 as [[H3 ->]|[k' H3]]; [done | left | right].
      * split; [| done]. apply elem_of_cons in H3 as [->|H3]; done.
      * exists k'. apply elem_of_app. by left.
Qed.

Lemma mv_submit P Φ q inf st n m k :
  lifecycle_view None P Φ q inf st n m →
  length Φ = length P → (∀ c' ph, (c', k, ph) ∉ st) →
  lifecycle_view None (P ++ [Pending]) (Φ ++ [queued]) (q ++ [length P])
    (<[k := length P]> inf) st n m.
Proof.
  intros [H1 H2 H3 H4 H5] Hlen Hk. split; try done.
  - intros c' k' ph' Hin. rewrite lookup_insert_ne; [by eapply H2 |].
    intros <-. by apply (Hk c' ph').
  - intros c' ph' v' HP HΦ _.
    apply lookup_app_Some in HP as [HP|[Hge HP]].
    + apply lookup_lt_Some in HP as Hlt.
      rewrite lookup_app_l in HΦ by lia.
      specialize (H3 c' ph' v' HP HΦ). destruct v'; try by apply H3.
      destruct H3 as [[H3 ->]|H3]; [done | left | by right].
      split; [| done]. apply elem_of_app. by left.
    + rewrite lookup_app_r in HΦ by lia. rewrite Hlen in HΦ.
      destruct (c' - length P) as [|j] eqn:Hj; [| done].
      injection HP as <-. injection HΦ as <-. left. split; [| done].
      apply elem_of_app. right. apply list_elem_of_singleton. lia.
  - rewrite count_snoc. simpl. lia.
  - rewrite count_snoc. simpl. lia.
Qed.
End lifecycle_moves.

(** *** The invariant along the steps *)

Lemma life_ok_eq skip s' P Φ q inf st n m :
  promises_of s' = P → phases_of s' = Φ →
  PDScheduler.queue s' = q → PDScheduler.inflight s' = inf →
  stages s' = st →
  HealthMonitor.completed (PDScheduler.health s') = n →
  HealthMonitor.failed (PDScheduler.health s') = m →
  lifecycle_view skip P Φ q inf st n m → life_ok skip s'.
Proof. by intros <- <- <- <- <- <- <-. Qed.

Lemma keeps_phase_set_prefillWorkerId w :
  keeps_phase (InferenceRequest.set_prefillWorkerId w).
Proof. by intros r. Qed.
Lemma keeps_phase_set_decodeWorkerId w :
  keeps_phase (InferenceRequest.set_decodeWorkerId w).
Proof. by intros r. Qed.
Lemma keeps_phase_set_kvCacheHandle h :
  keeps_phase (InferenceRequest.set_kvCacheHandle h).
Proof. by intros r. Qed.

#[local] Hint Resolve keeps_phase_set_prefillWorkerId
  keeps_phase_set_decodeWorkerId keeps_phase_set_kvCacheHandle : sched.

Lemma life_ok_mutate_keep k c f s :
  keeps_phase f → life_ok k s → life_ok k (PDScheduler.mutate_request c f s).
Proof.
  intros Hf H. unfold life_ok in *.
  rewrite promises_of_mutate_request, (phases_of_mutate_keep _ _ _ Hf).
  exact H.
Qed.

Lemma life_ok_mutate_phase c p s :
  life_ok (Some c) s →
  life_ok (Some c)
    (PDScheduler.mutate_request c (InferenceRequest.set_phase p) s).
Proof.
  intros H. unfold life_ok in *.
  rewrite promises_of_mutate_request, phases_of_mutate_phase.
  by apply mv_phase.
Qed.

Lemma life_ok_same k s s' :
  PDScheduler.store s' = PDScheduler.store s →
  PDScheduler.queue s' = PDScheduler.queue s →
  PDScheduler.inflight s' = PDScheduler.inflight s →
  PDScheduler.pipelines s' = PDScheduler.pipelines s →
  HealthMonitor.completed (PDScheduler.health s')
  = HealthMonitor.completed (PDScheduler.health s) →
  HealthMonitor.failed (PDScheduler.health s')
  = HealthMonitor.failed (PDScheduler.health s) →
  life_ok k s → life_ok k s'.
Proof.
  unfold life_ok, promises_of, phases_of, stages.
  by intros -> -> -> -> -> ->.
Qed.

Lemma life_ok_set_pool k v s : life_ok k s → life_ok k (PDScheduler.set_pool v s).
Proof. by apply life_ok_same. Qed.
Lemma life_ok_emit k v s : life_ok k s → life_ok k (PDScheduler.emit v s).
Proof. by apply life_ok_same. Qed.
Lemma life_ok_set_kvManager k v s : life_ok k s → life_ok k (PDScheduler.set_kvManager v s).
Proof. by apply life_ok_same. Qed.
Lemma life_ok_set_activePrefills k v s : life_ok k s → life_ok k (PDScheduler.set_activePrefills v s).
Proof. by apply life_ok_same. Qed.
Lemma life_ok_set_activeDecodes k v s : life_ok k s → life_ok k (PDScheduler.set_activeDecodes v s).
Proof. by apply life_ok_same. Qed.

Ltac life_peel :=
  repeat match goal with
    | |- life_ok _ (PDScheduler.set_pool _ _) => apply life_ok_set_pool
    | |- life_ok _ (PDScheduler.emit _ _) => apply life_ok_emit
    | |- life_ok _ (PDScheduler.set_kvManager _ _) => apply life_ok_set_kvManager
    | |- life_ok _ (PDScheduler.set_activePrefills _ _) => apply life_ok_set_activePrefills
    | |- life_ok _ (PDScheduler.set_activeDecodes _ _) => apply life_ok_set_activeDecodes
    | |- life_ok _ (PDScheduler.mutate_request _
                      (InferenceRequest.set_phase _) _) =>
        apply life_ok_mutate_phase
    | |- life_ok _ (PDScheduler.mutate_request _ _ _) =>
        apply life_ok_mutate_keep; [by auto with sched |]
    end.

Lemma stage_entry s i p :
  PDScheduler.pipelines s !! i = Some p →
  stages s !! i
  = Some (PDScheduler.frame_request (PDScheduler.frame p),
          PDScheduler.frame_rid (PDScheduler.frame p), stage p).
Proof. intros Hi. unfold stages. by rewrite list_lookup_fmap, Hi. Qed.

Lemma pipeline_inflight k0 s i p :
  life_ok k0 s → PDScheduler.pipelines s !! i = Some p →
  PDScheduler.inflight s !! PDScheduler.frame_rid (PDScheduler.frame p)
  = Some (PDScheduler.frame_request (PDScheduler.frame p)).
Proof.
  intros H Hi. apply (lv_inflight _ _ _ _ _ _ _ _ H _ _ (stage p)).
  eapply list_elem_of_lookup_2. by apply stage_entry.
Qed.

Lemma life_ok_caught k0 i f err now s p :
  sched_invariant s → life_ok k0 s →
  k0 = None ∨ k0 = Some (PDScheduler.frame_request f) →
  PDScheduler.pipelines s !! i = Some p → PDScheduler.frame p = f →
  life_ok None (PDScheduler.caught i f err now s).
Proof.
  intros Hs H Hk0 Hi <-.
  pose proof (pipeline_inflight _ _ _ _ H Hi) as Hk.
  pose proof (inflight_pending _ _ _ Hs Hk) as Hp.
  unfold PDScheduler.caught.
  destruct (fail_known (PDScheduler.frame_rid (PDScheduler.frame p))
              (as_error err) now
              (PDScheduler.set_pipelines (delete i (PDScheduler.pipelines s)) s)
              _ Hk Hp) as (HP & HF & HC & HFl).
  destruct (fail_effect (PDScheduler.frame_rid (PDScheduler.frame p))
              (as_error err) now
              (PDScheduler.set_pipelines (delete i (PDScheduler.pipelines s)) s))
    as (_ & _ & Hq & Hinf & _ & Hpl & _).
  eapply life_ok_eq; [exact HP | exact HF | exact Hq | exact Hinf
                     | unfold stages; rewrite Hpl; simpl;
                       apply list_fmap_delete
                     | exact HC | exact HFl |].
  view_peel. simpl.
  eapply mv_terminal; [exact H | exact Hk0 | by apply stage_entry | exact Hp |].
  done.
Qed.

Lemma life_ok_restage c i p p' s :
  sched_invariant s → life_ok (Some c) s →
  PDScheduler.pipelines s !! i = Some p →
  PDScheduler.frame p' = PDScheduler.frame p →
  PDScheduler.frame_request (PDScheduler.frame p) = c →
  phases_of s !! c = Some (stage p') →
  life_ok None
    (PDScheduler.set_pipelines (<[i := p']> (PDScheduler.pipelines s)) s).
Proof.
  intros Hs H Hi Hf Hc HΦ.
  pose proof (pipeline_inflight _ _ _ _ H Hi) as Hk.
  pose proof (inflight_pending _ _ _ Hs Hk) as Hp. rewrite Hc in Hp.
  eapply (life_ok_eq _ _ _ _ _ _
            (<[i := (c, PDScheduler.frame_rid (PDScheduler.frame p), stage p')]>
               (stages s)));
    [reflexivity | reflexivity | reflexivity | reflexivity | | reflexivity
    | reflexivity |].
  - unfold stages. simpl. rewrite list_fmap_insert, Hf, Hc. reflexivity.
  - eapply (mv_restage _ _ _ _ _ _ _ i c); [exact H | | exact Hp | exact HΦ].
    rewrite (stage_entry _ _ _ Hi), Hc. reflexivity.
Qed.

Lemma stage_frame s c k ph :
  (c, k, ph) ∈ stages s →
  ∃ p, p ∈ PDScheduler.pipelines s
       ∧ PDScheduler.frame_request (PDScheduler.frame p) = c
       ∧ PDScheduler.frame_rid (PDScheduler.frame p) = k
       ∧ stage p = ph.
Proof.
  unfold stages. intros Hin. apply list_elem_of_fmap in Hin as (p & Heq & Hp).
  injection Heq as -> -> ->. by exists p.
Qed.

(** The request of a pipeline is not in the queue, and its id is the one
    the pipeline captured. *)
Lemma stage_not_queued s c k ph :
  sched_invariant s → (c, k, ph) ∈ stages s →
  (c ∉ PDScheduler.queue s) ∧ ids s !! c = Some k.
Proof.
  intros Hs Hin. apply stage_frame in Hin as (p & Hp & <- & <- & _).
  apply (inv_frames _ _ _ _ _ _ Hs). unfold frames.
  by apply list_elem_of_fmap_2.
Qed.

Lemma submit_counters opts now s :
  HealthMonitor.completed (PDScheduler.health (PDScheduler.submit opts now s).2)
  = HealthMonitor.completed (PDScheduler.health s)
  ∧ HealthMonitor.failed (PDScheduler.health (PDScheduler.submit opts now s).2)
    = HealthMonitor.failed (PDScheduler.health s).
Proof. unfold PDScheduler.submit. by case_match. Qed.

Lemma life_ok_submit opts now s :
  sched_invariant s → life_ok None s →
  life_ok None (PDScheduler.submit opts now s).2.
Proof.
  intros Hs H.
  destruct (Z.le_gt_cases
              (PDSchedulerConfig.maxQueueSize (PDScheduler.config s))
              (Z.of_nat (length (PDScheduler.queue s)))) as [Hfull|Hfree].
  { by rewrite submit_full. }
  destruct (submit_accepted opts now s Hfree) as (_ & Hst & Hq & Hi & _ & Hpl & _).
  destruct (submit_counters opts now s) as [HC HF].
  eapply life_ok_eq;
    [ unfold promises_of; rewrite Hst, fmap_app; reflexivity
    | unfold phases_of; rewrite Hst, fmap_app; reflexivity
    | exact Hq | exact Hi | unfold stages; by rewrite Hpl
    | exact HC | exact HF |].
  simpl. rewrite <- (length_fmap PDScheduler.promise (PDScheduler.store s)).
  apply mv_submit; [exact H | unfold phases_of, promises_of; by rewrite !length_fmap |].
  intros c' ph Hin. destruct (stage_not_queued _ _ _ _ Hs Hin) as [_ Hid].
  pose proof (inv_issued _ _ _ _ _ _ Hs) as Hiss.
  rewrite Forall_forall in Hiss.
  destruct (Hiss _ (list_elem_of_lookup_2 _ _ _ Hid)) as (t & n & Heq & Hn).
  change (issued_id now (PDScheduler.idCounter s + 1) = issued_id t n) in Heq.
  apply issued_id_inj in Heq. lia.
Qed.

Lemma life_ok_sweep_at i now s :
  sched_invariant s → life_ok None s →
  life_ok None (PDScheduler.sweep_at i now s).
Proof.
  intros Hs H. unfold PDScheduler.sweep_at.
  destruct (PDScheduler.queue s !! i) as [c|] eqn:Hi; [| done].
  destruct (PDScheduler.request_at (PDScheduler.store s) c) as [req|] eqn:Hreq;
    [| done].
  case_match; [| done].
  assert (Hin : c ∈ PDScheduler.queue s) by (by eapply list_elem_of_lookup_2).
  pose proof (queued_inflight _ _ _ Hs Hin Hreq) as Hk.
  pose proof (inflight_pending _ _ _ Hs Hk) as Hp.
  destruct (fail_known (InferenceRequest.requestId req)
              (ErrorObj "Request timed out in queue") now
              (PDScheduler.set_queue (delete i (PDScheduler.queue s)) s)
              _ Hk Hp) as (HP & HF & HC & HFl).
  destruct (fail_effect (InferenceRequest.requestId req)
              (ErrorObj "Request timed out in queue") now
              (PDScheduler.set_queue (delete i (PDScheduler.queue s)) s))
    as (_ & _ & Hq & Hinf & _ & Hpl & _).
  eapply life_ok_eq; [exact HP | exact HF | exact Hq | exact Hinf
                     | unfold stages; by rewrite Hpl | exact HC | exact HFl |].
  view_peel. simpl.
  apply mv_fail_queued; [exact H | exact Hi | exact Hp |].
  intros c' ph Hst.
  pose proof (lv_inflight _ _ _ _ _ _ _ _ H _ _ _ Hst) as Hk'.
  rewrite Hk in Hk'. injection Hk' as <-.
  by destruct (stage_not_queued _ _ _ _ Hs Hst) as [Hnq _].
Qed.

Lemma life_ok_sweep n now : ∀ s,
  sched_invariant s → life_ok None s → life_ok None (PDScheduler.sweep n now s).
Proof.
  induction n as [|n IH]; intros s Hs H; [done |]. simpl.
  apply IH; [by apply sched_invariant_sweep_at | by apply life_ok_sweep_at].
Qed.

Lemma life_ok_launch c rest w now s :
  sched_invariant s → life_ok None s → PDScheduler.queue s = c :: rest →
  life_ok None (PDScheduler.runPipeline c w now (PDScheduler.set_queue rest s)).
Proof.
  intros Hs H Hq.
  assert (Hin : c ∈ PDScheduler.queue s) by (rewrite Hq; by left).
  destruct (sched_invariant_valid _ c Hs Hin) as [r Hr].
  pose proof (queued_inflight _ _ _ Hs Hin Hr) as Hk.
  pose proof (inflight_pending _ _ _ Hs Hk) as Hp.
  destruct (runPipeline_effect c w now (PDScheduler.set_queue rest s) r Hr)
    as (_ & _ & Hqu & Hinf & _ & Hpl).
  destruct (runPipeline_life c w now (PDScheduler.set_queue rest s) r Hr)
    as (HP & HF & HC & HFl & _).
  eapply life_ok_eq; [exact HP | exact HF | exact Hqu | exact Hinf
                     | unfold stages; rewrite Hpl, fmap_app; reflexivity
                     | exact HC | exact HFl |].
  view_peel. simpl.
  pose proof (inv_queue_nodup _ _ _ _ _ _ Hs) as Hnd. rewrite Hq in Hnd.
  apply NoDup_cons in Hnd as [Hrest _].
  apply mv_launch; [by rewrite <- Hq | exact Hrest | exact Hk | exact Hp |].
  intros Hst. apply list_elem_of_fmap in Hst as ([c' k'] & -> & Hst).
  apply list_elem_of_fmap in Hst as ([[c'' k''] ph] & Heq & Hst).
  simpl in Heq. injection Heq as <- <-.
  by destruct (stage_not_queued _ _ _ _ Hs Hst) as [Hnq _].
Qed.

Lemma life_ok_dispatch now s :
  sched_invariant s → life_ok None s → life_ok None (PDScheduler.dispatch now s).
Proof.
  intros Hs H. rewrite dispatch_unfold. case_bool_decide; [done |].
  pose proof (sched_invariant_sorted_and_swept now s Hs) as Hs2.
  assert (H2 : life_ok None (sorted_and_swept now s)).
  { unfold sorted_and_swept. apply life_ok_sweep.
    - apply sched_invariant_set_queue; [done | |].
      + rewrite sort_Permutation. apply (inv_queue_nodup _ _ _ _ _ _ Hs).
      + intros x. by rewrite sort_Permutation.
    - unfold life_ok in *. view_peel. simpl.
      eapply mv_perm; [| exact H]. by rewrite sort_Permutation. }
  destruct (WorkerPool.select _ _ _) as [[w|] pool']; simpl; [| exact H2].
  destruct (PDScheduler.queue (sorted_and_swept now s)) as [|c rest] eqn:Hq;
    [exact H2 |].
  by apply (life_ok_launch c rest (WorkerInfo.id w) now
              (PDScheduler.set_pool pool' (sorted_and_swept now s))).
Qed.

Lemma phase_after_set c p s ph0 :
  phases_of s !! c = Some ph0 →
  phases_of (PDScheduler.mutate_request c (InferenceRequest.set_phase p) s) !! c
  = Some p.
Proof.
  intros H. by rewrite phases_of_mutate_phase, list_lookup_alter_eq, H.
Qed.

Lemma pipeline_phase k0 s i p :
  sched_invariant s → life_ok k0 s →
  PDScheduler.pipelines s !! i = Some p →
  is_Some (phases_of s !! PDScheduler.frame_request (PDScheduler.frame p)).
Proof.
  intros Hs H Hi. pose proof (pipeline_inflight _ _ _ _ H Hi) as Hk.
  pose proof (inflight_pending _ _ _ Hs Hk) as Hp.
  apply lookup_lt_Some in Hp. apply lookup_lt_is_Some.
  unfold phases_of, promises_of in *. rewrite length_fmap in Hp.
  by rewrite length_fmap.
Qed.

Lemma life_ok_prefilled i f outcome now s :
  sched_invariant s → life_ok None s →
  PDScheduler.pipelines s !! i = Some (PDScheduler.AwaitPrefill f) →
  life_ok None (PDScheduler.runPipeline_prefilled i f outcome now s).
Proof.
  intros Hs H Hi. unfold PDScheduler.runPipeline_prefilled.
  destruct outcome as [err|prefillResult];
    [eapply life_ok_caught; eauto |].
  destruct (pipeline_phase _ _ _ _ Hs H Hi) as [ph0 Hph].
  apply (mv_skip (PDScheduler.frame_request f)) in H.
  destruct (WorkerPool.select _ _ _) as [[decodeWorker|] pool'].
  - destruct (PDScheduler.frame_prefillWorker f) as [prefillWorker|].
    + destruct (KVCacheTransferManager.transfer _ _ _) as [q kv].
      eapply (life_ok_restage (PDScheduler.frame_request f));
        [| | exact Hi | done | done |].
      * by invariant_peel.
      * by life_peel.
      * view_peel. rewrite phases_of_mutate_keep by auto with sched.
        view_peel. eapply phase_after_set.
        rewrite phases_of_mutate_keep by auto with sched. view_peel.
        exact Hph.
    + eapply life_ok_caught; [| | by right | exact Hi | done].
      * by invariant_peel.
      * by life_peel.
  - eapply life_ok_caught; [| | by right | exact Hi | done].
    + by invariant_peel.
    + by life_peel.
Qed.

Lemma life_ok_transferred i f prefillResult decodeWorker q outcome now s :
  sched_invariant s → life_ok None s →
  PDScheduler.pipelines s !! i
  = Some (PDScheduler.AwaitTransfer f prefillResult decodeWorker q) →
  life_ok None
    (PDScheduler.runPipeline_transferred i f prefillResult decodeWorker
       outcome now s).
Proof.
  intros Hs H Hi. unfold PDScheduler.runPipeline_transferred.
  destruct outcome as [err|transferResult];
    [eapply life_ok_caught; eauto |].
  destruct (KVCacheTransferResult.success transferResult); cbn [negb].
  - destruct (pipeline_phase _ _ _ _ Hs H Hi) as [ph0 Hph].
    apply (mv_skip (PDScheduler.frame_request f)) in H.
    eapply (life_ok_restage (PDScheduler.frame_request f));
      [| | exact Hi | done | done |].
    + by invariant_peel.
    + by life_peel.
    + view_peel. eapply phase_after_set. view_peel. exact Hph.
  - eapply life_ok_caught; eauto.
Qed.

Lemma life_ok_decoded i f prefillResult decodeWorker transferResult
    outcome now s :
  sched_invariant s → life_ok None s →
  PDScheduler.pipelines s !! i
  = Some (PDScheduler.AwaitDecode f prefillResult decodeWorker transferResult) →
  life_ok None
    (PDScheduler.runPipeline_decoded i f prefillResult decodeWorker
       outcome now s).
Proof.
  intros Hs H Hi. unfold PDScheduler.runPipeline_decoded.
  destruct outcome as [err|decodeResult];
    [eapply life_ok_caught; eauto |].
  pose proof (pipeline_inflight _ _ _ _ H Hi) as Hk.
  pose proof (inflight_pending _ _ _ Hs Hk) as Hp. simpl in Hk, Hp.
  cbv zeta.
  match goal with
  | |- context [match ?m !! ?k with _ => _ end] =>
      change m with (PDScheduler.inflight s)
  end.
  rewrite Hk.
  eapply life_ok_eq;
    [ rewrite promises_of_settle; view_peel;
      rewrite promises_of_mutate_request; view_peel;
      apply (alter_as_insert _ _ _ _ Hp)
    | rewrite phases_of_settle; view_peel;
      rewrite phases_of_mutate_phase; view_peel; reflexivity
    | reflexivity | reflexivity
    | unfold stages; simpl; apply list_fmap_delete
    | reflexivity | reflexivity |].
  eapply mv_terminal; [exact H | by left | by apply (stage_entry _ _ _ Hi)
                      | exact Hp |].
  simpl. by repeat split.
Qed.

Lemma emit_many_counters {A} (f : A → SchedulerEvent) (l : list A) : ∀ h,
  HealthMonitor.completed (foldl (λ h x, HealthMonitor.emit (f x) h) h l)
  = HealthMonitor.completed h
  ∧ HealthMonitor.failed (foldl (λ h x, HealthMonitor.emit (f x) h) h l)
    = HealthMonitor.failed h.
Proof.
  induction l as [|x l IH]; intros h; [done |]. simpl.
  by destruct (IH (HealthMonitor.emit (f x) h)) as [-> ->].
Qed.

Lemma life_ok_step s s' :
  PDScheduler.step s s' → sched_invariant s → life_ok None s → life_ok None s'.
Proof.
  destruct 1 as [s|s|opts now s|now s Hrun|i f outcome now s Hi|i net now s Hi
                |i f pr dw q outcome now s Hi Hq|i f pr dw tr outcome now s Hi
                |op s|w result now s|now s]; intros Hs H.
  - unfold PDScheduler.start. by case_match.
  - done.
  - by apply life_ok_submit.
  - by apply life_ok_dispatch.
  - by apply life_ok_prefilled.
  - done.
  - by eapply life_ok_transferred.
  - by eapply life_ok_decoded.
  - done.
  - unfold HealthMonitor.probed. by destruct (HealthResult.healthy result).
  - unfold HealthMonitor.expire.
    destruct (WorkerPool.expireStaleWorkers _ _ _) as [expired pool'].
    destruct (emit_many_counters (λ wid, worker_offline wid now) expired
                (PDScheduler.health s)) as [HC HF].
    eapply life_ok_eq; [reflexivity | reflexivity | reflexivity | reflexivity
                       | reflexivity | exact HC | exact HF | exact H].
Qed.

Lemma life_ok_reachable config s :
  PDScheduler.reachable config s → sched_invariant s ∧ life_ok None s.
Proof.
  intros [now Hr]. apply rtc_nsteps in Hr as [n Hr].
  revert s Hr. induction n as [|n IH]; intros s Hr.
  - inversion Hr; subst. split; [apply invariant_empty |].
    split; simpl; try done; [constructor | by intros c k ph ?%elem_of_nil].
  - apply nsteps_inv_r in Hr as (s0 & Hr & Hstep).
    destruct (IH _ Hr) as [Hs H]. split.
    + by eapply sched_invariant_step.
    + by eapply life_ok_step.
Qed.

(** *** Counting *)

Lemma filter_ext_in {A} (P1 P2 : A → Prop)
    `{!∀ x, Decision (P1 x), !∀ x, Decision (P2 x)} (l : list A) :
  Forall (λ x, P1 x ↔ P2 x) l → filter P1 l = filter P2 l.
Proof.
  induction 1 as [|x l Hx _ IH]; [done |].
  rewrite !filter_cons, IH. by repeat case_decide; try tauto.
Qed.

Lemma pending_positions {A} (ps : list (Settlement A)) (k : nat) :
  length (filter (λ i, is_pending <$> ps !! (i - k) = Some true)
                 (seq k (length ps)))
  = length (filter (λ v, is_pending v = true) ps).
Proof.
  revert k. induction ps as [|v ps IH]; intros k; [done |].
  cbn [length seq]. rewrite !filter_cons.
  replace (k - k) with 0 by lia. cbn [lookup list_lookup fmap option_fmap option_map].
  assert (Hshift : filter (λ i, is_pending <$> (v :: ps) !! (i - k) = Some true)
                     (seq (S k) (length ps))
                   = filter (λ i, is_pending <$> ps !! (i - S k) = Some true)
                       (seq (S k) (length ps))).
  { apply filter_ext_in. apply Forall_forall. intros i Hi.
    apply elem_of_seq in Hi.
    replace (i - k) with (S (i - S k)) by lia. done. }
  rewrite Hshift.
  destruct v; repeat case_decide; simpl; try done; by rewrite IH.
Qed.

Lemma pending_exactly_length {A} (L : list nat) (ps : list (Settlement A)) :
  pending_exactly L ps →
  length L = length (filter (λ v, is_pending v = true) ps).
Proof.
  intros [Hnd Hiff]. rewrite <- (pending_positions ps 0).
  apply Permutation_length, NoDup_Permutation; [done | |].
  - apply NoDup_filter, NoDup_seq.
  - intros c. rewrite Hiff, list_elem_of_filter, elem_of_seq.
    replace (c - 0) with c by lia. split.
    + intros Hc. rewrite Hc. split; [done |]. apply lookup_lt_Some in Hc. lia.
    + intros [Hc _]. destruct (ps !! c) as [[| |]|]; simpl in Hc; congruence.
Qed.

Lemma settlement_partition {A} (ps : list (Settlement A)) :
  Z.of_nat (length ps)
  = (Z.of_nat (length (filter (λ v, is_pending v = true) ps))
     + count is_resolved ps + count is_rejected ps)%Z.
Proof.
  unfold count. induction ps as [|v ps IH]; [done |].
  rewrite !filter_cons. cbn [length].
  destruct v; repeat case_decide; simpl in *; try done; lia.
Qed.

(** The requests with a pending promise are those in the queue and those
    held by a pipeline, each once. *)
Lemma pending_held s :
  sched_invariant s → life_ok None s →
  pending_exactly (PDScheduler.queue s ++ (stages s).*1.*1) (promises_of s).
Proof.
  intros Hs H. split.
  - apply NoDup_app. split; [apply (inv_queue_nodup _ _ _ _ _ _ Hs) |].
    split; [| apply (lv_requests _ _ _ _ _ _ _ _ H)].
    intros c Hq Hst. apply list_elem_of_fmap in Hst as ([c' k'] & -> & Hst).
    apply list_elem_of_fmap in Hst as ([[c'' k''] ph] & Heq & Hst).
    simpl in Heq. injection Heq as <- <-.
    by destruct (stage_not_queued _ _ _ _ Hs Hst) as [Hnq _].
  - intros c. rewrite elem_of_app. split.
    + intros [Hq|Hst].
      * destruct (sched_invariant_valid _ c Hs Hq) as [r Hr].
        eapply inflight_pending; [done |]. by apply queued_inflight.
      * apply list_elem_of_fmap in Hst as ([c' k'] & -> & Hst).
        apply list_elem_of_fmap in Hst as ([[c'' k''] ph] & Heq & Hst).
        simpl in Heq. injection Heq as <- <-.
        eapply inflight_pending; [done |].
        by apply (lv_inflight _ _ _ _ _ _ _ _ H _ _ _ Hst).
    + intros Hp.
      assert (is_Some (phases_of s !! c)) as [ph Hph].
      { apply lookup_lt_Some in Hp. apply lookup_lt_is_Some.
        unfold phases_of, promises_of in *. rewrite length_fmap in Hp.
        by rewrite length_fmap. }
      assert (Hskip : (None : option nat) ≠ Some c) by done.
      destruct (lv_phase _ _ _ _ _ _ _ _ H c ph Pending Hp Hph Hskip)
        as [[Hq _]|[k Hst]]; [by left | right].
      apply list_elem_of_fmap. exists (c, k). split; [done |].
      apply list_elem_of_fmap. by exists (c, k, ph).
Qed.

(** *** The transfer manager of a scheduler *)

Lemma kvManager_caught i f err now s :
  PDScheduler.kvManager (PDScheduler.caught i f err now s)
  = PDScheduler.kvManager s.
Proof.
  unfold PDScheduler.caught.
  by destruct (fail_effect (PDScheduler.frame_rid f) (as_error err) now
                 (PDScheduler.set_pipelines (delete i (PDScheduler.pipelines s)) s))
    as (_ & _ & _ & _ & _ & _ & _ & -> & _).
Qed.

Lemma kvManager_runPipeline c w now s :
  PDScheduler.kvManager (PDScheduler.runPipeline c w now s)
  = PDScheduler.kvManager s.
Proof.
  unfold PDScheduler.runPipeline.
  by destruct (PDScheduler.request_at (PDScheduler.store s) c).
Qed.

Lemma kvManager_step s s' :
  PDScheduler.step s s' →
  PDScheduler.kvManager s' = PDScheduler.kvManager s
  ∨ KVCacheTransferManager.step (PDScheduler.kvManager s)
                                (PDScheduler.kvManager s').
Proof.
  destruct 1 as [s|s|opts now s|now s Hrun|i f outcome now s Hi|i net now s Hi
                |i f pr dw q outcome now s Hi Hq|i f pr dw tr outcome now s Hi
                |op s|w result now s|now s].
  - left. unfold PDScheduler.start. by case_match.
  - by left.
  - left. unfold PDScheduler.submit. by case_match.
  - left. rewrite dispatch_unfold. case_bool_decide; [done |].
    destruct (sorted_and_swept_frame now s) as (_ & _ & _ & _ & Hkv & _).
    destruct (WorkerPool.select _ _ _) as [[w|] pool']; simpl; [| done].
    destruct (PDScheduler.queue (sorted_and_swept now s)) as [|c rest];
      [done |].
    by rewrite kvManager_runPipeline.
  - unfold PDScheduler.runPipeline_prefilled.
    destruct outcome as [err|prefillResult];
      [left; by rewrite kvManager_caught |].
    destruct (WorkerPool.select _ _ _) as [[decodeWorker|] pool'].
    + destruct (PDScheduler.frame_prefillWorker f) as [prefillWorker|].
      * right.
        match goal with
        | |- context [KVCacheTransferManager.transfer ?req ?t ?kv] =>
            change kv with (PDScheduler.kvManager s);
            pose proof (KVCacheTransferManager.step_transfer req t
                          (PDScheduler.kvManager s)) as Hstep;
            destruct (KVCacheTransferManager.transfer req t
                        (PDScheduler.kvManager s)) as [q kv']
        end.
        exact Hstep.
      * left. by rewrite kvManager_caught.
    + left. by rewrite kvManager_caught.
  - right. by constructor.
  - left. unfold PDScheduler.runPipeline_transferred.
    destruct outcome as [err|transferResult]; [by rewrite kvManager_caught |].
    destruct (KVCacheTransferResult.success transferResult); cbn [negb];
      [done | by rewrite kvManager_caught].
  - left. unfold PDScheduler.runPipeline_decoded.
    destruct outcome as [err|decodeResult]; [by rewrite kvManager_caught |].
    cbv zeta.
    match goal with
    | |- context [match ?m !! ?k with _ => _ end] => by destruct (m !! k)
    end.
  - by left.
  - left. by destruct (HealthMonitor.probed _ _ _ _).
  - left. by destruct (HealthMonitor.expire _ _ _).
Qed.

Lemma kvManager_reachable config s :
  PDScheduler.reachable config s →
  KVCacheTransferManager.reachable (PDSchedulerConfig.kvTransfer config)
    (PDScheduler.kvManager s).
Proof.
  intros [now Hr]. apply rtc_nsteps in Hr as [n Hr].
  revert s Hr. induction n as [|n IH]; intros s Hr.
  - inversion Hr; subst. apply rtc_refl.
  - apply nsteps_inv_r in Hr as (s0 & Hr & Hstep).
    destruct (kvManager_step _ _ Hstep) as [->|Hkv]; [by apply IH |].
    eapply rtc_r; [by apply IH | done].
Qed.



(** In every state the scheduler can reach, the phase of a request agrees
    with its promise and with where it is held: resolved means completed,
    rejected means failed, and a request whose promise is pending is either
    in the queue with phase queued and in no pipeline, or out of the queue
    and held by a pipeline suspended at the stage its phase names
    (prefilling, transferring or decoding). No two pipelines hold the same
    request, and a request is in the in-flight table exactly while its
    promise is pending. *)
Theorem request_phase_follows_pipeline config s :
  PDScheduler.reachable config s →
  (∀ c cell, PDScheduler.store s !! c = Some cell →
     let ph := InferenceRequest.phase (PDScheduler.request cell) in
     match PDScheduler.promise cell with
     | Resolved _ => ph = completed
     | Rejected _ => ph = failed
     | Pending =>
         (c ∈ PDScheduler.queue s ∧ ph = queued ∧ ¬ in_pipeline s c)
         ∨ ((c ∉ PDScheduler.queue s)
            ∧ ∃ p, p ∈ PDScheduler.pipelines s
                   ∧ PDScheduler.frame_request (PDScheduler.frame p) = c
                   ∧ ph = stage p)
     end
     ∧ (PDScheduler.inflight s !! cell_id cell = Some c
        ↔ PDScheduler.promise cell = Pending))
  ∧ NoDup ((λ p, PDScheduler.frame_request (PDScheduler.frame p))
             <$> PDScheduler.pipelines s).
Proof.
  intros Hr. destruct (life_ok_reachable _ _ Hr) as [Hs H]. split.
  - intros c cell Hcell ph.
    assert (HP : promises_of s !! c = Some (PDScheduler.promise cell)).
    { unfold promises_of. by rewrite list_lookup_fmap, Hcell. }
    assert (HΦ : phases_of s !! c = Some ph).
    { unfold phases_of. by rewrite list_lookup_fmap, Hcell. }
    assert (Hid : ids s !! c = Some (cell_id cell)).
    { unfold ids. by rewrite list_lookup_fmap, Hcell. }
    assert (Hskip : (None : option nat) ≠ Some c) by done.
    pose proof (lv_phase _ _ _ _ _ _ _ _ H c ph _ HP HΦ Hskip) as Hfit.
    split.
    + destruct (PDScheduler.promise cell); try exact Hfit.
      destruct Hfit as [[Hq Hph]|[k Hst]].
      * left. split; [done |]. split; [done |].
        intros (p & Hp & Hfc).
        destruct (inv_frames _ _ _ _ _ _ Hs (PDScheduler.frame p)) as [Hnq _].
        { unfold frames. by apply list_elem_of_fmap_2. }
        by rewrite Hfc in Hnq.
      * right. destruct (stage_not_queued _ _ _ _ Hs Hst) as [Hnq _].
        split; [done |].
        apply stage_frame in Hst as (p & Hp & Hfc & _ & Hstage).
        by exists p.
    + rewrite <- (inv_pending _ _ _ _ _ _ Hs c _ Hid), promises_of_pending.
      rewrite HP. split; congruence.
  - pose proof (lv_requests _ _ _ _ _ _ _ _ H) as Hnd.
    unfold stages in Hnd. by rewrite <- !list_fmap_compose in Hnd.
Qed.

Lemma request_phase_follows_pipeline_witness :
  let config := PDSchedulerConfig.mk true least_loaded 60000 30000 10 5000
                  [WorkerSeedConfig.mk "p1" "http://p1:8000" prefill "m" None]
                  (KvTransferConfig.mk 2 5000) in
  let opts := SubmitOptions.mk "m" (PromptText "hello") None None None in
  let s0 := PDScheduler.create config 0 in
  let s1 := (PDScheduler.submit opts 7 s0).2 in
  let s2 := PDScheduler.dispatch 8 (PDScheduler.start s1) in
  phases_of s2 = [prefilling]
  ∧ stages s2 = [(0%nat, "req-7-1", prefilling)]
  ∧ NoDup ((λ p, PDScheduler.frame_request (PDScheduler.frame p))
             <$> PDScheduler.pipelines s2).
Proof.
  intros config opts s0 s1 s2.
  assert (Hr : PDScheduler.reachable config s2).
  { eapply sched_reachable_step; [| by apply PDScheduler.step_dispatch].
    eapply sched_reachable_step; [| apply PDScheduler.step_start].
    eapply sched_reachable_step; [| apply PDScheduler.step_submit].
    apply sched_reachable_create. }
  split; [reflexivity |]. split; [reflexivity |].
  exact (proj2 (request_phase_follows_pipeline config s2 Hr)).
Defined.

(** In every state the scheduler can reach, when the decode call of a
    pipeline succeeds the caller's promise is resolved with a result that
    carries the request's own id, the text and token count of the decode
    answer, the two stage latencies, the time since the pipeline started,
    and the ids of the two workers; the request becomes completed, leaves
    the in-flight table, and the completed counter goes up by one. *)
Theorem decode_success_resolves config s i f prefillResult decodeWorker
    transferResult decodeResult now :
  PDScheduler.reachable config s →
  PDScheduler.pipelines s !! i
  = Some (PDScheduler.AwaitDecode f prefillResult decodeWorker transferResult) →
  let c := PDScheduler.frame_request f in
  let s' := PDScheduler.runPipeline_decoded i f prefillResult decodeWorker
              (inr decodeResult) now s in
  ids s !! c = Some (PDScheduler.frame_rid f)
  ∧ promises_of s !! c = Some Pending
  ∧ promises_of s' !! c
    = Some (Resolved
              (InferenceResult.mk (PDScheduler.frame_rid f)
                 (DecodeResult.text decodeResult)
                 (DecodeResult.completionTokens decodeResult)
                 (PrefillResult.latencyMs prefillResult)
                 (DecodeResult.latencyMs decodeResult)
                 (now - PDScheduler.frame_prefillStart f)
                 (PDScheduler.frame_prefillWorkerId f)
                 (WorkerInfo.id decodeWorker)))
  ∧ phases_of s' !! c = Some completed
  ∧ PDScheduler.inflight s' !! PDScheduler.frame_rid f = None
  ∧ SchedulerMetrics.totalCompleted (PDScheduler.metrics s')
    = (SchedulerMetrics.totalCompleted (PDScheduler.metrics s) + 1)%Z
  ∧ ¬ in_pipeline s' c.
Proof.
  intros Hr Hi c s'. subst c. destruct (life_ok_reachable _ _ Hr) as [Hs H].
  pose proof (pipeline_inflight _ _ _ _ H Hi) as Hk.
  pose proof (inflight_pending _ _ _ Hs Hk) as Hp. simpl in Hk, Hp.
  destruct (pipeline_phase _ _ _ _ Hs H Hi) as [ph0 Hph]. simpl in Hph.
  pose proof (life_ok_decoded i f prefillResult decodeWorker transferResult
                (inr decodeResult) now s Hs H Hi) as H'.
  pose proof (sched_invariant_decoded i f prefillResult decodeWorker
                transferResult (inr decodeResult) now s Hs Hi) as Hs'inv.
  fold s' in H', Hs'inv.
  assert (∃ s1,
            s' = PDScheduler.settle (PDScheduler.frame_request f)
                   (Resolved
                      (InferenceResult.mk (PDScheduler.frame_rid f)
                         (DecodeResult.text decodeResult)
                         (DecodeResult.completionTokens decodeResult)
                         (PrefillResult.latencyMs prefillResult)
                         (DecodeResult.latencyMs decodeResult)
                         (now - PDScheduler.frame_prefillStart f)
                         (PDScheduler.frame_prefillWorkerId f)
                         (WorkerInfo.id decodeWorker)))
                   (PDScheduler.set_inflight
                      (delete (PDScheduler.frame_rid f) (PDScheduler.inflight s))
                      (PDScheduler.set_pipelines
                         (delete i
                            (PDScheduler.pipelines
                               (PDScheduler.mutate_request (PDScheduler.frame_request f)
                                  (InferenceRequest.set_phase completed) s1)))
                         (PDScheduler.mutate_request (PDScheduler.frame_request f)
                            (InferenceRequest.set_phase completed) s1)))
            ∧ PDScheduler.store s1 = PDScheduler.store s
            ∧ HealthMonitor.completed (PDScheduler.health s1)
              = (HealthMonitor.completed (PDScheduler.health s) + 1)%Z)
    as (s1 & Hs' & Hst1 & Hc1).
  { eexists. split; [| split].
    - unfold s', PDScheduler.runPipeline_decoded. cbv zeta.
      match goal with
      | |- context [match ?m !! ?k with _ => _ end] =>
          change m with (PDScheduler.inflight s)
      end.
      rewrite Hk. reflexivity.
    - reflexivity.
    - reflexivity. }
  clearbody s'.
  split; [by apply (inv_own _ _ _ _ _ _ Hs) |]. split; [exact Hp |].
  assert (HP' : promises_of s' !! PDScheduler.frame_request f = Some (Resolved
              (InferenceResult.mk (PDScheduler.frame_rid f)
                 (DecodeResult.text decodeResult)
                 (DecodeResult.completionTokens decodeResult)
                 (PrefillResult.latencyMs prefillResult)
                 (DecodeResult.latencyMs decodeResult)
                 (now - PDScheduler.frame_prefillStart f)
                 (PDScheduler.frame_prefillWorkerId f)
                 (WorkerInfo.id decodeWorker)))).
  { rewrite Hs'. rewrite promises_of_settle. view_peel.
    rewrite promises_of_mutate_request, (promises_of_store s s1 Hst1).
    rewrite list_lookup_alter_eq. by rewrite Hp. }
  split; [exact HP' |]. split.
  { rewrite Hs'. rewrite phases_of_settle. view_peel.
    rewrite phases_of_mutate_phase, (phases_of_store s s1 Hst1).
    rewrite list_lookup_alter_eq. by rewrite Hph. }
  split.
  { rewrite Hs'. cbn [PDScheduler.settle PDScheduler.set_store
                      PDScheduler.set_inflight PDScheduler.inflight].
    apply lookup_delete_eq. }
  split.
  { rewrite Hs'. exact Hc1. }
  intros (p & Hp' & Hfc).
  assert (Hst : (PDScheduler.frame_request f, PDScheduler.frame_rid (PDScheduler.frame p), stage p)
                ∈ stages s').
  { unfold stages. apply list_elem_of_fmap. exists p. by rewrite Hfc. }
  pose proof (lv_inflight _ _ _ _ _ _ _ _ H' _ _ _ Hst) as Hk'.
  pose proof (inflight_pending _ _ _ Hs'inv Hk') as Hpend.
  rewrite HP' in Hpend. done.
Qed.

Lemma decode_success_resolves_witness :
  let config := PDSchedulerConfig.mk true least_loaded 60000 30000 10 5000
                  [WorkerSeedConfig.mk "p1" "http://p1:8000" prefill "m" None;
                   WorkerSeedConfig.mk "d1" "http://d1:8000" decode "m" None]
                  (KvTransferConfig.mk 2 5000) in
  let opts := SubmitOptions.mk "m" (PromptText "hello") None None None in
  let answer := Response.mk true 200 (inr "") (inr (ObjectBody (Some "h2"))) in
  let net := Network.mk (inr answer) (λ _, inr answer) in
  let p1 := WorkerInfo.mk "p1" "http://p1:8000" prefill idle 0%Q 1 32 0 "m" in
  let d1 := WorkerInfo.mk "d1" "http://d1:8000" decode idle 0%Q 0 32 0 "m" in
  let f := PDScheduler.mkFrame 0 "req-7-1" "p1" 8 (Some p1) in
  let pr := PrefillResult.mk "h1" 3 20 in
  let tr := KVCacheTransferResult.mk "req-7-1" true 5 (Some "h2") None in
  let s0 := PDScheduler.create config 0 in
  let s1 := (PDScheduler.submit opts 7 s0).2 in
  let s2 := PDScheduler.dispatch 8 (PDScheduler.start s1) in
  let s3 := PDScheduler.runPipeline_prefilled 0 f (inr pr) 30 s2 in
  let s4 := PDScheduler.set_kvManager
              (KVCacheTransferManager.executeTransfer_resumed 0 net 35
                 (PDScheduler.kvManager s3)) s3 in
  let s5 := PDScheduler.runPipeline_transferred 0 f pr d1 (inr tr) 36 s4 in
  let s6 := PDScheduler.runPipeline_decoded 0 f pr d1
              (inr (DecodeResult.mk "hi" 2 40)) 80 s5 in
  promises_of s6 !! 0%nat
  = Some (Resolved (InferenceResult.mk "req-7-1" "hi" 2 20 40 72 "p1" "d1")).
Proof.
  intros config opts answer net p1 d1 f pr tr s0 s1 s2 s3 s4 s5 s6.
  assert (Hr : PDScheduler.reachable config s5).
  { eapply sched_reachable_step;
      [| by eapply (PDScheduler.step_transferred 0 f pr d1 0 (inr tr) 36 s4)].
    eapply sched_reachable_step;
      [| apply (PDScheduler.step_transfer_resumed 0 net 35 s3); by eexists].
    eapply sched_reachable_step;
      [| by apply (PDScheduler.step_prefilled 0 f (inr pr) 30 s2)].
    eapply sched_reachable_step; [| by apply PDScheduler.step_dispatch].
    eapply sched_reachable_step; [| apply PDScheduler.step_start].
    eapply sched_reachable_step; [| apply PDScheduler.step_submit].
    apply sched_reachable_create. }
  assert (Hi : PDScheduler.pipelines s5 !! 0%nat
               = Some (PDScheduler.AwaitDecode f pr d1 tr)) by reflexivity.
  exact (proj1 (proj2 (proj2
    (decode_success_resolves config s5 0 f pr d1 tr
       (DecodeResult.mk "hi" 2 40) 80 Hr Hi)))).
Defined.

(** ** The worker client *)

Section client.
Import VllmClient.

Lemma fall_through_not_own {A} own (e : Raised) :
  not_own own e → fall_through (A := A) own (inl e) = inr None.
Proof. destruct e as [m|m|s]; simpl; try done. by intros ->. Qed.

End client.

(** [health] never throws. It reports a worker healthy exactly when the
    probe got a success response whose body could be read and is not
    [null]; the [status] field of the body has no say. A result that is
    not healthy reports no load and carries an error message. After a
    healthy answer the monitor sets a registered worker to busy or idle by
    the reported load (0 when the body names none). *)
Theorem health_verdict probe :
  let result := VllmClient.health probe in
  (HealthResult.healthy result = true
   ↔ ∃ res body, probe = inr res ∧ VllmClient.ok res = true
                 ∧ VllmClient.json res = inr (Some body)
                 ∧ HealthResult.activeRequests result
                   = default 0%Z (VllmClient.active_requests body)
                 ∧ HealthResult.error result = None)
  ∧ (HealthResult.healthy result = false →
     HealthResult.gpuUtilization result = 0%Q
     ∧ HealthResult.activeRequests result = 0%Z
     ∧ is_Some (HealthResult.error result))
  ∧ (∀ res, probe = inr res → VllmClient.ok res = false →
       HealthResult.error result
       = Some ("HTTP " +:+ pretty (VllmClient.status res)))
  ∧ (∀ w pool h now,
       WorkerPool.get (WorkerInfo.id w) pool = Some w →
       HealthResult.healthy result = true →
       WorkerInfo.status
         <$> WorkerPool.get (WorkerInfo.id w)
               (HealthMonitor.probed w result now (pool, h)).1
       = Some (if (WorkerInfo.maxConcurrency w
                   <=? HealthResult.activeRequests result)%Z
               then busy else idle)).
Proof.
  intros result. subst result. unfold VllmClient.health, VllmClient.and_then.
  split; [| split; [| split]].
  - split.
    + destruct probe as [e|res]; [done |].
      destruct (VllmClient.ok res) eqn:Hok; simpl; [| done].
      destruct (VllmClient.json res) as [e|[body|]] eqn:Hj; simpl;
        [done | | done].
      intros _. by exists res, body.
    + intros (res & body & -> & Hok & Hj & _). rewrite Hok, Hj. simpl.
      by rewrite ?Hok, orb_true_r.
  - destruct probe as [e|res]; simpl; [by eauto |].
    destruct (VllmClient.ok res) eqn:Hok; simpl; [| by eauto].
    destruct (VllmClient.json res) as [e|[body|]]; simpl;
      [by eauto | | by eauto].
    by rewrite orb_true_r.
  - intros res -> Hok. by rewrite Hok.
  - intros w pool h now Hget Hhealthy. unfold HealthMonitor.probed.
    rewrite Hhealthy. simpl. unfold WorkerPool.updateMetrics.
    rewrite (get_mutate_eq _ _ _ _ Hget). done.
Qed.

Lemma health_verdict_witness :
  let body := VllmClient.mkHealthBody (Some "error") (Some (1 # 2)) (Some 3%Z) in
  let res := VllmClient.mkResponse true 200 (inr "") (inr (Some body)) in
  VllmClient.health (inr res) = HealthResult.mk true (1 # 2) 3 None
  ∧ HealthResult.healthy (VllmClient.health (inr res)) = true.
Proof.
  intros body res. split; [reflexivity |].
  apply (proj1 (health_verdict (inr res))). by exists res, body.
Defined.

Lemma fall_through_unavailable {B A} own (primary : VllmClient.Try (VllmClient.Response B))
    (k : B → A) (refuse : VllmClient.Response B → string → VllmClient.Raised)
    (property : string) :
  primary_unavailable own primary →
  VllmClient.fall_through own
    (VllmClient.and_then primary (λ res,
       if VllmClient.ok res then
         VllmClient.and_then (VllmClient.json res) (λ body,
         VllmClient.and_then (VllmClient.reading property body) (λ body,
           inr (Some (k body))))
       else if negb (VllmClient.status res =? 404)%Z then
         VllmClient.and_then (VllmClient.text res) (λ t, inl (refuse res t))
       else inr None))
  = inr None.
Proof.
  unfold primary_unavailable. destruct primary as [e|res]; simpl.
  - apply fall_through_not_own.
  - destruct (VllmClient.ok res).
    + destruct (VllmClient.json res) as [e|[b|]]; simpl; [| done | done].
      apply fall_through_not_own.
    + intros [->|Ht]; simpl; [done |].
      destruct (VllmClient.status res =? 404)%Z; simpl; [done |].
      destruct (VllmClient.text res) as [e|t]; [| done]. simpl.
      by apply fall_through_not_own.
Qed.

(** [prefill] and [decode] use the disaggregated endpoint when it answers
    with a success status and a readable body, and then do not look at the
    fallback; they throw their own error, without trying the fallback, when
    it answers with a status that is neither a success nor 404 and its text
    can be read; in every other case (404, a rejected [fetch], a timeout, an
    unreadable or [null] body) the outcome is that of the fallback call
    alone, as if the network had failed on the first call: the result built
    from the fallback body, or the error of the fallback call. *)
Theorem client_fallback_rule start now1 now2 :
  (∀ primary fallback,
     (∀ res body,
        primary = inr res → VllmClient.ok res = true →
        VllmClient.json res = inr (Some body) →
        VllmClient.prefill primary fallback start now1 now2
        = inr (PrefillResult.mk (VllmClient.kv_cache_handle body)
                 (VllmClient.prefill_prompt_tokens body) (now1 - start)))
     ∧ (∀ res t,
          primary = inr res → VllmClient.ok res = false →
          VllmClient.status res ≠ 404%Z → VllmClient.text res = inr t →
          VllmClient.prefill primary fallback start now1 now2
          = inl (VllmClient.OtherError
                   ("prefill endpoint returned "
                    +:+ pretty (VllmClient.status res) +:+ ": " +:+ t)))
     ∧ (primary_unavailable "prefill endpoint" primary →
        VllmClient.prefill primary fallback start now1 now2
        = VllmClient.prefill (inl (VllmClient.TypeError "fetch failed"))
            fallback start now1 now2
        ∧ (∀ res body,
             fallback = inr res → VllmClient.ok res = true →
             VllmClient.json res = inr (Some body) →
             VllmClient.prefill primary fallback start now1 now2
             = inr (PrefillResult.mk (VllmClient.id body)
                      (default 0%Z
                         (match VllmClient.prefill_usage body with
                          | Some usage => VllmClient.prompt_tokens usage
                          | None => None
                          end))
                      (now2 - start)))
        ∧ (∀ res t,
             fallback = inr res → VllmClient.ok res = false →
             VllmClient.text res = inr t →
             VllmClient.prefill primary fallback start now1 now2
             = inl (VllmClient.OtherError
                      ("prefill fallback returned "
                       +:+ pretty (VllmClient.status res) +:+ ": " +:+ t)))
        ∧ (∀ e, fallback = inl e →
             VllmClient.prefill primary fallback start now1 now2 = inl e)))
  ∧ (∀ primary fallback,
       (∀ res body,
          primary = inr res → VllmClient.ok res = true →
          VllmClient.json res = inr (Some body) →
          VllmClient.decode primary fallback start now1 now2
          = inr (DecodeResult.mk (VllmClient.decode_text body)
                   (VllmClient.completion_tokens body) (now1 - start)))
       ∧ (∀ res t,
            primary = inr res → VllmClient.ok res = false →
            VllmClient.status res ≠ 404%Z → VllmClient.text res = inr t →
            VllmClient.decode primary fallback start now1 now2
            = inl (VllmClient.OtherError
                     ("decode endpoint returned "
                      +:+ pretty (VllmClient.status res) +:+ ": " +:+ t)))
       ∧ (primary_unavailable "decode endpoint" primary →
          VllmClient.decode primary fallback start now1 now2
          = VllmClient.decode (inl (VllmClient.TypeError "fetch failed"))
              fallback start now1 now2
          ∧ (∀ res body,
               fallback = inr res → VllmClient.ok res = true →
               VllmClient.json res = inr (Some body) →
               VllmClient.decode primary fallback start now1 now2
               = inr (DecodeResult.mk
                        (default ""
                           (match VllmClient.choices body with
                            | Some (choice :: _) => VllmClient.choice_text choice
                            | _ => None
                            end))
                        (default 0%Z
                           (match VllmClient.decode_usage body with
                            | Some usage =>
                                VllmClient.usage_completion_tokens usage
                            | None => None
                            end))
                        (now2 - start)))
          ∧ (∀ res t,
               fallback = inr res → VllmClient.ok res = false →
               VllmClient.text res = inr t →
               VllmClient.decode primary fallback start now1 now2
               = inl (VllmClient.OtherError
                        ("decode fallback returned "
                         +:+ pretty (VllmClient.status res) +:+ ": " +:+ t)))
          ∧ (∀ e, fallback = inl e →
               VllmClient.decode primary fallback start now1 now2 = inl e))).
Proof.
  split; intros primary fallback; (split; [| split]).
  - intros res body -> Hok Hj. unfold VllmClient.prefill. simpl.
    by rewrite Hok, Hj.
  - intros res t -> Hok H404 Ht. unfold VllmClient.prefill. simpl.
    rewrite Hok, Ht. apply Z.eqb_neq in H404. rewrite H404. done.
  - intros Hun. unfold VllmClient.prefill. cbv zeta.
    rewrite (fall_through_unavailable _ _ _ _ _ Hun). simpl.
    split; [done |]. split; [| split].
    + intros res body -> Hok Hj. simpl. by rewrite Hok, Hj.
    + intros res t -> Hok Ht. simpl. by rewrite Hok, Ht.
    + by intros e ->.
  - intros res body -> Hok Hj. unfold VllmClient.decode. simpl.
    by rewrite Hok, Hj.
  - intros res t -> Hok H404 Ht. unfold VllmClient.decode. simpl.
    rewrite Hok, Ht. apply Z.eqb_neq in H404. rewrite H404. done.
  - intros Hun. unfold VllmClient.decode. cbv zeta.
    rewrite (fall_through_unavailable _ _ _ _ _ Hun). simpl.
    split; [done |]. split; [| split].
    + intros res body -> Hok Hj. simpl. by rewrite Hok, Hj.
    + intros res t -> Hok Ht. simpl. by rewrite Hok, Ht.
    + by intros e ->.
Qed.

Lemma client_fallback_rule_witness :
  let timeout := inl (VllmClient.OtherError
                        "The operation was aborted due to timeout") in
  let body := VllmClient.mkPrefillFallbackBody "cmpl-1" None in
  let fallback := inr (VllmClient.mkResponse true 200 (inr "") (inr (Some body))) in
  let refused := inr (VllmClient.mkResponse false 500 (inr "boom")
                        (inl (VllmClient.OtherError "no body"))) in
  VllmClient.prefill timeout fallback 10 20 35
  = inr (PrefillResult.mk "cmpl-1" 0 25)
  ∧ VllmClient.prefill refused fallback 10 20 35
    = inl (VllmClient.OtherError "prefill endpoint returned 500: boom").
Proof.
  intros timeout body fallback refused.
  destruct (client_fallback_rule 10 20 35) as [Hprefill _]. split.
  - destruct (Hprefill timeout fallback) as (_ & _ & Hfall).
    destruct Hfall as (_ & Hok & _); [done |].
    exact (Hok (VllmClient.mkResponse true 200 (inr "") (inr (Some body))) body
             eq_refl eq_refl eq_refl).
  - destruct (Hprefill refused fallback) as (_ & Hown & _).
    refine (Hown (VllmClient.mkResponse false 500 (inr "boom")
                    (inl (VllmClient.OtherError "no body"))) "boom"
              eq_refl eq_refl _ eq_refl).
    done.
Defined.

(** ** The page monitor *)

Section monitor.
Import Monitor.

Lemma describe_curl_error stderr errMessage :
  describe (curl_error stderr errMessage) ≠ "".
Proof.
  unfold curl_error, describe.
  repeat case_bool_decide; try done; congruence.
Qed.

Lemma log_curl_error message stderr errMessage w :
  log message (Some (describe (curl_error stderr errMessage))) w
  = mkWorld (lastAlertAt w) (lastErrorAlertAt w)
      (logFile w
       ++ [mkLine message (Some (describe (curl_error stderr errMessage)))])
      (slept w) (outbox w).
Proof.
  unfold log. rewrite bool_decide_eq_false_2; [done |].
  apply describe_curl_error.
Qed.

Lemma fetchLoop_done curl remaining attempt lastErr w stdout :
  curl attempt = CurlDone stdout →
  fetchLoop curl (S remaining) attempt lastErr w = (inr stdout, w).
Proof. intros H. simpl. by rewrite H. Qed.

Lemma fetchLoop_failed curl remaining attempt lastErr w stderr errMessage :
  curl attempt = CurlFailed stderr errMessage →
  fetchLoop curl (S remaining) attempt lastErr w
  = fetchLoop curl remaining (S attempt)
      (Some (curl_error stderr errMessage))
      (let w := mkWorld (lastAlertAt w) (lastErrorAlertAt w)
                  (logFile w ++ [attempt_line curl attempt]) (slept w)
                  (outbox w) in
       if bool_decide (attempt < RETRY_MAX)
       then sleep RETRY_DELAY_MS w else w).
Proof.
  intros H. cbn [fetchLoop]. rewrite H. unfold attempt_line. rewrite H.
  by rewrite log_curl_error.
Qed.

Lemma fetchLoop_frame curl remaining attempt lastErr w :
  lastAlertAt (fetchLoop curl remaining attempt lastErr w).2 = lastAlertAt w
  ∧ lastErrorAlertAt (fetchLoop curl remaining attempt lastErr w).2
    = lastErrorAlertAt w
  ∧ outbox (fetchLoop curl remaining attempt lastErr w).2 = outbox w.
Proof.
  revert attempt lastErr w.
  induction remaining as [|remaining IH]; intros attempt lastErr w; [done |].
  simpl. destruct (curl attempt) as [stdout|stderr errMessage]; [done |].
  match goal with
  | |- context [fetchLoop curl remaining ?a ?l ?w'] =>
      destruct (IH a l w') as (H1 & H2 & H3)
  end.
  rewrite H1, H2, H3. by case_bool_decide.
Qed.

Lemma failed_frame err now sendTime outcome w :
  lastAlertAt (failed err now sendTime outcome w) = lastAlertAt w
  ∧ lastErrorAlertAt (failed err now sendTime outcome w) = lastErrorAlertAt w
  ∧ outbox (failed err now sendTime outcome w) = outbox w.
Proof. done. Qed.

Lemma checked_alert fetched hasKeyword now sendTime w :
  (checked fetched hasKeyword now sendTime w).1 = true →
  (COOLDOWN_MS ≤ now - lastAlertAt w)%Z
  ∧ lastAlertAt (checked fetched hasKeyword now sendTime w).2 = now.
Proof.
  unfold checked. destruct fetched as [err|html]; [done |].
  destruct (hasKeyword html); [| done]. cbn [lastAlertAt log].
  destruct (now - lastAlertAt w <? COOLDOWN_MS)%Z eqn:Hc; [done |].
  intros _. split; [| done]. by apply Z.ltb_ge.
Qed.

Lemma checked_lastAlertAt fetched hasKeyword now sendTime w :
  lastAlertAt (checked fetched hasKeyword now sendTime w).2 = lastAlertAt w
  ∨ lastAlertAt (checked fetched hasKeyword now sendTime w).2 = now.
Proof.
  unfold checked. destruct fetched as [err|html]; [by left |].
  destruct (hasKeyword html); [| by left]. cbn [lastAlertAt log].
  destruct (now - lastAlertAt w <? COOLDOWN_MS)%Z; [by left | by right].
Qed.

Lemma part_lastAlertAt p w :
  lastAlertAt (part p w) = lastAlertAt w
  ∨ clock_of p = Some (lastAlertAt (part p w)).
Proof.
  destruct p as [| err | err | curl | fetched hasKeyword now sendTime
                 | outcome sendTime now sendTime']; simpl;
    [by left | by left | by left | | |].
  - left. apply fetchLoop_frame.
  - destruct (checked_lastAlertAt fetched hasKeyword now sendTime w)
      as [-> | ->]; [by left | by right].
  - left. by destruct outcome.
Qed.

Lemma run_app parts1 parts2 w :
  run (parts1 ++ parts2) w = run parts2 (run parts1 w).
Proof. unfold run. by rewrite foldl_app. Qed.

Lemma run_lastAlertAt_ge parts w (bound : Z) :
  (bound ≤ lastAlertAt w)%Z →
  (∀ k p n, parts !! k = Some p → clock_of p = Some n → (bound ≤ n)%Z) →
  (bound ≤ lastAlertAt (run parts w))%Z.
Proof.
  revert w. induction parts as [|p parts IH]; intros w Hw Hparts; [done |].
  change (run (p :: parts) w) with (run parts (part p w)).
  apply IH.
  - destruct (part_lastAlertAt p w) as [-> | Hp]; [done |].
    by apply (Hparts 0%nat p).
  - intros k q n Hk. by apply (Hparts (S k)).
Qed.

Lemma part_outbox p w :
  Forall (λ m, subject m = "[ALERT] DeepSeek-V4 detected") (outbox w) →
  Forall (λ m, subject m = "[ALERT] DeepSeek-V4 detected")
    (outbox (part p w))
  ∧ lastErrorAlertAt (part p w) = lastErrorAlertAt w.
Proof.
  intros Hw.
  destruct p as [| err | err | curl | fetched hasKeyword now sendTime
                 | outcome sendTime now sendTime']; simpl; try done.
  - destruct (fetchLoop_frame curl RETRY_MAX 1 None w) as (_ & He & Ho).
    unfold fetchWithRetry. by rewrite He, Ho.
  - unfold checked. destruct fetched as [err|html]; [done |].
    destruct (hasKeyword html); [| done]. cbn [lastAlertAt log].
    destruct (now - lastAlertAt w <? COOLDOWN_MS)%Z; [done |].
    simpl. split; [| done]. apply Forall_app. split; [done |].
    by apply Forall_singleton.
  - by destruct outcome.
Qed.

End monitor.

(** [fetchWithRetry] runs [curl] at most three times and
    stops at the first run that succeeds, giving back its output; when all
    three fail it throws the error of the third, whose message is the
    [stderr] text, or the message of the run's error when [stderr] is
    empty. Each failed attempt adds one line to the log, and the five
    seconds of delay are slept after the first and the second failure
    only. It sends no mail and leaves the alert times alone. *)
Theorem fetch_retry_rule curl w :
  ∃ n,
    n ≤ Monitor.RETRY_MAX
    ∧ (∀ i, 1 ≤ i ≤ n → ∃ stderr errMessage,
                          curl i = Monitor.CurlFailed stderr errMessage)
    ∧ fetch_outcome curl n (Monitor.fetchWithRetry curl w).1
    ∧ Monitor.logFile (Monitor.fetchWithRetry curl w).2
      = Monitor.logFile w ++ (attempt_line curl <$> seq 1 n)
    ∧ Monitor.slept (Monitor.fetchWithRetry curl w).2
      = Monitor.slept w ++ replicate (n `min` 2) 5000%Z
    ∧ Monitor.outbox (Monitor.fetchWithRetry curl w).2 = Monitor.outbox w
    ∧ Monitor.lastAlertAt (Monitor.fetchWithRetry curl w).2
      = Monitor.lastAlertAt w.
Proof.
  unfold Monitor.fetchWithRetry, fetch_outcome.
  change Monitor.RETRY_MAX with 3%nat.
  destruct (curl 1%nat) as [t1|e1 m1] eqn:H1.
  { exists 0%nat. rewrite (fetchLoop_done _ _ _ _ _ _ H1). simpl.
    rewrite !app_nil_r.
    repeat split; try done; [lia | intros; lia |].
    left. split; [lia |]. by exists t1. }
  rewrite (fetchLoop_failed _ _ _ _ _ _ _ H1).
  destruct (curl 2%nat) as [t2|e2 m2] eqn:H2.
  { exists 1%nat. rewrite (fetchLoop_done _ _ _ _ _ _ H2). simpl.
    repeat split; try done; [lia | |].
    - intros i Hi. assert (i = 1)%nat as -> by lia. eauto.
    - left. split; [lia |]. by exists t2. }
  rewrite (fetchLoop_failed _ _ _ _ _ _ _ H2).
  destruct (curl 3%nat) as [t3|e3 m3] eqn:H3.
  { exists 2%nat. rewrite (fetchLoop_done _ _ _ _ _ _ H3). simpl.
    rewrite <- !app_assoc.
    repeat split; try done; [lia | |].
    - intros i Hi.
      assert (i = 1 ∨ i = 2)%nat as [-> | ->] by lia; eauto.
    - left. split; [lia |]. by exists t3. }
  rewrite (fetchLoop_failed _ _ _ _ _ _ _ H3).
  exists 3%nat. simpl. rewrite <- !app_assoc.
  repeat split; try done.
  - intros i Hi.
    assert (i = 1 ∨ i = 2 ∨ i = 3)%nat as [-> | [-> | ->]] by lia; eauto.
  - right. split; [done |]. by exists e3, m3.
Qed.

(** However the checks of the interval timer overlap,
    two alerts handed to [sendMail] are at least [COOLDOWN_MS] (two hours)
    apart, as long as the clock does not go back. The time of an alert is
    taken before the mail is sent, so an alert whose sending fails is not
    tried again within the two hours either. *)
Theorem alerts_respect_cooldown parts w i j ni nj :
  clock_monotone parts →
  i < j →
  alerts_at parts w i ni →
  alerts_at parts w j nj →
  (Monitor.COOLDOWN_MS ≤ nj - ni)%Z.
Proof.
  intros Hclock Hij (fi & ki & si & Hi & Hai) (fj & kj & sj & Hj & Haj).
  apply checked_alert in Hai as [_ Hai], Haj as [Haj _].
  assert (take j parts
          = take i parts
            ++ Monitor.Checked fi ki ni si :: drop (S i) (take j parts))
    as Hsplit.
  { rewrite <- (take_drop_middle (take j parts) i
                  (Monitor.Checked fi ki ni si)) at 1.
    - by rewrite take_take, Nat.min_l by lia.
    - by rewrite lookup_take_lt by lia. }
  rewrite Hsplit, run_app in Haj.
  change (Monitor.run (?p :: ?l) ?w)
    with (Monitor.run l (Monitor.part p w)) in Haj.
  enough (ni ≤ Monitor.lastAlertAt
                 (Monitor.run (drop (S i) (take j parts))
                    (Monitor.part (Monitor.Checked fi ki ni si)
                       (Monitor.run (take i parts) w))))%Z by lia.
  apply run_lastAlertAt_ge.
  - simpl. by rewrite Hai.
  - intros k p n Hk Hp. rewrite lookup_drop in Hk.
    apply lookup_take_Some in Hk as [Hk _].
    apply (Hclock i (S i + k)%nat (Monitor.Checked fi ki ni si) p);
      [lia | done..].
Qed.

Lemma alerts_respect_cooldown_witness :
  let check now :=
    Monitor.Checked (inr "DeepSeek-V4") (λ _, true) now "2026/1/1 10:00:00" in
  let parts := [check 7200000%Z; Monitor.Mailed (inl (Monitor.OtherValue "x"))
                  "2026/1/1 10:00:00" 7200001%Z "2026/1/1 10:00:01";
                check 14400000%Z] in
  clock_monotone parts
  ∧ alerts_at parts Monitor.initial 0 7200000
  ∧ alerts_at parts Monitor.initial 2 14400000
  ∧ (Monitor.COOLDOWN_MS ≤ 14400000 - 7200000)%Z.
Proof.
  intros check parts.
  assert (clock_monotone parts) as Hclock.
  { intros a b pa pb na nb Hab Ha Hb Hna Hnb.
    destruct a as [|[|[|a]]], b as [|[|[|b]]]; simpl in *;
      simplify_eq; simpl in *; simplify_eq; lia. }
  assert (alerts_at parts Monitor.initial 0 7200000) as H0.
  { by exists (inr "DeepSeek-V4"), (λ _, true), "2026/1/1 10:00:00". }
  assert (alerts_at parts Monitor.initial 2 14400000) as H2.
  { by exists (inr "DeepSeek-V4"), (λ _, true), "2026/1/1 10:00:00". }
  split; [exact Hclock |]. split; [exact H0 |]. split; [exact H2 |].
  apply (alerts_respect_cooldown parts Monitor.initial 0 2 7200000 14400000
           Hclock); [lia | exact H0 | exact H2].
Defined.

(** Started as the module is loaded, the monitor never
    sends an error mail, whatever fails and however its checks overlap:
    every mail it hands to [sendMail] is an alert for the keyword, and
    [lastErrorAlertAt] stays 0. *)
Theorem monitor_sends_only_alerts parts :
  Forall (λ m, Monitor.subject m = "[ALERT] DeepSeek-V4 detected")
    (Monitor.outbox (Monitor.run parts Monitor.initial))
  ∧ Monitor.lastErrorAlertAt (Monitor.run parts Monitor.initial) = 0%Z.
Proof.
  assert (∀ w,
    Forall (λ m, Monitor.subject m = "[ALERT] DeepSeek-V4 detected")
      (Monitor.outbox w) →
    Forall (λ m, Monitor.subject m = "[ALERT] DeepSeek-V4 detected")
      (Monitor.outbox (Monitor.run parts w))
    ∧ Monitor.lastErrorAlertAt (Monitor.run parts w)
      = Monitor.lastErrorAlertAt w) as Hrun.
  { induction parts as [|p parts IH]; intros w Hw; [done |].
    change (Monitor.run (p :: parts) w)
      with (Monitor.run parts (Monitor.part p w)).
    destruct (part_outbox p w Hw) as [Ho He].
    destruct (IH _ Ho) as [Ho' He']. split; [done |]. by rewrite He', He. }
  by apply Hrun.
Qed.

(** ** The averages of the metrics *)

Lemma sum_bounds (samples : list Z) (lo hi acc : Z) :
  Forall (λ x, lo ≤ x ≤ hi)%Z samples →
  (acc + Z.of_nat (length samples) * lo ≤ foldl Z.add acc samples
   ≤ acc + Z.of_nat (length samples) * hi)%Z.
Proof.
  intros H. revert acc.
  induction H as [|x samples Hx _ IH]; intros acc; simpl; [lia |].
  specialize (IH (acc + x)%Z). lia.
Qed.

Lemma Math_round_bounds (sum n lo hi : Z) :
  (0 < n)%Z → (n * lo ≤ sum ≤ n * hi)%Z →
  (lo ≤ HealthMonitor.Math_round (inject_Z sum / inject_Z n) ≤ hi)%Z.
Proof.
  intros Hn [Hlo Hhi]. unfold HealthMonitor.Math_round.
  assert (0 < inject_Z n)%Q as Hn' by (by rewrite <- (Zlt_Qlt 0)).
  assert (inject_Z lo <= inject_Z sum / inject_Z n)%Q as Hlo'.
  { apply Qle_shift_div_l; [done |].
    rewrite <- inject_Z_mult, <- Zle_Qle. lia. }
  assert (inject_Z sum / inject_Z n <= inject_Z hi)%Q as Hhi'.
  { apply Qle_shift_div_r; [done |].
    rewrite <- inject_Z_mult, <- Zle_Qle. lia. }
  split.
  - rewrite <- (Qfloor_Z lo). apply Qfloor_resp_le.
    apply Qle_trans with (inject_Z sum / inject_Z n)%Q; [done |].
    rewrite <- (Qplus_0_r (inject_Z sum / inject_Z n)) at 1.
    by apply Qplus_le_r.
  - enough (Qfloor (inject_Z sum / inject_Z n + (1 # 2)) < hi + 1)%Z by lia.
    rewrite Zlt_Qlt.
    apply Qle_lt_trans with (inject_Z sum / inject_Z n + (1 # 2))%Q;
      [apply Qfloor_le |].
    rewrite inject_Z_plus.
    apply Qle_lt_trans with (inject_Z hi + (1 # 2))%Q;
      [by apply Qplus_le_l |].
    by apply Qplus_lt_r.
Qed.

Lemma average_summarises (samples : list Z) :
  summarises samples
    (HealthMonitor.Math_round (LatencyWindow.average samples)).
Proof.
  split; [by intros -> |].
  intros lo hi Hne Hall.
  destruct samples as [|x samples]; [done |].
  unfold LatencyWindow.average.
  apply Math_round_bounds; [simpl; lia |].
  pose proof (sum_bounds (x :: samples) lo hi 0 Hall). lia.
Qed.

(** The three average latencies of the metrics are whole numbers of
    milliseconds that summarise the samples of their windows: 0 while
    nothing has completed, and otherwise between the smallest and the
    largest sample kept, so never below 0 when no latency is. *)
Theorem reported_averages_within_samples (s : PDScheduler.t) :
  let m := PDScheduler.metrics s in
  let h := PDScheduler.health s in
  summarises (HealthMonitor.latency_total h) (SchedulerMetrics.avgLatencyMs m)
  ∧ summarises (HealthMonitor.latency_prefill h)
      (SchedulerMetrics.avgPrefillLatencyMs m)
  ∧ summarises (HealthMonitor.latency_decode h)
      (SchedulerMetrics.avgDecodeLatencyMs m).
Proof.
  intros m h. subst m h.
  split; [| split]; apply average_summarises.
Qed.
